(** * Total-variation denoising (skimage/filter/denoise.py)

    A shallow embedding of [_tv_denoise_2d], [_tv_denoise_3d], [tv_denoise]
    and of the validation prefix of [denoise_bilateral].

    Samples are IEEE-754 binary64 numbers (numpy's [float64], the kernel's
    primitive [float]); a rank-2 array is a list of rows, a rank-3 array a
    list of planes, and the arrays are taken to be stored in this order
    (C-contiguous, as numpy creates them).  Python integers are [Z].  A call
    either returns a value or raises, which is the type [result].

    The optimizers divide by the weight in Python's own arithmetic
    ([0.5 / weight], lines 65 and 150), which raises [ZeroDivisionError]
    for a zero weight.  The kernels below compute the binary64 quotient,
    which is the same for every other weight; each statement about an
    optimizer therefore assumes [nonzero_weight]. *)

From Stdlib Require Uint63.
From Stdlib Require Import Floats.PrimFloat.
From Stdlib Require Import Floats.SpecFloat Floats.FloatOps Floats.FloatAxioms.
From Stdlib Require Import ZArith Lia Ascii String.
From stdpp Require Import base list strings.

Set Default Proof Using "Type".

(** ** Exceptions and results *)

Inductive exn : Type :=
  | UnboundLocalError (var : string)
  | ValueError (msg : string)
  | IndexError (msg : string).

Inductive result (A : Type) : Type :=
  | Ok (a : A)
  | Raise (e : exn).
Arguments Ok {A} a.
Arguments Raise {A} e.

Definition rbind {A B} (m : result A) (f : A → result B) : result B :=
  match m with
  | Ok a => f a
  | Raise e => Raise e
  end.

Definition is_ok {A} (m : result A) : bool :=
  match m with Ok _ => true | Raise _ => false end.

(** ** Arrays *)

Abbreviation arr1 := (list float).
Abbreviation arr2 := (list (list float)).
Abbreviation arr3 := (list (list (list float))).

(** [float(n)] for a non-negative Python integer. *)
Definition float_of_nat (n : nat) : float :=
  of_uint63 (Uint63.of_Z (Z.of_nat n)).

Section Slices.
Context {A : Type}.

(** [d[1:] += p[:-1]] along the leading axis of [d]. *)
Definition shift_add (add : A → A → A) (d p : list A) : list A :=
  take 1 d ++ zip_with add (drop 1 d) (take (length p - 1) p).

(** [np.diff(a, axis=0)], that is [a[1:] - a[:-1]]. *)
Definition np_diff (sub : A → A → A) (a : list A) : list A :=
  zip_with sub (drop 1 a) (take (length a - 1) a).

(** [g[:-1] = v] along the leading axis of [g]. *)
Definition set_init (g v : list A) : list A :=
  v ++ drop (length g - 1) g.
End Slices.

(** Elementwise operations on rank-1, rank-2 and rank-3 arrays. *)
Definition map1 (f : float → float) (a : arr1) : arr1 := fmap (M:=list) f a.
Definition map2 (f : float → float) (a : arr2) : arr2 := fmap (M:=list) (map1 f) a.
Definition map3 (f : float → float) (a : arr3) : arr3 := fmap (M:=list) (map2 f) a.
Definition zip1 (f : float → float → float) : arr1 → arr1 → arr1 := zip_with f.
Definition zip2 (f : float → float → float) : arr2 → arr2 → arr2 :=
  zip_with (zip1 f).
Definition zip3 (f : float → float → float) : arr3 → arr3 → arr3 :=
  zip_with (zip2 f).

(** [a.sum()] of a contiguous array is numpy's pairwise summation
    ([pairwise_sum] of its [add] loop).  Fewer than 8 samples are added one
    after the other.  Up to 128 samples are added in eight running sums,
    [r[j]] taking the samples at the indices [j], [8 + j], [16 + j], ...
    of the whole blocks of eight; the running sums are added as a balanced
    tree and the samples behind the last whole block one after the other.
    A longer array is cut in two at a multiple of eight near its middle.
    The sums of this file are over squares and square roots, none of which
    is a negative zero, so that the zero the summation starts from does not
    show in the result. *)
Fixpoint accumulate8 (blocks : nat) (r a : arr1) : arr1 :=
  match blocks with
  | O => r
  | S b => accumulate8 b (zip_with PrimFloat.add r (take 8 a)) (drop 8 a)
  end.

Definition sum8 (r : arr1) : float :=
  ((nth 0 r 0 + nth 1 r 0) + (nth 2 r 0 + nth 3 r 0)
   + ((nth 4 r 0 + nth 5 r 0) + (nth 6 r 0 + nth 7 r 0)))%float.

Definition block_sum (a : arr1) : float :=
  let n := length a in
  let r := accumulate8 (n / 8 - 1) (take 8 a) (drop 8 a) in
  foldl PrimFloat.add (sum8 r) (drop (n - n mod 8) a).

(** [depth] bounds the number of nested cuts; the length of the array is
    more than enough, so that the case [O] is not reached on an array of
    more than 128 samples ([pairwise_sum_depth], [sum1_eq]). *)
Fixpoint pairwise_sum (depth : nat) (a : arr1) : float :=
  let n := length a in
  if (n <? 8)%nat then foldl PrimFloat.add 0%float a
  else if (n <=? 128)%nat then block_sum a
  else
    match depth with
    | O => block_sum a
    | S depth' =>
      let n2 := (n / 2)%nat in
      let n2 := (n2 - n2 mod 8)%nat in
      (pairwise_sum depth' (take n2 a) + pairwise_sum depth' (drop n2 a))%float
    end.

Definition sum1 (a : arr1) : float := pairwise_sum (length a) a.
Definition sum2 (a : arr2) : float := sum1 (concat a).
Definition sum3 (a : arr3) : float := sum1 (concat (concat a)).

(** [a.size] *)
Definition size2 (a : arr2) : nat := length (concat a).
Definition size3 (a : arr3) : nat := length (concat (concat a)).

(** [a ** 2] *)
Definition square (x : float) : float := (x * x)%float.

(** ** The loop driver

    Both optimizers end their loop body with the same convergence test
    (lines 73-82 and 156-165).  [V] holds the array variables of a
    function, [kernel] is the part of the body before the test: it updates
    the arrays and yields this iteration's energy [E]. *)

Inductive ctrl : Type :=
  | Continue
  | Break
  | Throw (e : exn).

Section Driver.
Context {V : Type}.
Variable kernel : V → V * float.
Variable eps : float.

Record loop_state : Type := LoopState {
  vars : V;
  E_init : option float;
  E_previous : option float;
  i : Z
}.

(** One execution of the loop body: how it ends, and the variables then. *)
Definition loop_body (s : loop_state) : ctrl * loop_state :=
  let '(v, E) := kernel (vars s) in
  if (i s =? 0)%Z then
    (Continue, LoopState v (Some E) (Some E) (i s + 1))
  else
    match E_previous s with
    | None => (Throw (UnboundLocalError "E_previous"),
               LoopState v (E_init s) (E_previous s) (i s))
    | Some Ep =>
      match E_init s with
      | None => (Throw (UnboundLocalError "E_init"),
                 LoopState v (E_init s) (E_previous s) (i s))
      | Some E0 =>
        if (abs (Ep - E) <? eps * E0)%float then
          (Break, LoopState v (E_init s) (E_previous s) (i s))
        else
          (Continue, LoopState v (E_init s) (Some E) (i s + 1))
      end
    end.

(** [while i < n_iter_max: body], with [rem] the number of values
    [i, i+1, ...] still below [n_iter_max].  The result is the number of
    executions of the body, the exception that ended the loop if one
    did, and the variables at that point. *)
Fixpoint while_loop (rem : nat) (s : loop_state)
    : nat * option exn * loop_state :=
  match rem with
  | O => (O, None, s)
  | S rem' =>
    match loop_body s with
    | (Throw e, s') => (1, Some e, s')
    | (Break, s') => (1, None, s')
    | (Continue, s') =>
      let '(k, e, s'') := while_loop rem' s' in (S k, e, s'')
    end
  end.

Definition run_loop (n_iter_max : Z) (v0 : V)
    : nat * option exn * loop_state :=
  while_loop (Z.to_nat n_iter_max) (LoopState v0 None None 0).
End Driver.

Arguments LoopState {V} _ _ _ _.
Arguments vars {V} _.
Arguments E_init {V} _.
Arguments E_previous {V} _.
Arguments i {V} _.

(** ** The 2-D optimizer *)

Record vars2 : Type := Vars2 {
  px2 : arr2; py2 : arr2;
  gx2 : arr2; gy2 : arr2;
  d2 : arr2;
  out2 : option arr2
}.

(** Lines 140-142. *)
Definition div2 (px py : arr2) : arr2 :=
  let d := zip2 PrimFloat.sub (map2 PrimFloat.opp px) py in
  let d := shift_add (zip1 PrimFloat.add) d px in
  zip_with (shift_add PrimFloat.add) d py.

(** Lines 146-147. *)
Definition grad2_x (gx out : arr2) : arr2 :=
  set_init gx (np_diff (zip1 PrimFloat.sub) out).
Definition grad2_y (gy out : arr2) : arr2 :=
  zip_with set_init gy (fmap (M:=list) (np_diff PrimFloat.sub) out).

(** Line 148. *)
Definition norm2 (gx gy : arr2) : arr2 :=
  map2 PrimFloat.sqrt (zip2 PrimFloat.add (map2 square gx) (map2 square gy)).

(** Lines 150-151, for a weight other than zero. *)
Definition scale_norm2 (weight : float) (norm : arr2) : arr2 :=
  let norm := map2 (λ x, x * (0.5 / weight))%float norm in
  map2 (λ x, x + 1)%float norm.

(** Lines 152-155, for one dual field. *)
Definition dual2 (p g norm : arr2) : arr2 :=
  let p := zip2 PrimFloat.sub p (map2 (λ x, 0.25 * x)%float g) in
  zip2 PrimFloat.div p norm.

(** Lines 140-156. *)
Definition tv2_kernel (im : arr2) (weight : float) (v : vars2) : vars2 * float :=
  let d := div2 (px2 v) (py2 v) in
  let out := zip2 PrimFloat.add im d in
  let E := sum2 (map2 square d) in
  let gx := grad2_x (gx2 v) out in
  let gy := grad2_y (gy2 v) out in
  let norm := norm2 gx gy in
  let E := (E + weight * sum2 norm)%float in
  let norm := scale_norm2 weight norm in
  let px := dual2 (px2 v) gx norm in
  let py := dual2 (py2 v) gy norm in
  let E := (E / float_of_nat (size2 im))%float in
  (Vars2 px py gx gy d (Some out), E).

(** [np.zeros_like(im)] *)
Definition zeros_like2 (im : arr2) : arr2 := map2 (λ _, 0%float) im.

(** Lines 133-137: [out] is not bound before the loop. *)
Definition tv2_init (im : arr2) : vars2 :=
  let z := zeros_like2 im in Vars2 z z z z z None.

Definition _tv_denoise_2d (im : arr2) (weight eps : float) (n_iter_max : Z)
    : result arr2 :=
  match run_loop (tv2_kernel im weight) eps n_iter_max (tv2_init im) with
  | (_, Some e, _) => Raise e
  | (_, None, s) =>
    match out2 (vars s) with
    | Some out => Ok out
    | None => Raise (UnboundLocalError "out")
    end
  end.

(** ** The 3-D optimizer *)

Record vars3 : Type := Vars3 {
  px3 : arr3; py3 : arr3; pz3 : arr3;
  gx3 : arr3; gy3 : arr3; gz3 : arr3;
  d3 : arr3;
  out3 : option arr3
}.

(** Lines 52-55. *)
Definition div3 (px py pz : arr3) : arr3 :=
  let d := zip3 PrimFloat.sub (zip3 PrimFloat.sub (map3 PrimFloat.opp px) py) pz in
  let d := shift_add (zip2 PrimFloat.add) d px in
  let d := zip_with (shift_add (zip1 PrimFloat.add)) d py in
  zip_with (zip_with (shift_add PrimFloat.add)) d pz.

(** Lines 60-62. *)
Definition grad3_x (gx out : arr3) : arr3 :=
  set_init gx (np_diff (zip2 PrimFloat.sub) out).
Definition grad3_y (gy out : arr3) : arr3 :=
  zip_with set_init gy (fmap (M:=list) (np_diff (zip1 PrimFloat.sub)) out).
Definition grad3_z (gz out : arr3) : arr3 :=
  zip_with (zip_with set_init) gz
    (fmap (M:=list) (fmap (M:=list) (np_diff PrimFloat.sub)) out).

(** Line 63. *)
Definition norm3 (gx gy gz : arr3) : arr3 :=
  map3 PrimFloat.sqrt
    (zip3 PrimFloat.add
       (zip3 PrimFloat.add (map3 square gx) (map3 square gy))
       (map3 square gz)).

(** Lines 65-66, for a weight other than zero. *)
Definition scale_norm3 (weight : float) (norm : arr3) : arr3 :=
  let norm := map3 (λ x, x * (0.5 / weight))%float norm in
  map3 (λ x, x + 1)%float norm.

(** Lines 67-72, for one dual field. *)
Definition dual3 (p g norm : arr3) : arr3 :=
  let p := zip3 PrimFloat.sub p (map3 (λ x, 1 / 6 * x)%float g) in
  zip3 PrimFloat.div p norm.

(** Lines 52-73. *)
Definition tv3_kernel (im : arr3) (weight : float) (v : vars3) : vars3 * float :=
  let d := div3 (px3 v) (py3 v) (pz3 v) in
  let out := zip3 PrimFloat.add im d in
  let E := sum3 (map3 square d) in
  let gx := grad3_x (gx3 v) out in
  let gy := grad3_y (gy3 v) out in
  let gz := grad3_z (gz3 v) out in
  let norm := norm3 gx gy gz in
  let E := (E + weight * sum3 norm)%float in
  let norm := scale_norm3 weight norm in
  let px := dual3 (px3 v) gx norm in
  let py := dual3 (py3 v) gy norm in
  let pz := dual3 (pz3 v) gz norm in
  let E := (E / float_of_nat (size3 im))%float in
  (Vars3 px py pz gx gy gz d (Some out), E).

Definition zeros_like3 (im : arr3) : arr3 := map3 (λ _, 0%float) im.

(** Lines 43-49. *)
Definition tv3_init (im : arr3) : vars3 :=
  let z := zeros_like3 im in Vars3 z z z z z z z None.

Definition _tv_denoise_3d (im : arr3) (weight eps : float) (n_iter_max : Z)
    : result arr3 :=
  match run_loop (tv3_kernel im weight) eps n_iter_max (tv3_init im) with
  | (_, Some e, _) => Raise e
  | (_, None, s) =>
    match out3 (vars s) with
    | Some out => Ok out
    | None => Raise (UnboundLocalError "out")
    end
  end.

(** ** Arrays of any rank, as the entry points receive them

    An [ndarray] carries its element kind ([dtype.kind]), its shape and its
    samples in row-major order. *)

Inductive dtype_kind : Type :=
  | kind_b | kind_i | kind_u | kind_f | kind_c | kind_O.

Record ndarray : Type := NdArray {
  dtype : dtype_kind;
  shape : list nat;
  buf : list float
}.

Definition ndim (a : ndarray) : nat := length (shape a).

Definition kind_is_f (k : dtype_kind) : bool :=
  match k with kind_f => true | _ => false end.

(** The rows of a [r] x [c] buffer, and the planes of an [a] x [b] x [c] one. *)
Definition to_arr2 (r c : nat) (l : list float) : arr2 :=
  reshape (replicate r c) l.
Definition to_arr3 (a b c : nat) (l : list float) : arr3 :=
  fmap (M:=list) (to_arr2 b c) (reshape (replicate a (b * c)) l).

(** What the entry points call, in call order. *)
Inductive call : Type :=
  | call_img_as_float (im : ndarray)
  | call_tv_denoise_2d (im : arr2) (weight eps : float) (n_iter_max : Z)
  | call_tv_denoise_3d (im : arr3) (weight eps : float) (n_iter_max : Z)
  | call_denoise_bilateral2d (image : ndarray) (mode : Z)
  | call_denoise_bilateral3d (image : ndarray) (mode : Z).

Definition dim_error : exn :=
  ValueError "only 2-d and 3-d images may be denoised with this function".

(** Lines 235-242: the branch on the rank. *)
Definition tv_dispatch (im : ndarray) (weight eps : float) (n_iter_max : Z)
    : list call * result ndarray :=
  match shape im with
  | [r; c] =>
    let a := to_arr2 r c (buf im) in
    ([call_tv_denoise_2d a weight eps n_iter_max],
     rbind (_tv_denoise_2d a weight eps n_iter_max)
       (λ out, Ok (NdArray (dtype im) (shape im) (concat out))))
  | [p; r; c] =>
    let a := to_arr3 p r c (buf im) in
    ([call_tv_denoise_3d a weight eps n_iter_max],
     rbind (_tv_denoise_3d a weight eps n_iter_max)
       (λ out, Ok (NdArray (dtype im) (shape im) (concat (concat out)))))
  | _ => ([], Raise dim_error)
  end.

Section TvDenoise.
(** [skimage.img_as_float] is defined outside this file. *)
Variable img_as_float : ndarray → ndarray.

(** Lines 231-242. *)
Definition tv_denoise (im : ndarray) (weight eps : float) (n_iter_max : Z)
    : list call * result ndarray :=
  if negb (kind_is_f (dtype im)) then
    let '(log, r) := tv_dispatch (img_as_float im) weight eps n_iter_max in
    (call_img_as_float im :: log, r)
  else tv_dispatch im weight eps n_iter_max.
End TvDenoise.

(** ** The bilateral filter's entry *)

Definition mode_error : exn :=
  ValueError "Invalid mode specified.  Please use `constant`, `nearest`, `wrap` or `reflect`.".

Definition valid_modes : list string := ["constant"; "wrap"; "reflect"; "nearest"].

(** [c.upper()] on an ASCII character. *)
Definition upper (c : ascii) : ascii :=
  let n := nat_of_ascii c in
  if (97 <=? n)%nat && (n <=? 122)%nat then ascii_of_nat (n - 32) else c.

(** [np.array(image, dtype=np.double)] *)
Definition np_array_double (image : ndarray) : ndarray :=
  NdArray kind_f (shape image) (buf image).

(** [np.squeeze(image)] *)
Definition np_squeeze (image : ndarray) : ndarray :=
  NdArray (dtype image) (filter (λ n, n ≠ 1) (shape image)) (buf image).

(** [np.ascontiguousarray(image)]: the same samples in row-major order;
    an array of rank 0 becomes one of shape [(1,)]. *)
Definition np_ascontiguousarray (image : ndarray) : ndarray :=
  match shape image with
  | [] => NdArray (dtype image) [1%nat] (buf image)
  | _ => image
  end.

Record bilateral_args : Type := BilateralArgs {
  win_size : Z;
  sigma_color : float;
  sigma_range : float;
  bins : float;
  cval : float
}.

Section Bilateral.
(** The compiled routines of [_denoise] are defined outside this file. *)
Variable _denoise_bilateral2d : ndarray → bilateral_args → Z → result ndarray.
Variable _denoise_bilateral3d : ndarray → bilateral_args → Z → result ndarray.

(** Lines 295-309. *)
Definition denoise_bilateral (image : ndarray) (args : bilateral_args)
    (mode : string) : list call * result ndarray :=
  let image := np_array_double image in
  if negb (bool_decide (mode ∈ valid_modes)) then ([], Raise mode_error)
  else
    match mode with
    | EmptyString => ([], Raise (IndexError "string index out of range"))
    | String c _ =>
      let mode := Z.of_nat (nat_of_ascii (upper c)) in
      let squeezable :=
        bool_decide (ndim image = 3) && bool_decide (shape image !! 2 = Some 1) in
      if bool_decide (ndim image = 2) || squeezable then
        let image := if squeezable then np_squeeze image else image in
        let image := np_ascontiguousarray image in
        ([call_denoise_bilateral2d image mode],
         _denoise_bilateral2d image args mode)
      else
        let image := np_ascontiguousarray image in
        ([call_denoise_bilateral3d image mode],
         _denoise_bilateral3d image args mode)
    end.
End Bilateral.

(** ** The optimizers over a store

    numpy arrays are mutable objects: [px -= ...], [d[1:] += ...] and
    [gx[:-1] = ...] write into an existing array, while [d = - px - py],
    [out = im + d] and [np.sqrt(...)] create one.  A store is the list of
    the arrays that exist, a location is an index into it, and a variable
    holds a location.  A statement is a computation over the store. *)

#[global] Instance float_inhabited : Inhabited float := populate 0%float.

Definition state (S A : Type) : Type := S → A * S.

Definition ret {S A} (a : A) : state S A := λ σ, (a, σ).
Definition bind {S A B} (m : state S A) (f : A → state S B) : state S B :=
  λ σ, let '(a, σ') := m σ in f a σ'.

Declare Scope store_scope.
Delimit Scope store_scope with store.
Notation "x <- m ;; k" := (bind m (λ x, k))
  (at level 100, m at next level, right associativity) : store_scope.
Notation "m ;;; k" := (bind m (λ _, k))
  (at level 100, right associativity) : store_scope.

Section Store.
Context {A : Type} `{!Inhabited A}.

(** The array at a location. *)
Definition get (l : nat) : state (list A) A := λ σ, (σ !!! l, σ).
(** Overwrite the array at a location, in place. *)
Definition put (l : nat) (v : A) : state (list A) unit := λ σ, (tt, <[l:=v]> σ).
(** A new array; its location is the next free one. *)
Definition new (v : A) : state (list A) nat := λ σ, (length σ, σ ++ [v]).
End Store.

Record env2 : Type := Env2 {
  l_px2 : nat; l_py2 : nat;
  l_gx2 : nat; l_gy2 : nat;
  l_d2 : nat;
  l_out2 : option nat
}.

(** Lines 140-156, statement by statement. *)
Definition tv2_kernel_h (im : nat) (weight : float) (ρ : env2)
    : state (list arr2) (env2 * float) :=
  (let px := l_px2 ρ in let py := l_py2 ρ in
   let gx := l_gx2 ρ in let gy := l_gy2 ρ in
   (* d = -px - py *)
   a <- get px ;; b <- get py ;;
   d <- new (zip2 PrimFloat.sub (map2 PrimFloat.opp a) b) ;;
   (* d[1:] += px[:-1] *)
   dv <- get d ;; a <- get px ;;
   put d (shift_add (zip1 PrimFloat.add) dv a) ;;;
   (* d[:, 1:] += py[:, :-1] *)
   dv <- get d ;; b <- get py ;;
   put d (zip_with (shift_add PrimFloat.add) dv b) ;;;
   (* out = im + d *)
   iv <- get im ;; dv <- get d ;;
   out <- new (zip2 PrimFloat.add iv dv) ;;
   (* E = (d**2).sum() *)
   dv <- get d ;;
   E <- ret (sum2 (map2 square dv)) ;;
   (* gx[:-1] = np.diff(out, axis=0) *)
   g <- get gx ;; ov <- get out ;;
   put gx (grad2_x g ov) ;;;
   (* gy[:, :-1] = np.diff(out, axis=1) *)
   g <- get gy ;; ov <- get out ;;
   put gy (grad2_y g ov) ;;;
   (* norm = np.sqrt(gx**2 + gy**2) *)
   g1 <- get gx ;; g2 <- get gy ;;
   norm <- new (norm2 g1 g2) ;;
   (* E += weight * norm.sum() *)
   nv <- get norm ;;
   E <- ret (E + weight * sum2 nv)%float ;;
   (* norm *= 0.5 / weight *)
   nv <- get norm ;;
   put norm (map2 (λ x, x * (0.5 / weight))%float nv) ;;;
   (* norm += 1 *)
   nv <- get norm ;;
   put norm (map2 (λ x, x + 1)%float nv) ;;;
   (* px -= 0.25 * gx *)
   a <- get px ;; g <- get gx ;;
   put px (zip2 PrimFloat.sub a (map2 (λ x, 0.25 * x)%float g)) ;;;
   (* px /= norm *)
   a <- get px ;; nv <- get norm ;;
   put px (zip2 PrimFloat.div a nv) ;;;
   (* py -= 0.25 * gy *)
   b <- get py ;; g <- get gy ;;
   put py (zip2 PrimFloat.sub b (map2 (λ x, 0.25 * x)%float g)) ;;;
   (* py /= norm *)
   b <- get py ;; nv <- get norm ;;
   put py (zip2 PrimFloat.div b nv) ;;;
   (* E /= float(im.size) *)
   iv <- get im ;;
   E <- ret (E / float_of_nat (size2 iv))%float ;;
   ret (Env2 px py gx gy d (Some out), E))%store.

(** Lines 133-137. *)
Definition tv2_init_h (im : nat) : state (list arr2) env2 :=
  (iv <- get im ;; px <- new (zeros_like2 iv) ;;
   iv <- get im ;; py <- new (zeros_like2 iv) ;;
   iv <- get im ;; gx <- new (zeros_like2 iv) ;;
   iv <- get im ;; gy <- new (zeros_like2 iv) ;;
   iv <- get im ;; d <- new (zeros_like2 iv) ;;
   ret (Env2 px py gx gy d None))%store.

(** The loop driver runs a kernel on the variables and the store together. *)
Definition with_store {E S} (k : E → state S (E * float)) (st : E * S)
    : (E * S) * float :=
  let '((ρ, e), σ) := k (fst st) (snd st) in ((ρ, σ), e).

(** [_tv_denoise_2d] called on the array at location [im] of the store [σ]:
    the store when the call ends, and the location it returns. *)
Definition _tv_denoise_2d_h (σ : list arr2) (im : nat) (weight eps : float)
    (n_iter_max : Z) : list arr2 * result nat :=
  match run_loop (with_store (tv2_kernel_h im weight)) eps n_iter_max
          (tv2_init_h im σ) with
  | (_, Some e, s) => (snd (vars s), Raise e)
  | (_, None, s) =>
    match l_out2 (fst (vars s)) with
    | Some out => (snd (vars s), Ok out)
    | None => (snd (vars s), Raise (UnboundLocalError "out"))
    end
  end.

Record env3 : Type := Env3 {
  l_px3 : nat; l_py3 : nat; l_pz3 : nat;
  l_gx3 : nat; l_gy3 : nat; l_gz3 : nat;
  l_d3 : nat;
  l_out3 : option nat
}.

(** Lines 52-73, statement by statement. *)
Definition tv3_kernel_h (im : nat) (weight : float) (ρ : env3)
    : state (list arr3) (env3 * float) :=
  (let px := l_px3 ρ in let py := l_py3 ρ in let pz := l_pz3 ρ in
   let gx := l_gx3 ρ in let gy := l_gy3 ρ in let gz := l_gz3 ρ in
   (* d = - px - py - pz *)
   a <- get px ;; b <- get py ;; c <- get pz ;;
   d <- new (zip3 PrimFloat.sub
               (zip3 PrimFloat.sub (map3 PrimFloat.opp a) b) c) ;;
   (* d[1:] += px[:-1] *)
   dv <- get d ;; a <- get px ;;
   put d (shift_add (zip2 PrimFloat.add) dv a) ;;;
   (* d[:, 1:] += py[:, :-1] *)
   dv <- get d ;; b <- get py ;;
   put d (zip_with (shift_add (zip1 PrimFloat.add)) dv b) ;;;
   (* d[:, :, 1:] += pz[:, :, :-1] *)
   dv <- get d ;; c <- get pz ;;
   put d (zip_with (zip_with (shift_add PrimFloat.add)) dv c) ;;;
   (* out = im + d *)
   iv <- get im ;; dv <- get d ;;
   out <- new (zip3 PrimFloat.add iv dv) ;;
   (* E = (d**2).sum() *)
   dv <- get d ;;
   E <- ret (sum3 (map3 square dv)) ;;
   (* gx[:-1] = np.diff(out, axis=0), and so for gy, gz *)
   g <- get gx ;; ov <- get out ;;
   put gx (grad3_x g ov) ;;;
   g <- get gy ;; ov <- get out ;;
   put gy (grad3_y g ov) ;;;
   g <- get gz ;; ov <- get out ;;
   put gz (grad3_z g ov) ;;;
   (* norm = np.sqrt(gx**2 + gy**2 + gz**2) *)
   g1 <- get gx ;; g2 <- get gy ;; g3 <- get gz ;;
   norm <- new (norm3 g1 g2 g3) ;;
   (* E += weight * norm.sum() *)
   nv <- get norm ;;
   E <- ret (E + weight * sum3 nv)%float ;;
   (* norm *= 0.5 / weight *)
   nv <- get norm ;;
   put norm (map3 (λ x, x * (0.5 / weight))%float nv) ;;;
   (* norm += 1. *)
   nv <- get norm ;;
   put norm (map3 (λ x, x + 1)%float nv) ;;;
   (* px -= 1. / 6. * gx ; px /= norm *)
   a <- get px ;; g <- get gx ;;
   put px (zip3 PrimFloat.sub a (map3 (λ x, 1 / 6 * x)%float g)) ;;;
   a <- get px ;; nv <- get norm ;;
   put px (zip3 PrimFloat.div a nv) ;;;
   (* py -= 1. / 6. * gy ; py /= norm *)
   b <- get py ;; g <- get gy ;;
   put py (zip3 PrimFloat.sub b (map3 (λ x, 1 / 6 * x)%float g)) ;;;
   b <- get py ;; nv <- get norm ;;
   put py (zip3 PrimFloat.div b nv) ;;;
   (* pz -= 1 / 6. * gz ; pz /= norm *)
   c <- get pz ;; g <- get gz ;;
   put pz (zip3 PrimFloat.sub c (map3 (λ x, 1 / 6 * x)%float g)) ;;;
   c <- get pz ;; nv <- get norm ;;
   put pz (zip3 PrimFloat.div c nv) ;;;
   (* E /= float(im.size) *)
   iv <- get im ;;
   E <- ret (E / float_of_nat (size3 iv))%float ;;
   ret (Env3 px py pz gx gy gz d (Some out), E))%store.

(** Lines 43-49. *)
Definition tv3_init_h (im : nat) : state (list arr3) env3 :=
  (iv <- get im ;; px <- new (zeros_like3 iv) ;;
   iv <- get im ;; py <- new (zeros_like3 iv) ;;
   iv <- get im ;; pz <- new (zeros_like3 iv) ;;
   iv <- get im ;; gx <- new (zeros_like3 iv) ;;
   iv <- get im ;; gy <- new (zeros_like3 iv) ;;
   iv <- get im ;; gz <- new (zeros_like3 iv) ;;
   iv <- get im ;; d <- new (zeros_like3 iv) ;;
   ret (Env3 px py pz gx gy gz d None))%store.

Definition _tv_denoise_3d_h (σ : list arr3) (im : nat) (weight eps : float)
    (n_iter_max : Z) : list arr3 * result nat :=
  match run_loop (with_store (tv3_kernel_h im weight)) eps n_iter_max
          (tv3_init_h im σ) with
  | (_, Some e, s) => (snd (vars s), Raise e)
  | (_, None, s) =>
    match l_out3 (fst (vars s)) with
    | Some out => (snd (vars s), Ok out)
    | None => (snd (vars s), Raise (UnboundLocalError "out"))
    end
  end.

(** Two calls, one after the other: the second one runs on the store that
    the first one leaves.  The store after both, and what each returned. *)
Definition twice {S R} (call : S → S * R) (σ : S) : S * R * R :=
  let '(σ1, r1) := call σ in
  let '(σ2, r2) := call σ1 in
  (σ2, r1, r2).

(** ** The loop, read as a sequence of iterations

    The specification speaks of "iteration k" and of the energy it
    computes.  These definitions follow its words: iteration [k] starts
    from the variables left by iterations [0 .. k-1] and computes the
    energy [energy_at k]; from iteration 1 on, the loop stops at the first
    iteration whose energy differs from the previous one by less than
    [eps * energy_at 0]. *)

Section LoopSpec.
Context {V : Type}.
Variable kernel : V → V * float.
Variable eps : float.
Variable v0 : V.

Definition vars_at (k : nat) : V := Nat.iter k (λ v, fst (kernel v)) v0.
Definition energy_at (k : nat) : float := snd (kernel (vars_at k)).

Definition converged_at (k : nat) : bool :=
  (abs (energy_at (k - 1) - energy_at k) <? eps * energy_at 0)%float.

(** The state in which iteration [k >= 1] starts. *)
Definition state_at (k : nat) : loop_state :=
  LoopState (vars_at k) (Some (energy_at 0)) (Some (energy_at (k - 1)))
    (Z.of_nat k).

(** Iterations executed from iteration [k >= 1] on, when [rem] more are
    allowed. *)
Fixpoint iterations_from (k rem : nat) : nat :=
  match rem with
  | O => O
  | S rem' => if converged_at k then 1 else S (iterations_from (S k) rem')
  end.

(** Iterations executed under the cap [n]. *)
Definition iterations (n : nat) : nat :=
  match n with
  | O => O
  | S n' => S (iterations_from 1 n')
  end.
End LoopSpec.

(** The estimate [out] that an iteration started with the variables [v]
    computes (lines 140-144 and 52-57). *)
Definition tv2_out (im : arr2) (v : vars2) : arr2 :=
  zip2 PrimFloat.add im (div2 (px2 v) (py2 v)).
Definition tv3_out (im : arr3) (v : vars3) : arr3 :=
  zip3 PrimFloat.add im (div3 (px3 v) (py3 v) (pz3 v)).

(** The number of times a call executes the loop body. *)
Definition tv2_iterations (im : arr2) (weight eps : float) (n_iter_max : Z) : nat :=
  fst (fst (run_loop (tv2_kernel im weight) eps n_iter_max (tv2_init im))).
Definition tv3_iterations (im : arr3) (weight eps : float) (n_iter_max : Z) : nat :=
  fst (fst (run_loop (tv3_kernel im weight) eps n_iter_max (tv3_init im))).

(** ** The loop as the source writes it

    [loop_exec n s k e s'] : started in state [s], [while i < n: body]
    executes the body [k] times and ends in state [s'], by an exception
    when [e] is one.  The loop test is the source's own. *)

Section LoopExec.
Context {V : Type}.
Variable kernel : V → V * float.
Variable eps : float.
Variable n_iter_max : Z.

Inductive loop_exec : loop_state → nat → option exn → loop_state → Prop :=
  | exec_exit s :
      ¬ (i s < n_iter_max)%Z →
      loop_exec s 0 None s
  | exec_break s s' :
      (i s < n_iter_max)%Z →
      loop_body kernel eps s = (Break, s') →
      loop_exec s 1 None s'
  | exec_throw s e s' :
      (i s < n_iter_max)%Z →
      loop_body kernel eps s = (Throw e, s') →
      loop_exec s 1 (Some e) s'
  | exec_continue s s' k e s'' :
      (i s < n_iter_max)%Z →
      loop_body kernel eps s = (Continue, s') →
      loop_exec s' k e s'' →
      loop_exec s (S k) e s''.
End LoopExec.

Section LoopContract.
Context {V R : Type}.
Variable kernel : V → V * float.
Variable eps : float.
Variable v0 : V.
(** [run n] is the call with [n_iter_max = n]; [out_of v] is the estimate
    computed by an iteration that starts with the variables [v]. *)
Variable run : Z → result R.
Variable out_of : V → R.

(** The convergence control in the specification's words: iteration 0
    records [E_init = E_previous = E] and continues; a later iteration
    stops when [|E_previous - E| < eps * E_init] and otherwise records
    [E_previous = E] and continues; the call returns the estimate of the
    first iteration [k >= 1] that stops, or that of the last iteration
    when none does. *)
Definition convergence_contract : Prop :=
  (∀ s, i s = 0%Z →
     loop_body kernel eps s
     = (Continue,
        LoopState (fst (kernel (vars s)))
          (Some (snd (kernel (vars s)))) (Some (snd (kernel (vars s)))) 1))
  ∧ (∀ s Ep E0,
       i s ≠ 0%Z → E_previous s = Some Ep → E_init s = Some E0 →
       loop_body kernel eps s
       = if (abs (Ep - snd (kernel (vars s))) <? eps * E0)%float
         then (Break,
               LoopState (fst (kernel (vars s))) (Some E0) (Some Ep) (i s))
         else (Continue,
               LoopState (fst (kernel (vars s))) (Some E0)
                 (Some (snd (kernel (vars s)))) (i s + 1)))
  ∧ (∀ (n : Z) (k : nat),
       (1 ≤ k)%nat → (Z.of_nat k < n)%Z →
       converged_at kernel eps v0 k = true →
       (∀ j, (1 ≤ j < k)%nat → converged_at kernel eps v0 j = false) →
       run n = Ok (out_of (vars_at kernel v0 k)))
  ∧ (∀ n : Z,
       (1 ≤ n)%Z →
       (∀ j, (1 ≤ j)%nat → (Z.of_nat j < n)%Z →
             converged_at kernel eps v0 j = false) →
       run n = Ok (out_of (vars_at kernel v0 (Z.to_nat n - 1)))).
End LoopContract.

(** ** The iteration, index by index

    The specification describes an iteration sample by sample.  The
    definitions below follow its words; [tab n f] is the list
    [f 0; ...; f (n-1)], and [at2 a i j], [at3 a i j k] read one sample. *)

Definition tab {A} (n : nat) (f : nat → A) : list A := f <$> seq 0 n.
Definition tab2 {A} (r c : nat) (f : nat → nat → A) : list (list A) :=
  tab r (λ i, tab c (f i)).
Definition tab3 {A} (p r c : nat) (f : nat → nat → nat → A)
    : list (list (list A)) :=
  tab p (λ i, tab2 r c (f i)).

Definition at2 (a : arr2) (i j : nat) : float := (a !!! i) !!! j.
Definition at3 (a : arr3) (i j k : nat) : float := ((a !!! i) !!! j) !!! k.

(** [a.shape == (r, c)] and [a.shape == (p, r, c)]. *)
Definition shape2 (r c : nat) (a : arr2) : Prop :=
  length a = r ∧ Forall (λ row, length row = c) a.
Definition shape3 (p r c : nat) (a : arr3) : Prop :=
  length a = p ∧ Forall (shape2 r c) a.

(** The descent step of one axis, [1 / (2 * number_of_axes)]. *)
Definition spec_step (naxes : float) : float := (1 / (2 * naxes))%float.

(** Minus the dual fields, plus along each axis the dual field's value at
    the previous index; nothing is added at index 0. *)
Definition spec_div2 (r c : nat) (px py : arr2) : arr2 :=
  tab2 r c (λ i j,
    let b := (- at2 px i j - at2 py i j)%float in
    let b := if (i =? 0)%nat then b else (b + at2 px (i - 1) j)%float in
    if (j =? 0)%nat then b else (b + at2 py i (j - 1))%float).

(** [out = image + d] *)
Definition spec_out2 (r c : nat) (im d : arr2) : arr2 :=
  tab2 r c (λ i j, at2 im i j + at2 d i j)%float.

(** Forward differences of [out]; zero at the last index of the axis. *)
Definition spec_grad2_x (r c : nat) (out : arr2) : arr2 :=
  tab2 r c (λ i j,
    if (S i <? r)%nat then (at2 out (S i) j - at2 out i j)%float else 0%float).
Definition spec_grad2_y (r c : nat) (out : arr2) : arr2 :=
  tab2 r c (λ i j,
    if (S j <? c)%nat then (at2 out i (S j) - at2 out i j)%float else 0%float).

(** [norm = sqrt(sum of squared per-axis gradients)] *)
Definition spec_norm2 (r c : nat) (gx gy : arr2) : arr2 :=
  tab2 r c (λ i j,
    PrimFloat.sqrt (square (at2 gx i j) + square (at2 gy i j)))%float.

(** "sum": the samples added up in binary64, in some order and with some
    bracketing; the sum of no sample is zero. *)
Inductive float_sum : list float → float → Prop :=
  | float_sum_nil : float_sum [] 0%float
  | float_sum_one x : float_sum [x] x
  | float_sum_add l1 l2 s1 s2 :
      float_sum l1 s1 → float_sum l2 s2 → float_sum (l1 ++ l2) (s1 + s2)%float
  | float_sum_perm l1 l2 s :
      l1 ≡ₚ l2 → float_sum l1 s → float_sum l2 s.

(** "total_element_count", as a binary64 number: the integer [n] rounded to
    the nearest one. *)
Definition float_count (n : nat) (x : float) : Prop :=
  Prim2SF x = binary_normalize prec emax (Z.of_nat n) 0 false.

(** "E = (sum(d^2) + weight * sum(norm)) / total_element_count", for the
    squared samples [squares] of [d], the samples [norms] of [norm] and
    [count] samples in the image. *)
Definition energy_spec (weight : float) (squares norms : list float)
    (count : nat) (E : float) : Prop :=
  ∃ S1 S2 N,
    float_sum squares S1 ∧ float_sum norms S2 ∧ float_count count N
    ∧ E = ((S1 + weight * S2) / N)%float.

(** The energy of an iteration from its fields [d] and [norm], the sums
    being numpy's. *)
Definition spec_energy2 (r c : nat) (weight : float) (d norm : arr2) : float :=
  ((sum2 (tab2 r c (λ i j, square (at2 d i j))) + weight * sum2 norm)
   / float_of_nat (r * c))%float.

(** [dual -= step * gradient], then [dual /= norm * (0.5 / weight) + 1]. *)
Definition spec_dual2 (r c : nat) (weight : float) (p g norm : arr2) : arr2 :=
  tab2 r c (λ i j,
    (at2 p i j - spec_step 2 * at2 g i j)
    / (at2 norm i j * (0.5 / weight) + 1))%float.

(** One 2-D iteration in these terms: the new variables and the energy. *)
Definition spec_kernel2 (r c : nat) (im : arr2) (weight : float) (v : vars2)
    : vars2 * float :=
  let d := spec_div2 r c (px2 v) (py2 v) in
  let out := spec_out2 r c im d in
  let gx := spec_grad2_x r c out in
  let gy := spec_grad2_y r c out in
  let norm := spec_norm2 r c gx gy in
  (Vars2 (spec_dual2 r c weight (px2 v) gx norm)
         (spec_dual2 r c weight (py2 v) gy norm)
         gx gy d (Some out),
   spec_energy2 r c weight d norm).

(** The last row, respectively column, of [g] is zero. *)
Definition last_row_zero (r c : nat) (g : arr2) : Prop :=
  ∀ i j, (i < r)%nat → (j < c)%nat → (r ≤ S i)%nat → at2 g i j = 0%float.
Definition last_col_zero (r c : nat) (g : arr2) : Prop :=
  ∀ i j, (i < r)%nat → (j < c)%nat → (c ≤ S j)%nat → at2 g i j = 0%float.

(** What holds of the array variables at the head of every iteration. *)
Definition tv2_inv (r c : nat) (v : vars2) : Prop :=
  shape2 r c (px2 v) ∧ shape2 r c (py2 v)
  ∧ shape2 r c (gx2 v) ∧ shape2 r c (gy2 v)
  ∧ last_row_zero r c (gx2 v) ∧ last_col_zero r c (gy2 v).

(** The same in three dimensions. *)
Definition spec_div3 (p r c : nat) (px py pz : arr3) : arr3 :=
  tab3 p r c (λ i j k,
    let b := (- at3 px i j k - at3 py i j k - at3 pz i j k)%float in
    let b := if (i =? 0)%nat then b else (b + at3 px (i - 1) j k)%float in
    let b := if (j =? 0)%nat then b else (b + at3 py i (j - 1) k)%float in
    if (k =? 0)%nat then b else (b + at3 pz i j (k - 1))%float).
Definition spec_out3 (p r c : nat) (im d : arr3) : arr3 :=
  tab3 p r c (λ i j k, at3 im i j k + at3 d i j k)%float.
Definition spec_grad3_x (p r c : nat) (out : arr3) : arr3 :=
  tab3 p r c (λ i j k,
    if (S i <? p)%nat then (at3 out (S i) j k - at3 out i j k)%float else 0%float).
Definition spec_grad3_y (p r c : nat) (out : arr3) : arr3 :=
  tab3 p r c (λ i j k,
    if (S j <? r)%nat then (at3 out i (S j) k - at3 out i j k)%float else 0%float).
Definition spec_grad3_z (p r c : nat) (out : arr3) : arr3 :=
  tab3 p r c (λ i j k,
    if (S k <? c)%nat then (at3 out i j (S k) - at3 out i j k)%float else 0%float).
Definition spec_norm3 (p r c : nat) (gx gy gz : arr3) : arr3 :=
  tab3 p r c (λ i j k,
    PrimFloat.sqrt
      (square (at3 gx i j k) + square (at3 gy i j k) + square (at3 gz i j k)))%float.
Definition spec_energy3 (p r c : nat) (weight : float) (d norm : arr3) : float :=
  ((sum3 (tab3 p r c (λ i j k, square (at3 d i j k))) + weight * sum3 norm)
   / float_of_nat (p * r * c))%float.
Definition spec_dual3 (p r c : nat) (weight : float) (q g norm : arr3) : arr3 :=
  tab3 p r c (λ i j k,
    (at3 q i j k - spec_step 3 * at3 g i j k)
    / (at3 norm i j k * (0.5 / weight) + 1))%float.

Definition spec_kernel3 (p r c : nat) (im : arr3) (weight : float) (v : vars3)
    : vars3 * float :=
  let d := spec_div3 p r c (px3 v) (py3 v) (pz3 v) in
  let out := spec_out3 p r c im d in
  let gx := spec_grad3_x p r c out in
  let gy := spec_grad3_y p r c out in
  let gz := spec_grad3_z p r c out in
  let norm := spec_norm3 p r c gx gy gz in
  (Vars3 (spec_dual3 p r c weight (px3 v) gx norm)
         (spec_dual3 p r c weight (py3 v) gy norm)
         (spec_dual3 p r c weight (pz3 v) gz norm)
         gx gy gz d (Some out),
   spec_energy3 p r c weight d norm).

Definition last_zero_x (p r c : nat) (g : arr3) : Prop :=
  ∀ i j k, (i < p)%nat → (j < r)%nat → (k < c)%nat → (p ≤ S i)%nat →
           at3 g i j k = 0%float.
Definition last_zero_y (p r c : nat) (g : arr3) : Prop :=
  ∀ i j k, (i < p)%nat → (j < r)%nat → (k < c)%nat → (r ≤ S j)%nat →
           at3 g i j k = 0%float.
Definition last_zero_z (p r c : nat) (g : arr3) : Prop :=
  ∀ i j k, (i < p)%nat → (j < r)%nat → (k < c)%nat → (c ≤ S k)%nat →
           at3 g i j k = 0%float.

Definition tv3_inv (p r c : nat) (v : vars3) : Prop :=
  shape3 p r c (px3 v) ∧ shape3 p r c (py3 v) ∧ shape3 p r c (pz3 v)
  ∧ shape3 p r c (gx3 v) ∧ shape3 p r c (gy3 v) ∧ shape3 p r c (gz3 v)
  ∧ last_zero_x p r c (gx3 v) ∧ last_zero_y p r c (gy3 v)
  ∧ last_zero_z p r c (gz3 v).

(** ** Relating the store to the pure optimizers *)

(** Two loop states agree: related variables, equal energies and counter. *)
Definition state_sim {V1 V2} (R : V1 → V2 → Prop)
    (s1 : @loop_state V1) (s2 : @loop_state V2) : Prop :=
  R (vars s1) (vars s2) ∧ E_init s1 = E_init s2
  ∧ E_previous s1 = E_previous s2 ∧ i s1 = i s2.

(** The store [σ] of a running call, started on the store [σ0], holds the
    variables [v] of the pure optimizer at the locations [ρ], all of them
    created by the call, and leaves the caller's arrays as they were. *)
Definition sim2 (σ0 : list arr2) (st : env2 * list arr2) (v : vars2) : Prop :=
  take (length σ0) (snd st) = σ0
  ∧ (length σ0 ≤ l_px2 (fst st) < length (snd st))%nat
  ∧ (length σ0 ≤ l_py2 (fst st) < length (snd st))%nat
  ∧ (length σ0 ≤ l_gx2 (fst st) < length (snd st))%nat
  ∧ (length σ0 ≤ l_gy2 (fst st) < length (snd st))%nat
  ∧ NoDup [l_px2 (fst st); l_py2 (fst st); l_gx2 (fst st); l_gy2 (fst st)]
  ∧ snd st !!! l_px2 (fst st) = px2 v
  ∧ snd st !!! l_py2 (fst st) = py2 v
  ∧ snd st !!! l_gx2 (fst st) = gx2 v
  ∧ snd st !!! l_gy2 (fst st) = gy2 v
  ∧ match l_out2 (fst st), out2 v with
    | Some l, Some o => (length σ0 ≤ l < length (snd st))%nat ∧ snd st !!! l = o
    | None, None => True
    | _, _ => False
    end.

Definition sim3 (σ0 : list arr3) (st : env3 * list arr3) (v : vars3) : Prop :=
  take (length σ0) (snd st) = σ0
  ∧ (length σ0 ≤ l_px3 (fst st) < length (snd st))%nat
  ∧ (length σ0 ≤ l_py3 (fst st) < length (snd st))%nat
  ∧ (length σ0 ≤ l_pz3 (fst st) < length (snd st))%nat
  ∧ (length σ0 ≤ l_gx3 (fst st) < length (snd st))%nat
  ∧ (length σ0 ≤ l_gy3 (fst st) < length (snd st))%nat
  ∧ (length σ0 ≤ l_gz3 (fst st) < length (snd st))%nat
  ∧ NoDup [l_px3 (fst st); l_py3 (fst st); l_pz3 (fst st);
           l_gx3 (fst st); l_gy3 (fst st); l_gz3 (fst st)]
  ∧ snd st !!! l_px3 (fst st) = px3 v
  ∧ snd st !!! l_py3 (fst st) = py3 v
  ∧ snd st !!! l_pz3 (fst st) = pz3 v
  ∧ snd st !!! l_gx3 (fst st) = gx3 v
  ∧ snd st !!! l_gy3 (fst st) = gy3 v
  ∧ snd st !!! l_gz3 (fst st) = gz3 v
  ∧ match l_out3 (fst st), out3 v with
    | Some l, Some o => (length σ0 ≤ l < length (snd st))%nat ∧ snd st !!! l = o
    | None, None => True
    | _, _ => False
    end.

(** Python evaluates [0.5 / weight] (lines 65 and 150) on its own numbers
    and raises [ZeroDivisionError] when [weight] is zero; for every other
    weight the quotient is the binary64 one that the kernels compute.  The
    statements about whole calls are made for such weights. *)
Definition nonzero_weight (weight : float) : Prop :=
  (weight =? 0)%float = false.

(** The store after [k] iterations of a call that was started on a store of
    [L0] arrays: where the variables point, how many arrays exist, and the
    array that line 137 (line 49) created. *)
Definition alloc2 (L0 : nat) (z : arr2) (k : nat) (st : env2 * list arr2) : Prop :=
  l_px2 (fst st) = L0 ∧ l_py2 (fst st) = (L0 + 1)%nat
  ∧ l_gx2 (fst st) = (L0 + 2)%nat ∧ l_gy2 (fst st) = (L0 + 3)%nat
  ∧ length (snd st) = (L0 + 5 + 3 * k)%nat
  ∧ snd st !!! (L0 + 4)%nat = z
  ∧ l_out2 (fst st)
    = match k with O => None | S j => Some (L0 + 5 + 3 * j + 1)%nat end.

Definition alloc3 (L0 : nat) (z : arr3) (k : nat) (st : env3 * list arr3) : Prop :=
  l_px3 (fst st) = L0 ∧ l_py3 (fst st) = (L0 + 1)%nat
  ∧ l_pz3 (fst st) = (L0 + 2)%nat
  ∧ l_gx3 (fst st) = (L0 + 3)%nat ∧ l_gy3 (fst st) = (L0 + 4)%nat
  ∧ l_gz3 (fst st) = (L0 + 5)%nat
  ∧ length (snd st) = (L0 + 7 + 3 * k)%nat
  ∧ snd st !!! (L0 + 6)%nat = z
  ∧ l_out3 (fst st)
    = match k with O => None | S j => Some (L0 + 7 + 3 * j + 1)%nat end.

(** The divergence field of iteration 0, when every dual field is zero:
    [-0] at the origin, where nothing is added, and [+0] elsewhere. *)
Definition first_div2 (i j : nat) : float :=
  if (i =? 0)%nat && (j =? 0)%nat then (-0)%float else 0%float.
Definition first_div3 (i j k : nat) : float :=
  if (i =? 0)%nat && (j =? 0)%nat && (k =? 0)%nat then (-0)%float else 0%float.

(** [x] is a zero, of either sign, or not a number. *)
Definition zero_or_nan (x : float) : Prop :=
  match Prim2SF x with
  | S754_zero _ | S754_nan => True
  | _ => False
  end.

(** * Properties *)

(** ** numpy's summation adds up the samples *)

Lemma foldl_float_sum l : ∀ l0 s,
  float_sum l0 s → float_sum (l0 ++ l) (foldl PrimFloat.add s l).
Proof.
  induction l as [|x l IH]; intros l0 s Hs; cbn [foldl].
  - by rewrite app_nil_r.
  - rewrite cons_middle, app_assoc. apply IH.
    apply float_sum_add; [done|constructor].
Qed.

Lemma accumulate8_length b : ∀ r a,
  length r = 8%nat → (8 * b ≤ length a)%nat →
  length (accumulate8 b r a) = 8%nat.
Proof.
  induction b as [|b IH]; intros r a Hr Ha; cbn [accumulate8]; [done|].
  apply IH; rewrite ?length_zip_with, ?length_take, ?length_drop; lia.
Qed.

Lemma accumulate8_float_sum b : ∀ r a cs,
  length r = 8%nat → (8 * b ≤ length a)%nat →
  Forall2 float_sum cs r →
  ∃ cs', Forall2 float_sum cs' (accumulate8 b r a)
         ∧ concat cs' ≡ₚ concat cs ++ take (8 * b) a.
Proof.
  induction b as [|b IH]; intros r a cs Hr Ha Hcs; cbn [accumulate8].
  - exists cs. split; [done|]. by rewrite Nat.mul_0_r, take_0, app_nil_r.
  - assert (length (take 8 a) = 8%nat) as Hc by (rewrite length_take; lia).
    assert (∃ cs1, Forall2 float_sum cs1 (zip_with PrimFloat.add r (take 8 a))
                   ∧ concat cs1 ≡ₚ concat cs ++ take 8 a) as (cs1 & H1 & Hp1).
    { revert Hcs Hc Hr. generalize (take 8 a) as ch. generalize 8%nat as w.
      intros w ch Hcs. revert w ch.
      induction Hcs as [|c x cs r Hcx Hcs IHc]; intros w ch Hch Hr.
      - exists []. split; [constructor|]. cbn in Hr. subst w.
        destruct ch; [done|discriminate].
      - cbn in Hr. destruct w as [|w]; [done|]. destruct ch as [|y ch]; [done|].
        cbn in Hch. destruct (IHc w ch) as (cs1 & H1 & Hp1); [lia..|].
        exists ((c ++ [y]) :: cs1). split.
        + cbn [zip_with]. constructor; [|done].
          apply float_sum_add; [done|constructor].
        + cbn [concat]. rewrite Hp1. rewrite <- !app_assoc.
          apply Permutation_app_head.
          rewrite (app_assoc [y]), (Permutation_app_comm [y] (concat cs)).
          by rewrite <- app_assoc. }
    destruct (IH (zip_with PrimFloat.add r (take 8 a)) (drop 8 a) cs1)
      as (cs' & H' & Hp').
    + rewrite length_zip_with. lia.
    + rewrite length_drop. lia.
    + done.
    + exists cs'. split; [done|]. rewrite Hp', Hp1, <- app_assoc.
      apply Permutation_app_head.
      replace (8 * S b)%nat with (8 + 8 * b)%nat by lia.
      by rewrite take_take_drop.
Qed.

Lemma sum8_float_sum cs r :
  length r = 8%nat → Forall2 float_sum cs r → float_sum (concat cs) (sum8 r).
Proof.
  intros Hr Hcs.
  destruct Hcs as [|c0 r0 cs rs H0 Hcs]; [discriminate Hr|].
  destruct Hcs as [|c1 r1 cs rs H1 Hcs]; [discriminate Hr|].
  destruct Hcs as [|c2 r2 cs rs H2 Hcs]; [discriminate Hr|].
  destruct Hcs as [|c3 r3 cs rs H3 Hcs]; [discriminate Hr|].
  destruct Hcs as [|c4 r4 cs rs H4 Hcs]; [discriminate Hr|].
  destruct Hcs as [|c5 r5 cs rs H5 Hcs]; [discriminate Hr|].
  destruct Hcs as [|c6 r6 cs rs H6 Hcs]; [discriminate Hr|].
  destruct Hcs as [|c7 r7 cs rs H7 Hcs]; [discriminate Hr|].
  destruct Hcs; [|discriminate Hr].
  unfold sum8. cbn [nth concat]. rewrite app_nil_r.
  replace (c0 ++ c1 ++ c2 ++ c3 ++ c4 ++ c5 ++ c6 ++ c7)
    with (((c0 ++ c1) ++ (c2 ++ c3)) ++ ((c4 ++ c5) ++ (c6 ++ c7)))
    by (rewrite <- !app_assoc; reflexivity).
  by repeat apply float_sum_add.
Qed.

Lemma concat_singletons {A} (l : list A) : concat ((λ x, [x]) <$> l) = l.
Proof. induction l as [|x l IH]; [done|]. cbn. by rewrite IH. Qed.

Lemma block_sum_float_sum a :
  (8 ≤ length a)%nat → float_sum a (block_sum a).
Proof.
  intros Hn. unfold block_sum. cbv zeta.
  set (n := length a) in *.
  assert (n mod 8 < 8)%nat as Hm by (apply Nat.mod_upper_bound; lia).
  pose proof (Nat.div_mod_eq n 8) as Hd.
  destruct (accumulate8_float_sum (n / 8 - 1) (take 8 a) (drop 8 a)
              ((λ x, [x]) <$> take 8 a)) as (cs & Hcs & Hp).
  - rewrite length_take. lia.
  - rewrite length_drop. lia.
  - induction (take 8 a) as [|x l IH]; constructor; [constructor|done].
  - eapply float_sum_perm; [|apply foldl_float_sum, sum8_float_sum; [|exact Hcs]].
    + assert (concat cs ≡ₚ take (n - n mod 8) a) as ->; [|by rewrite take_drop].
      rewrite Hp.
      rewrite concat_singletons.
      replace (n - n mod 8)%nat with (8 + 8 * (n / 8 - 1))%nat by lia.
      by rewrite take_take_drop.
    + apply accumulate8_length; rewrite ?length_take, ?length_drop; lia.
Qed.

Lemma pairwise_sum_float_sum depth : ∀ a, float_sum a (pairwise_sum depth a).
Proof.
  induction depth as [|depth IH]; intros a; cbn [pairwise_sum]; cbv zeta.
  - destruct (Nat.ltb_spec (length a) 8).
    + apply (foldl_float_sum a []). constructor.
    + destruct (length a <=? 128)%nat; by apply block_sum_float_sum.
  - destruct (Nat.ltb_spec (length a) 8).
    + apply (foldl_float_sum a []). constructor.
    + destruct (length a <=? 128)%nat; [by apply block_sum_float_sum|].
      set (n2 := (length a / 2 - (length a / 2) mod 8)%nat).
      rewrite <- (take_drop n2 a) at 1. by apply float_sum_add.
Qed.

Lemma sum1_float_sum a : float_sum a (sum1 a).
Proof. apply pairwise_sum_float_sum. Qed.

(** The depth [length a] is never used up: the sum is that of the nested
    cuts, however deep. *)
Lemma pairwise_sum_depth depth : ∀ depth' a,
  (length a ≤ depth)%nat → (length a ≤ depth')%nat →
  pairwise_sum depth a = pairwise_sum depth' a.
Proof.
  induction depth as [|depth IH]; intros depth' a H1 H2.
  - destruct a; [|cbn in H1; lia]. by destruct depth'.
  - destruct depth' as [|depth'].
    { destruct a; [done|cbn in H2; lia]. }
    cbn [pairwise_sum]. cbv zeta.
    destruct (Nat.ltb_spec (length a) 8); [done|].
    destruct (Nat.leb_spec (length a) 128); [done|].
    set (n2 := (length a / 2 - (length a / 2) mod 8)%nat).
    assert (0 < n2 < length a)%nat as Hn2.
    { subst n2. pose proof (Nat.div_mod_eq (length a) 2).
      pose proof (Nat.mod_upper_bound (length a) 2).
      pose proof (Nat.mod_upper_bound (length a / 2) 8). lia. }
    f_equal; apply IH; rewrite ?length_take, ?length_drop; lia.
Qed.

Lemma sum1_eq a :
  sum1 a
  = if (length a <? 8)%nat then foldl PrimFloat.add 0%float a
    else if (length a <=? 128)%nat then block_sum a
    else
      let n2 := (length a / 2 - (length a / 2) mod 8)%nat in
      (sum1 (take n2 a) + sum1 (drop n2 a))%float.
Proof.
  unfold sum1 at 1. destruct (length a) as [|n] eqn:Hn.
  - by destruct a.
  - cbn [pairwise_sum]. rewrite Hn. cbv zeta.
    destruct (Nat.ltb_spec (S n) 8); [done|].
    destruct (Nat.leb_spec (S n) 128); [done|].
    set (n2 := (S n / 2 - (S n / 2) mod 8)%nat).
    assert (0 < n2 < S n)%nat as Hn2.
    { subst n2. pose proof (Nat.div_mod_eq (S n) 2).
      pose proof (Nat.mod_upper_bound (S n) 2).
      pose proof (Nat.mod_upper_bound (S n / 2) 8). lia. }
    unfold sum1.
    f_equal; apply pairwise_sum_depth; rewrite ?length_take, ?length_drop; lia.
Qed.

Lemma float_of_nat_count (n : nat) :
  (Z.of_nat n < 2 ^ 63)%Z → float_count n (float_of_nat n).
Proof.
  intros Hn. unfold float_count, float_of_nat. rewrite of_uint63_spec.
  rewrite Uint63.of_Z_spec. rewrite Z.mod_small; [done|].
  split; [lia|exact Hn].
Qed.

(** ** The loop driver *)

Section DriverFacts.
Context {V : Type}.
Variable kernel : V → V * float.
Variable eps : float.
Variable v0 : V.

Local Abbreviation body := (loop_body kernel eps).
Local Abbreviation vars_k := (vars_at kernel v0).
Local Abbreviation E_k := (energy_at kernel v0).
Local Abbreviation conv_k := (converged_at kernel eps v0).
Local Abbreviation iters_from := (iterations_from kernel eps v0).
Local Abbreviation iters := (iterations kernel eps v0).
Local Abbreviation state_k := (state_at kernel v0).

Lemma vars_at_S k : vars_k (S k) = fst (kernel (vars_k k)).
Proof. reflexivity. Qed.

Lemma kernel_vars_at k : kernel (vars_k k) = (vars_k (S k), E_k k).
Proof. unfold energy_at. rewrite vars_at_S. by destruct (kernel _). Qed.

Lemma loop_body_first s :
  i s = 0%Z →
  body s = (Continue,
            LoopState (fst (kernel (vars s)))
              (Some (snd (kernel (vars s)))) (Some (snd (kernel (vars s)))) 1).
Proof.
  intros Hi. unfold loop_body. destruct (kernel (vars s)) as [v E].
  rewrite Hi. reflexivity.
Qed.

Lemma loop_body_later s Ep E0 :
  i s ≠ 0%Z → E_previous s = Some Ep → E_init s = Some E0 →
  body s =
    if (abs (Ep - snd (kernel (vars s))) <? eps * E0)%float
    then (Break, LoopState (fst (kernel (vars s))) (Some E0) (Some Ep) (i s))
    else (Continue,
          LoopState (fst (kernel (vars s))) (Some E0)
            (Some (snd (kernel (vars s)))) (i s + 1)).
Proof.
  intros Hi HEp HE0. unfold loop_body. destruct (kernel (vars s)) as [v E].
  apply Z.eqb_neq in Hi. rewrite Hi, HEp, HE0. reflexivity.
Qed.

Lemma loop_body_at k :
  (1 ≤ k)%nat →
  body (state_k k) =
    if conv_k k
    then (Break, LoopState (vars_k (S k)) (Some (E_k 0))
                   (Some (E_k (k - 1))) (Z.of_nat k))
    else (Continue, state_k (S k)).
Proof.
  intros Hk.
  rewrite (loop_body_later _ (E_k (k - 1)) (E_k 0));
    [|simpl; lia|done|done].
  simpl vars. rewrite kernel_vars_at. simpl fst. simpl snd.
  unfold converged_at, state_at.
  replace (S k - 1)%nat with k by lia.
  replace (i (LoopState (vars_k k) (Some (E_k 0))
                (Some (E_k (k - 1))) (Z.of_nat k)) + 1)%Z
    with (Z.of_nat (S k)) by (simpl; lia).
  reflexivity.
Qed.

Lemma while_loop_at rem : ∀ k,
  (1 ≤ k)%nat →
  ∃ s, while_loop kernel eps rem (state_k k) = (iters_from k rem, None, s)
       ∧ vars s = vars_k (k + iters_from k rem)
       ∧ E_init s = Some (E_k 0).
Proof.
  induction rem as [|rem IH]; intros k Hk.
  - exists (state_k k). simpl. rewrite Nat.add_0_r. done.
  - simpl. rewrite loop_body_at by done.
    destruct (conv_k k).
    + eexists. split; [reflexivity|]. simpl. by rewrite Nat.add_1_r.
    + destruct (IH (S k)) as (s & Hw & Hv & HE); [lia|].
      rewrite Hw. exists s. split; [done|]. split; [|done].
      rewrite Hv. f_equal. lia.
Qed.

Lemma run_loop_spec (n : Z) :
  ∃ s, run_loop kernel eps n v0 = (iters (Z.to_nat n), None, s)
       ∧ vars s = vars_k (iters (Z.to_nat n)).
Proof.
  unfold run_loop. destruct (Z.to_nat n) as [|m].
  - eexists. split; reflexivity.
  - cbn [while_loop]. rewrite loop_body_first by done. cbn [vars].
    change (LoopState (fst (kernel v0)) (Some (snd (kernel v0)))
              (Some (snd (kernel v0))) 1) with (state_k 1).
    destruct (while_loop_at m 1) as (s & Hw & Hv & _); [lia|].
    rewrite Hw. exists s. split; [done|]. rewrite Hv. reflexivity.
Qed.




(** The loop stops at the first iteration [k >= 1] that meets the test. *)
Lemma iterations_from_stop rem : ∀ k j,
  (j < rem)%nat →
  conv_k (k + j) = true →
  (∀ j', (j' < j)%nat → conv_k (k + j') = false) →
  iters_from k rem = S j.
Proof.
  induction rem as [|rem IH]; intros k j Hj Hc Hn; [lia|].
  simpl. destruct j as [|j].
  - rewrite Nat.add_0_r in Hc. by rewrite Hc.
  - rewrite <- (Nat.add_0_r k) at 1. rewrite (Hn 0%nat) by lia.
    f_equal. apply IH; [lia| |].
    + by replace (S k + j)%nat with (k + S j)%nat by lia.
    + intros j' Hj'. replace (S k + j')%nat with (k + S j')%nat by lia.
      apply Hn. lia.
Qed.

Lemma iterations_from_all rem : ∀ k,
  (∀ j, (j < rem)%nat → conv_k (k + j) = false) →
  iters_from k rem = rem.
Proof.
  induction rem as [|rem IH]; intros k Hn; [done|].
  simpl. rewrite <- (Nat.add_0_r k) at 1. rewrite (Hn 0%nat) by lia.
  f_equal. apply IH. intros j Hj.
  replace (S k + j)%nat with (k + S j)%nat by lia. apply Hn. lia.
Qed.

Lemma iterations_stop n k :
  (1 ≤ k < n)%nat →
  conv_k k = true →
  (∀ j, (1 ≤ j < k)%nat → conv_k j = false) →
  iters n = S k.
Proof.
  intros Hk Hc Hn. destruct n as [|n]; [lia|]. simpl. f_equal.
  destruct k as [|k]; [lia|].
  apply iterations_from_stop; [lia|done|].
  intros j' Hj'. apply Hn. lia.
Qed.

Lemma iterations_cap n :
  (∀ j, (1 ≤ j < n)%nat → conv_k j = false) →
  iters n = n.
Proof.
  intros Hn. destruct n as [|n]; [done|]. simpl. f_equal.
  apply iterations_from_all. intros j Hj. apply Hn. lia.
Qed.

Lemma iterations_pos n : (1 ≤ n)%nat → (1 ≤ iters n)%nat.
Proof. destruct n; simpl; lia. Qed.
End DriverFacts.

(** ** [while_loop] computes the source's loop *)

Section LoopExecFacts.
Context {V : Type}.
Variable kernel : V → V * float.
Variable eps : float.
Variable n_iter_max : Z.

Lemma loop_body_i s c s' :
  loop_body kernel eps s = (c, s') →
  i s' = match c with Continue => (i s + 1)%Z | _ => i s end.
Proof.
  unfold loop_body. destruct (kernel (vars s)) as [v E].
  destruct (i s =? 0)%Z; [by intros [= <- <-]|].
  destruct (E_previous s); [|by intros [= <- <-]].
  destruct (E_init s); [|by intros [= <- <-]].
  destruct (_ <? _)%float; by intros [= <- <-].
Qed.

Lemma loop_exec_deterministic s k1 e1 s1 k2 e2 s2 :
  loop_exec kernel eps n_iter_max s k1 e1 s1 →
  loop_exec kernel eps n_iter_max s k2 e2 s2 →
  k1 = k2 ∧ e1 = e2 ∧ s1 = s2.
Proof.
  intros H1. revert k2 e2 s2.
  induction H1 as [s Hn|s s' Hlt Hb|s e s' Hlt Hb|s s' k e s'' Hlt Hb H1 IH];
    intros k2 e2 s2 H2; inversion H2; subst;
    try done; try congruence; try (repeat split; congruence).
  match goal with
  | Hx : loop_exec _ _ _ ?t _ _ _ |- _ =>
    assert (s' = t) as Hs by congruence; rewrite <- Hs in Hx;
    destruct (IH _ _ _ Hx) as (-> & -> & ->)
  end.
  done.
Qed.

Lemma while_loop_exec rem : ∀ s,
  rem = Z.to_nat (n_iter_max - i s) →
  match while_loop kernel eps rem s with
  | (k, e, s') => loop_exec kernel eps n_iter_max s k e s'
  end.
Proof.
  induction rem as [|rem IH]; intros s Hrem.
  - simpl. apply exec_exit. lia.
  - simpl. destruct (loop_body kernel eps s) as [c s'] eqn:Hb.
    pose proof (loop_body_i _ _ _ Hb) as Hi.
    destruct c as [| |e].
    + specialize (IH s' ltac:(lia)).
      destruct (while_loop kernel eps rem s') as [[k e] s''].
      eapply exec_continue; [lia|done|done].
    + apply exec_break; [lia|done].
    + apply exec_throw; [lia|done].
Qed.

Lemma run_loop_exec v0 :
  match run_loop kernel eps n_iter_max v0 with
  | (k, e, s') =>
    loop_exec kernel eps n_iter_max (LoopState v0 None None 0) k e s'
  end.
Proof. apply while_loop_exec. simpl. f_equal. lia. Qed.
End LoopExecFacts.

(** ** What the optimizers return *)

Lemma tv2_out_at im weight k :
  out2 (vars_at (tv2_kernel im weight) (tv2_init im) (S k))
  = Some (tv2_out im (vars_at (tv2_kernel im weight) (tv2_init im) k)).
Proof. reflexivity. Qed.

Lemma tv3_out_at im weight k :
  out3 (vars_at (tv3_kernel im weight) (tv3_init im) (S k))
  = Some (tv3_out im (vars_at (tv3_kernel im weight) (tv3_init im) k)).
Proof. reflexivity. Qed.

Lemma tv2_iterations_eq im weight eps n :
  tv2_iterations im weight eps n
  = iterations (tv2_kernel im weight) eps (tv2_init im) (Z.to_nat n).
Proof.
  unfold tv2_iterations.
  destruct (run_loop_spec (tv2_kernel im weight) eps (tv2_init im) n) as (s & -> & _).
  reflexivity.
Qed.

Lemma tv3_iterations_eq im weight eps n :
  tv3_iterations im weight eps n
  = iterations (tv3_kernel im weight) eps (tv3_init im) (Z.to_nat n).
Proof.
  unfold tv3_iterations.
  destruct (run_loop_spec (tv3_kernel im weight) eps (tv3_init im) n) as (s & -> & _).
  reflexivity.
Qed.

Lemma tv2_denoise_eq im weight eps n :
  _tv_denoise_2d im weight eps n
  = match tv2_iterations im weight eps n with
    | O => Raise (UnboundLocalError "out")
    | S j => Ok (tv2_out im (vars_at (tv2_kernel im weight) (tv2_init im) j))
    end.
Proof.
  rewrite tv2_iterations_eq. unfold _tv_denoise_2d.
  destruct (run_loop_spec (tv2_kernel im weight) eps (tv2_init im) n)
    as (s & -> & Hv).
  rewrite Hv. destruct (iterations _ _ _ _) as [|j]; [done|].
  by rewrite tv2_out_at.
Qed.

Lemma tv3_denoise_eq im weight eps n :
  _tv_denoise_3d im weight eps n
  = match tv3_iterations im weight eps n with
    | O => Raise (UnboundLocalError "out")
    | S j => Ok (tv3_out im (vars_at (tv3_kernel im weight) (tv3_init im) j))
    end.
Proof.
  rewrite tv3_iterations_eq. unfold _tv_denoise_3d.
  destruct (run_loop_spec (tv3_kernel im weight) eps (tv3_init im) n)
    as (s & -> & Hv).
  rewrite Hv. destruct (iterations _ _ _ _) as [|j]; [done|].
  by rewrite tv3_out_at.
Qed.

Section ContractFacts.
Context {V R : Type}.
Variable kernel : V → V * float.
Variable eps : float.
Variable v0 : V.
Variable run : Z → result R.
Variable out_of : V → R.
Variable unbound : exn.

Hypothesis run_eq : ∀ n,
  run n = match iterations kernel eps v0 (Z.to_nat n) with
          | O => Raise unbound
          | S j => Ok (out_of (vars_at kernel v0 j))
          end.

Lemma convergence_contract_holds :
  convergence_contract kernel eps v0 run out_of.
Proof using run_eq.
  split; [apply loop_body_first|].
  split; [apply loop_body_later|].
  split.
  - intros n k Hk Hn Hc Hnc. rewrite run_eq.
    by rewrite (iterations_stop kernel eps v0 (Z.to_nat n) k) by (done || lia).
  - intros n Hn Hnc. rewrite run_eq.
    rewrite iterations_cap by (intros j Hj; apply Hnc; lia).
    destruct (Z.to_nat n) as [|m] eqn:Hm; [lia|].
    by replace (S m - 1)%nat with m by lia.
Qed.
End ContractFacts.

(** Concrete images used to exercise the statements. *)
Definition checker2 : arr2 := [[0; 1]; [1; 0]]%float.
Definition flat2 : arr2 := [[1; 1]; [1; 1]]%float.
Definition step2 : arr2 := [[2; 1]]%float.
Definition checker3 : arr3 := [[[0; 1]; [1; 0]]; [[0; 1]; [1; 3]]]%float.

(** C3: for a weight other than zero, iteration 0 records
    [E_init = E_previous = E] and continues; a later iteration stops as soon
    as [|E_previous - E| < eps * E_init], returning the estimate it has just
    computed, and otherwise records [E_previous = E] and continues; when the
    cap is reached first, the call returns the estimate of the last
    iteration.  Both optimizers. *)
Theorem tv_convergence_control (im2 : arr2) (im3 : arr3) (weight eps : float) :
  nonzero_weight weight →
  convergence_contract (tv2_kernel im2 weight) eps (tv2_init im2)
    (_tv_denoise_2d im2 weight eps) (tv2_out im2)
  ∧ convergence_contract (tv3_kernel im3 weight) eps (tv3_init im3)
      (_tv_denoise_3d im3 weight eps) (tv3_out im3).
Proof.
  intros _. split.
  - apply convergence_contract_holds with (unbound := UnboundLocalError "out").
    intros n. rewrite tv2_denoise_eq, tv2_iterations_eq. reflexivity.
  - apply convergence_contract_holds with (unbound := UnboundLocalError "out").
    intros n. rewrite tv3_denoise_eq, tv3_iterations_eq. reflexivity.
Qed.

Lemma tv_convergence_control_witness :
  _tv_denoise_2d checker2 50 0.5 200
  = Ok (tv2_out checker2 (vars_at (tv2_kernel checker2 50) (tv2_init checker2) 2))
  ∧ _tv_denoise_3d checker3 100 0x1p-52 4
    = Ok (tv3_out checker3 (vars_at (tv3_kernel checker3 100) (tv3_init checker3) 3)).
Proof.
  assert (nonzero_weight 50) as Hw by reflexivity.
  assert (nonzero_weight 100) as Hw' by reflexivity.
  split.
  - apply (proj1 (proj2 (proj2 (proj1
      (tv_convergence_control checker2 checker3 50 0.5 Hw)))) 200%Z 2%nat).
    + lia.
    + lia.
    + vm_compute. reflexivity.
    + intros j Hj. assert (j = 1%nat) as -> by lia. vm_compute. reflexivity.
  - apply (proj2 (proj2 (proj2 (proj2
      (tv_convergence_control checker2 checker3 100 0x1p-52 Hw')))) 4%Z).
    + lia.
    + intros j Hj1 Hj2.
      assert (j = 1 ∨ j = 2 ∨ j = 3)%nat as [-> | [-> | ->]] by lia;
        vm_compute; reflexivity.
Defined.

(** C10: with [n_iter_max <= 0], whatever the weight, the loop body is
    never executed and [return out] raises [UnboundLocalError]: no array is
    returned.  With [n_iter_max >= 1] and a weight other than zero the body
    is executed and the call returns the estimate of its last iteration.
    Both optimizers. *)
Theorem tv_denoise_out_unbound (im2 : arr2) (im3 : arr3) (weight eps : float)
    (n_iter_max : Z) :
  ((n_iter_max ≤ 0)%Z →
   tv2_iterations im2 weight eps n_iter_max = 0%nat
   ∧ _tv_denoise_2d im2 weight eps n_iter_max = Raise (UnboundLocalError "out")
   ∧ tv3_iterations im3 weight eps n_iter_max = 0%nat
   ∧ _tv_denoise_3d im3 weight eps n_iter_max = Raise (UnboundLocalError "out"))
  ∧ (nonzero_weight weight → (1 ≤ n_iter_max)%Z →
     (1 ≤ tv2_iterations im2 weight eps n_iter_max)%nat
     ∧ _tv_denoise_2d im2 weight eps n_iter_max
       = Ok (tv2_out im2
               (vars_at (tv2_kernel im2 weight) (tv2_init im2)
                  (tv2_iterations im2 weight eps n_iter_max - 1)))
     ∧ (1 ≤ tv3_iterations im3 weight eps n_iter_max)%nat
     ∧ _tv_denoise_3d im3 weight eps n_iter_max
       = Ok (tv3_out im3
               (vars_at (tv3_kernel im3 weight) (tv3_init im3)
                  (tv3_iterations im3 weight eps n_iter_max - 1)))).
Proof.
  rewrite tv2_denoise_eq, tv3_denoise_eq, tv2_iterations_eq, tv3_iterations_eq.
  split.
  - intros Hn. replace (Z.to_nat n_iter_max) with 0%nat by lia. simpl. done.
  - intros _ Hn. destruct (Z.to_nat n_iter_max) as [|m] eqn:Hm; [lia|].
    cbn [iterations]. rewrite !Nat.sub_succ, !Nat.sub_0_r.
    repeat split; try done; lia.
Qed.

Lemma tv_denoise_out_unbound_witness :
  (_tv_denoise_2d checker2 0 0.5 0 = Raise (UnboundLocalError "out")
   ∧ _tv_denoise_3d checker3 0 0.5 0 = Raise (UnboundLocalError "out"))
  ∧ _tv_denoise_2d checker2 50 0.5 3
    = Ok (tv2_out checker2
            (vars_at (tv2_kernel checker2 50) (tv2_init checker2)
               (tv2_iterations checker2 50 0.5 3 - 1))).
Proof.
  assert (nonzero_weight 50) as Hw by reflexivity.
  assert (0 ≤ 0)%Z as H0 by lia.
  assert (1 ≤ 3)%Z as H3 by lia.
  split; [split|].
  - exact (proj1 (proj2 (proj1
      (tv_denoise_out_unbound checker2 checker3 0 0.5 0) H0))).
  - exact (proj2 (proj2 (proj2 (proj1
      (tv_denoise_out_unbound checker2 checker3 0 0.5 0) H0)))).
  - exact (proj1 (proj2 (proj2
      (tv_denoise_out_unbound checker2 checker3 50 0.5 3) Hw H3))).
Defined.

Section IterationCount.
Context {V : Type}.
Variable kernel : V → V * float.
Variable eps : float.
Variable v0 : V.


End IterationCount.




(** ** The entry points *)

Lemma kind_is_f_true k : kind_is_f k = true → k = kind_f.
Proof. by destruct k. Qed.

Lemma kind_is_f_false k : kind_is_f k = false → k ≠ kind_f.
Proof. by destruct k. Qed.

Lemma tv_dispatch_no_conversion im weight eps n x :
  call_img_as_float x ∉ fst (tv_dispatch im weight eps n).
Proof.
  unfold tv_dispatch. destruct (shape im) as [|r [|c [|p [|q l]]]]; cbn [fst];
    rewrite ?elem_of_cons, ?elem_of_nil; intuition discriminate.
Qed.

Lemma tv_dispatch_bad_rank im weight eps n :
  ndim im ≠ 2%nat → ndim im ≠ 3%nat →
  tv_dispatch im weight eps n = ([], Raise dim_error).
Proof.
  unfold ndim, tv_dispatch.
  destruct (shape im) as [|r [|c [|p [|q l]]]]; simpl; intros; done || lia.
Qed.

(** C7: [img_as_float] is called, on the input, if and only if the input's
    element kind is not floating-point; a floating-point input reaches the
    rank dispatch, and so the optimizer, as it is. *)
Theorem tv_denoise_converts_non_float (img_as_float : ndarray → ndarray)
    (im : ndarray) (weight eps : float) (n_iter_max : Z) :
  (∀ x, call_img_as_float x ∈ fst (tv_denoise img_as_float im weight eps n_iter_max)
        ↔ x = im ∧ dtype im ≠ kind_f)
  ∧ (dtype im = kind_f →
     tv_denoise img_as_float im weight eps n_iter_max
     = tv_dispatch im weight eps n_iter_max)
  ∧ (dtype im ≠ kind_f →
     tv_denoise img_as_float im weight eps n_iter_max
     = (call_img_as_float im
          :: fst (tv_dispatch (img_as_float im) weight eps n_iter_max),
        snd (tv_dispatch (img_as_float im) weight eps n_iter_max)))
  ∧ (∀ r c, dtype im = kind_f → shape im = [r; c] →
     fst (tv_denoise img_as_float im weight eps n_iter_max)
     = [call_tv_denoise_2d (to_arr2 r c (buf im)) weight eps n_iter_max])
  ∧ (∀ p r c, dtype im = kind_f → shape im = [p; r; c] →
     fst (tv_denoise img_as_float im weight eps n_iter_max)
     = [call_tv_denoise_3d (to_arr3 p r c (buf im)) weight eps n_iter_max]).
Proof.
  unfold tv_denoise.
  destruct (kind_is_f (dtype im)) eqn:Hf; cbn [negb].
  - apply kind_is_f_true in Hf.
    split; [|split; [|split; [|split]]].
    + intros x. split.
      * intros Hin. by apply tv_dispatch_no_conversion in Hin.
      * by intros [_ ?].
    + done.
    + done.
    + intros r c _ Hs. unfold tv_dispatch. by rewrite Hs.
    + intros p r c _ Hs. unfold tv_dispatch. by rewrite Hs.
  - apply kind_is_f_false in Hf.
    destruct (tv_dispatch (img_as_float im) weight eps n_iter_max)
      as [log r] eqn:Hd.
    split; [|split; [|split; [|split]]]; try done.
    intros x. cbn [fst]. rewrite elem_of_cons. split.
    + intros [[= ->]|Hin]; [done|].
      pose proof (tv_dispatch_no_conversion (img_as_float im) weight eps
                    n_iter_max x) as Hno.
      rewrite Hd in Hno. done.
    + intros [-> _]. by left.
Qed.

(** A conversion that keeps the shape, to exercise the statements. *)
Definition retag_float (im : ndarray) : ndarray :=
  NdArray kind_f (shape im) (buf im).

Lemma tv_denoise_converts_non_float_witness :
  tv_denoise retag_float (NdArray kind_f [2; 2] (concat checker2)) 50 0.5 3
  = tv_dispatch (NdArray kind_f [2; 2] (concat checker2)) 50 0.5 3
  ∧ tv_denoise retag_float (NdArray kind_u [2; 2] (concat checker2)) 50 0.5 3
    = (call_img_as_float (NdArray kind_u [2; 2] (concat checker2))
         :: fst (tv_dispatch (retag_float (NdArray kind_u [2; 2] (concat checker2)))
                   50 0.5 3),
       snd (tv_dispatch (retag_float (NdArray kind_u [2; 2] (concat checker2)))
              50 0.5 3)).
Proof.
  split.
  - apply (proj1 (proj2 (tv_denoise_converts_non_float retag_float
      (NdArray kind_f [2; 2] (concat checker2)) 50 0.5 3))).
    reflexivity.
  - apply (proj1 (proj2 (proj2 (tv_denoise_converts_non_float retag_float
      (NdArray kind_u [2; 2] (concat checker2)) 50 0.5 3)))).
    discriminate.
Defined.

(** The image that reaches the rank dispatch. *)
Definition tv_input (img_as_float : ndarray → ndarray) (im : ndarray) : ndarray :=
  if kind_is_f (dtype im) then im else img_as_float im.

Lemma tv_denoise_via_input img_as_float im weight eps n :
  tv_denoise img_as_float im weight eps n
  = ((if kind_is_f (dtype im) then [] else [call_img_as_float im])
       ++ fst (tv_dispatch (tv_input img_as_float im) weight eps n),
     snd (tv_dispatch (tv_input img_as_float im) weight eps n)).
Proof.
  unfold tv_denoise, tv_input. destruct (kind_is_f (dtype im)); cbn [negb].
  - by destruct (tv_dispatch im weight eps n).
  - by destruct (tv_dispatch (img_as_float im) weight eps n).
Qed.

(** C5: an input of rank other than 2 and 3 makes [tv_denoise] raise the
    dimensionality error without entering an optimizer, the only code that
    allocates dual fields; a rank-2 input is handed to the 2-D optimizer
    and a rank-3 input to the 3-D one.  [img_as_float] keeps the rank. *)
Theorem tv_denoise_rank_dispatch (img_as_float : ndarray → ndarray)
    (img_as_float_ndim : ∀ x, ndim (img_as_float x) = ndim x)
    (im : ndarray) (weight eps : float) (n_iter_max : Z) :
  (ndim im ≠ 2%nat → ndim im ≠ 3%nat →
   snd (tv_denoise img_as_float im weight eps n_iter_max) = Raise dim_error
   ∧ ∀ c, c ∈ fst (tv_denoise img_as_float im weight eps n_iter_max) →
          c = call_img_as_float im)
  ∧ (ndim im = 2%nat →
     ∃ r c, shape (tv_input img_as_float im) = [r; c]
       ∧ tv_denoise img_as_float im weight eps n_iter_max
         = ((if kind_is_f (dtype im) then [] else [call_img_as_float im])
              ++ [call_tv_denoise_2d
                    (to_arr2 r c (buf (tv_input img_as_float im)))
                    weight eps n_iter_max],
            rbind (_tv_denoise_2d (to_arr2 r c (buf (tv_input img_as_float im)))
                     weight eps n_iter_max)
              (λ out, Ok (NdArray (dtype (tv_input img_as_float im))
                            [r; c] (concat out)))))
  ∧ (ndim im = 3%nat →
     ∃ p r c, shape (tv_input img_as_float im) = [p; r; c]
       ∧ tv_denoise img_as_float im weight eps n_iter_max
         = ((if kind_is_f (dtype im) then [] else [call_img_as_float im])
              ++ [call_tv_denoise_3d
                    (to_arr3 p r c (buf (tv_input img_as_float im)))
                    weight eps n_iter_max],
            rbind (_tv_denoise_3d (to_arr3 p r c (buf (tv_input img_as_float im)))
                     weight eps n_iter_max)
              (λ out, Ok (NdArray (dtype (tv_input img_as_float im))
                            [p; r; c] (concat (concat out)))))).
Proof.
  assert (ndim (tv_input img_as_float im) = ndim im) as Hnd.
  { unfold tv_input. by destruct (kind_is_f (dtype im)). }
  rewrite tv_denoise_via_input.
  split; [|split].
  - intros H2 H3. rewrite tv_dispatch_bad_rank by by rewrite Hnd.
    split; [done|]. cbn [fst]. rewrite app_nil_r.
    intros c. destruct (kind_is_f (dtype im)).
    + by intros ?%elem_of_nil.
    + by intros ->%list_elem_of_singleton.
  - intros H2. rewrite <- Hnd in H2. unfold ndim in H2.
    destruct (shape (tv_input img_as_float im)) as [|r [|c [|q l]]] eqn:Hs;
      try discriminate.
    exists r, c. split; [done|]. unfold tv_dispatch. rewrite Hs. reflexivity.
  - intros H3. rewrite <- Hnd in H3. unfold ndim in H3.
    destruct (shape (tv_input img_as_float im)) as [|p [|r [|c [|q l]]]] eqn:Hs;
      try discriminate.
    exists p, r, c. split; [done|]. unfold tv_dispatch. rewrite Hs. reflexivity.
Qed.

Lemma tv_denoise_rank_dispatch_witness :
  snd (tv_denoise retag_float (NdArray kind_u [4] (concat checker2)) 50 0.5 3)
  = Raise dim_error
  ∧ snd (tv_denoise retag_float
           (NdArray kind_f [1; 2; 1; 2] (concat checker2)) 50 0.5 3)
    = Raise dim_error.
Proof.
  split.
  - apply (proj1 (tv_denoise_rank_dispatch retag_float (λ x, eq_refl)
      (NdArray kind_u [4] (concat checker2)) 50 0.5 3)); discriminate.
  - apply (proj1 (tv_denoise_rank_dispatch retag_float (λ x, eq_refl)
      (NdArray kind_f [1; 2; 1; 2] (concat checker2)) 50 0.5 3)); discriminate.
Defined.

(** ** The bilateral filter's mode *)

Definition mode_codes : list (string * Z) :=
  [("constant", 67%Z); ("wrap", 87%Z); ("reflect", 82%Z); ("nearest", 78%Z)].

(** C6: a mode outside [constant], [wrap], [reflect], [nearest] makes
    [denoise_bilateral] raise the mode error before any compiled routine is
    called; for each of the four, the call goes to exactly one of the two
    compiled routines, with the code of the mode's capitalised initial, and
    returns what that routine returns. *)
Theorem denoise_bilateral_mode_check
    (_denoise_bilateral2d _denoise_bilateral3d
       : ndarray → bilateral_args → Z → result ndarray)
    (image : ndarray) (args : bilateral_args) (mode : string) :
  (mode ∉ valid_modes →
   denoise_bilateral _denoise_bilateral2d _denoise_bilateral3d image args mode
   = ([], Raise mode_error))
  ∧ (mode ∈ valid_modes →
     ∃ img code,
       (mode, code) ∈ mode_codes
       ∧ (denoise_bilateral _denoise_bilateral2d _denoise_bilateral3d
            image args mode
          = ([call_denoise_bilateral2d img code],
             _denoise_bilateral2d img args code)
          ∨ denoise_bilateral _denoise_bilateral2d _denoise_bilateral3d
              image args mode
            = ([call_denoise_bilateral3d img code],
               _denoise_bilateral3d img args code))).
Proof.
  split.
  - intros Hm. unfold denoise_bilateral.
    by rewrite bool_decide_eq_false_2.
  - intros Hm. unfold denoise_bilateral.
    rewrite bool_decide_eq_true_2 by done. cbn [negb].
    unfold valid_modes in Hm.
    repeat (apply elem_of_cons in Hm as [->|Hm]);
      [ | | | | by apply elem_of_nil in Hm ];
      match goal with
      | |- context [if ?b then _ else _] => destruct b
      end;
      eexists _, _;
      (split; [| (left; reflexivity) || (right; reflexivity) ]);
      unfold mode_codes; rewrite !elem_of_cons; cbv; tauto.
Qed.

Lemma denoise_bilateral_mode_check_witness :
  denoise_bilateral (λ a _ _, Ok a) (λ a _ _, Ok a)
    (NdArray kind_u [2; 2] (concat checker2)) (BilateralArgs 5 1 1 10000 0) "bogus"
  = ([], Raise mode_error)
  ∧ ∃ img code,
      ("wrap", code) ∈ mode_codes
      ∧ (denoise_bilateral (λ a _ _, Ok a) (λ a _ _, Ok a)
           (NdArray kind_u [2; 2] (concat checker2))
           (BilateralArgs 5 1 1 10000 0) "wrap"
         = ([call_denoise_bilateral2d img code], Ok img)
         ∨ denoise_bilateral (λ a _ _, Ok a) (λ a _ _, Ok a)
             (NdArray kind_u [2; 2] (concat checker2))
             (BilateralArgs 5 1 1 10000 0) "wrap"
           = ([call_denoise_bilateral3d img code], Ok img)).
Proof.
  split.
  - apply (proj1 (denoise_bilateral_mode_check (λ a _ _, Ok a) (λ a _ _, Ok a)
      (NdArray kind_u [2; 2] (concat checker2)) (BilateralArgs 5 1 1 10000 0)
      "bogus")).
    unfold valid_modes. rewrite !not_elem_of_cons.
    repeat split; discriminate || apply not_elem_of_nil.
  - apply (proj2 (denoise_bilateral_mode_check (λ a _ _, Ok a) (λ a _ _, Ok a)
      (NdArray kind_u [2; 2] (concat checker2)) (BilateralArgs 5 1 1 10000 0)
      "wrap")).
    unfold valid_modes. apply list_elem_of_further, list_elem_of_here.
Defined.

(** ** Arrays as tables of samples *)

Section Tab.
Context {A : Type}.
Implicit Types f g h : nat → A.

Lemma length_tab n f : length (tab n f) = n.
Proof. unfold tab. by rewrite length_fmap, length_seq. Qed.

Lemma lookup_tab n f k : (k < n)%nat → tab n f !! k = Some (f k).
Proof. intros Hk. unfold tab. rewrite list_lookup_fmap, lookup_seq_lt by done. done. Qed.

Lemma lookup_tab_ge n f k : (n ≤ k)%nat → tab n f !! k = None.
Proof. intros Hk. apply lookup_ge_None_2. by rewrite length_tab. Qed.

Lemma tab_ext n f g : (∀ k, (k < n)%nat → f k = g k) → tab n f = tab n g.
Proof.
  intros H. apply list_eq. intros k. destruct (decide (k < n)%nat).
  - rewrite !lookup_tab by done. f_equal. auto.
  - rewrite !lookup_tab_ge by lia. done.
Qed.

Lemma tab_S_l n f : tab (S n) f = f 0%nat :: tab n (λ k, f (S k)).
Proof. unfold tab. cbn [seq fmap list_fmap]. f_equal. rewrite <- fmap_S_seq, <- list_fmap_compose. done. Qed.

Lemma tab_S_r n f : tab (S n) f = tab n f ++ [f n].
Proof. unfold tab. rewrite seq_S, fmap_app. done. Qed.

End Tab.

Lemma fmap_tab {A B} (u : A → B) n f : u <$> tab n f = tab n (λ k, u (f k)).
Proof. unfold tab. by rewrite <- list_fmap_compose. Qed.

Lemma zip_with_tab {A B C} (u : A → B → C) n (f : nat → A) (g : nat → B) :
  zip_with u (tab n f) (tab n g) = tab n (λ k, u (f k) (g k)).
Proof.
  revert f g. induction n as [|n IH]; intros f g; [done|].
  rewrite !tab_S_l. cbn [zip_with]. by rewrite IH.
Qed.

Section TabSlices.
Context {A : Type}.
Implicit Types f g h : nat → A.

Lemma take_tab_pred n f : take (n - 1) (tab n f) = tab (n - 1) f.
Proof.
  destruct n as [|n]; [done|]. rewrite tab_S_r.
  replace (S n - 1)%nat with n by lia.
  rewrite take_app_length'; [done|]. by rewrite length_tab.
Qed.

Lemma drop_tab_pred n f : drop (n - 1) (tab n f) = tab (n - (n - 1)) (λ k, f (n - 1 + k)%nat).
Proof.
  destruct n as [|n]; [done|]. rewrite tab_S_r.
  replace (S n - 1)%nat with n by lia.
  rewrite drop_app_length'; [|by rewrite length_tab].
  replace (S n - n)%nat with 1%nat by lia. unfold tab. simpl. by rewrite Nat.add_0_r.
Qed.

Lemma shift_add_tab (add : A → A → A) n f g :
  shift_add add (tab n f) (tab n g)
  = tab n (λ k, if (k =? 0)%nat then f k else add (f k) (g (k - 1)%nat)).
Proof.
  unfold shift_add. rewrite length_tab, take_tab_pred.
  destruct n as [|n]; [done|]. rewrite !tab_S_l. cbn [take drop app].
  rewrite take_0, drop_0. cbn [app Nat.eqb]. f_equal.
  replace (S n - 1)%nat with n by lia.
  rewrite zip_with_tab. apply tab_ext. intros k _. cbn [Nat.eqb].
  by rewrite Nat.sub_succ, Nat.sub_0_r.
Qed.

Lemma np_diff_tab (sub : A → A → A) n f :
  np_diff sub (tab n f) = tab (n - 1) (λ k, sub (f (S k)) (f k)).
Proof.
  unfold np_diff. rewrite length_tab, take_tab_pred.
  destruct n as [|n]; [done|]. rewrite tab_S_l at 1. cbn [drop]. rewrite drop_0.
  replace (S n - 1)%nat with n by lia. by rewrite zip_with_tab.
Qed.

Lemma set_init_tab n f g :
  set_init (tab n f) (tab (n - 1) g)
  = tab n (λ k, if (S k <? n)%nat then g k else f k).
Proof.
  unfold set_init. rewrite length_tab.
  destruct n as [|n]; [done|].
  rewrite (tab_S_r n (λ k, if (S k <? S n)%nat then g k else f k)).
  rewrite (tab_S_r n f). replace (S n - 1)%nat with n by lia.
  rewrite drop_app_length' by by rewrite length_tab.
  rewrite Nat.ltb_irrefl. f_equal.
  apply tab_ext. intros k Hk.
  by destruct (Nat.ltb_spec (S k) (S n)); [|lia].
Qed.

Lemma tab_if (b : bool) n f g :
  (if b then tab n f else tab n g) = tab n (λ k, if b then f k else g k).
Proof. by destruct b. Qed.
End TabSlices.

Section Tab2.
Context {A : Type}.

Lemma tab2_ext r c (f g : nat → nat → A) :
  (∀ i j, (i < r)%nat → (j < c)%nat → f i j = g i j) → tab2 r c f = tab2 r c g.
Proof. intros H. apply tab_ext. intros i Hi. apply tab_ext. intros j Hj. auto. Qed.

Lemma tab2_if (b : bool) r c (f g : nat → nat → A) :
  (if b then tab2 r c f else tab2 r c g) = tab2 r c (λ i j, if b then f i j else g i j).
Proof. by destruct b. Qed.
End Tab2.

Lemma tab_lookup_total `{!Inhabited A} (l : list A) n :
  length l = n → l = tab n (λ k, l !!! k).
Proof.
  intros <-. apply list_eq. intros k. destruct (decide (k < length l)%nat) as [Hk|Hk].
  - rewrite lookup_tab by done. by apply list_lookup_lookup_total_lt.
  - rewrite lookup_tab_ge by lia. apply lookup_ge_None_2. lia.
Qed.

Lemma shape2_tab r c (a : arr2) : shape2 r c a → a = tab2 r c (at2 a).
Proof.
  intros [Hr Hc]. rewrite (tab_lookup_total a r Hr) at 1.
  apply tab_ext. intros i Hi. apply tab_lookup_total.
  rewrite Forall_lookup in Hc. apply (Hc i).
  apply list_lookup_lookup_total_lt. lia.
Qed.

Lemma tab2_shape r c (f : nat → nat → float) : shape2 r c (tab2 r c f).
Proof.
  split; [apply length_tab|]. apply Forall_lookup. intros i row Hi.
  pose proof (lookup_lt_Some _ _ _ Hi) as Hlt. unfold tab2 in Hlt, Hi.
  rewrite length_tab in Hlt. rewrite lookup_tab in Hi by done. injection Hi as <-. apply length_tab.
Qed.

Lemma at2_tab2 r c f i j : (i < r)%nat → (j < c)%nat → at2 (tab2 r c f) i j = f i j.
Proof.
  intros Hi Hj. unfold at2, tab2.
  rewrite (list_lookup_total_correct _ _ _ (lookup_tab r _ i Hi)).
  by rewrite (list_lookup_total_correct _ _ _ (lookup_tab c _ j Hj)).
Qed.

Lemma shape3_tab p r c (a : arr3) : shape3 p r c a → a = tab3 p r c (at3 a).
Proof.
  intros [Hp Hrc]. rewrite (tab_lookup_total a p Hp) at 1.
  apply tab_ext. intros i Hi. apply shape2_tab.
  rewrite Forall_lookup in Hrc. apply (Hrc i).
  apply list_lookup_lookup_total_lt. lia.
Qed.

Lemma tab3_shape p r c (f : nat → nat → nat → float) : shape3 p r c (tab3 p r c f).
Proof.
  split; [apply length_tab|]. apply Forall_lookup. intros i pl Hi.
  pose proof (lookup_lt_Some _ _ _ Hi) as Hlt. unfold tab3 in Hlt, Hi.
  rewrite length_tab in Hlt. rewrite lookup_tab in Hi by done. injection Hi as <-. apply tab2_shape.
Qed.

Lemma at3_tab3 p r c f i j k :
  (i < p)%nat → (j < r)%nat → (k < c)%nat → at3 (tab3 p r c f) i j k = f i j k.
Proof.
  intros Hi Hj Hk. unfold at3, tab3.
  rewrite (list_lookup_total_correct _ _ _ (lookup_tab p _ i Hi)).
  apply (at2_tab2 r c (f i) j k Hj Hk).
Qed.

(** function-level lemmas *)
Section OnTab2.
Variables r c : nat.
Implicit Types f g h o : nat → nat → float.

Lemma map2_tab2 u f : map2 u (tab2 r c f) = tab2 r c (λ i j, u (f i j)).
Proof.
  unfold map2, map1, tab2. rewrite fmap_tab. apply tab_ext. intros i _.
  apply fmap_tab.
Qed.

Lemma zip2_tab2 u f g :
  zip2 u (tab2 r c f) (tab2 r c g) = tab2 r c (λ i j, u (f i j) (g i j)).
Proof.
  unfold zip2, zip1, tab2. rewrite zip_with_tab. apply tab_ext. intros i _.
  apply zip_with_tab.
Qed.

Lemma shift_rows_tab2 f g :
  shift_add (zip1 PrimFloat.add) (tab2 r c f) (tab2 r c g)
  = tab2 r c (λ i j, if (i =? 0)%nat then f i j else (f i j + g (i - 1)%nat j)%float).
Proof.
  unfold tab2. rewrite shift_add_tab. apply tab_ext. intros i _.
  destruct (i =? 0)%nat; [done|]. apply zip_with_tab.
Qed.

Lemma shift_cols_tab2 f g :
  zip_with (shift_add PrimFloat.add) (tab2 r c f) (tab2 r c g)
  = tab2 r c (λ i j, if (j =? 0)%nat then f i j else (f i j + g i (j - 1)%nat)%float).
Proof.
  unfold tab2. rewrite zip_with_tab. apply tab_ext. intros i _.
  apply shift_add_tab.
Qed.

Lemma div2_tab2 f g :
  div2 (tab2 r c f) (tab2 r c g)
  = tab2 r c (λ i j,
      let b := (- f i j - g i j)%float in
      let b := if (i =? 0)%nat then b else (b + f (i - 1)%nat j)%float in
      if (j =? 0)%nat then b else (b + g i (j - 1)%nat)%float).
Proof.
  unfold div2. by rewrite map2_tab2, zip2_tab2, shift_rows_tab2, shift_cols_tab2.
Qed.

Lemma grad2_x_tab2 g o :
  grad2_x (tab2 r c g) (tab2 r c o)
  = tab2 r c (λ i j, if (S i <? r)%nat then (o (S i) j - o i j)%float else g i j).
Proof.
  unfold grad2_x, tab2. rewrite np_diff_tab.
  rewrite (tab_ext (r - 1) _ (λ i, tab c (λ j, (o (S i) j - o i j)%float)))
    by (intros; apply zip_with_tab).
  rewrite set_init_tab. apply tab_ext. intros i _. apply tab_if.
Qed.

Lemma grad2_y_tab2 g o :
  grad2_y (tab2 r c g) (tab2 r c o)
  = tab2 r c (λ i j, if (S j <? c)%nat then (o i (S j) - o i j)%float else g i j).
Proof.
  unfold grad2_y, tab2. rewrite fmap_tab, zip_with_tab. apply tab_ext. intros i _.
  rewrite np_diff_tab. apply set_init_tab.
Qed.

Lemma norm2_tab2 f g :
  norm2 (tab2 r c f) (tab2 r c g)
  = tab2 r c (λ i j, PrimFloat.sqrt (square (f i j) + square (g i j)))%float.
Proof. unfold norm2. by rewrite !map2_tab2, zip2_tab2, map2_tab2. Qed.

Lemma scale_norm2_tab2 weight f :
  scale_norm2 weight (tab2 r c f)
  = tab2 r c (λ i j, f i j * (0.5 / weight) + 1)%float.
Proof. unfold scale_norm2. by rewrite !map2_tab2. Qed.

Lemma dual2_tab2 f g h :
  dual2 (tab2 r c f) (tab2 r c g) (tab2 r c h)
  = tab2 r c (λ i j, (f i j - 0.25 * g i j) / h i j)%float.
Proof. unfold dual2. by rewrite map2_tab2, !zip2_tab2. Qed.

Lemma size2_tab2 f : size2 (tab2 r c f) = (r * c)%nat.
Proof.
  unfold size2, tab2. revert f. induction r as [|r' IH]; intros f; [done|].
  rewrite tab_S_l. cbn [concat]. rewrite length_app, length_tab, IH. lia.
Qed.
End OnTab2.

Ltac as_tab2 r c a H :=
  let f := fresh "f" a in
  let E := fresh "E" a in
  pose proof (shape2_tab r c a H) as E;
  set (f := at2 a) in *; clearbody f; subst a.

Section Spec2.
Variables r c : nat.
Implicit Types a b d g im out p norm : arr2.

Lemma div2_spec px py :
  shape2 r c px → shape2 r c py → div2 px py = spec_div2 r c px py.
Proof.
  intros Hpx Hpy. unfold spec_div2. as_tab2 r c px Hpx. as_tab2 r c py Hpy.
  apply div2_tab2.
Qed.

Lemma out2_spec im d :
  shape2 r c im → shape2 r c d → zip2 PrimFloat.add im d = spec_out2 r c im d.
Proof.
  intros Him Hd. unfold spec_out2. as_tab2 r c im Him. as_tab2 r c d Hd.
  apply zip2_tab2.
Qed.

Lemma grad2_x_spec g out :
  shape2 r c g → last_row_zero r c g → shape2 r c out →
  grad2_x g out = spec_grad2_x r c out.
Proof.
  intros Hg Hz Ho. unfold spec_grad2_x, last_row_zero in *.
  as_tab2 r c g Hg. as_tab2 r c out Ho.
  rewrite grad2_x_tab2. apply tab2_ext. intros i j Hi Hj.
  destruct (Nat.ltb_spec (S i) r); [done|]. auto.
Qed.

Lemma grad2_y_spec g out :
  shape2 r c g → last_col_zero r c g → shape2 r c out →
  grad2_y g out = spec_grad2_y r c out.
Proof.
  intros Hg Hz Ho. unfold spec_grad2_y, last_col_zero in *.
  as_tab2 r c g Hg. as_tab2 r c out Ho.
  rewrite grad2_y_tab2. apply tab2_ext. intros i j Hi Hj.
  destruct (Nat.ltb_spec (S j) c); [done|]. auto.
Qed.

Lemma norm2_spec gx gy :
  shape2 r c gx → shape2 r c gy → norm2 gx gy = spec_norm2 r c gx gy.
Proof.
  intros Hx Hy. unfold spec_norm2. as_tab2 r c gx Hx. as_tab2 r c gy Hy.
  apply norm2_tab2.
Qed.

Lemma dual2_spec weight p g norm :
  shape2 r c p → shape2 r c g → shape2 r c norm →
  dual2 p g (scale_norm2 weight norm) = spec_dual2 r c weight p g norm.
Proof.
  intros Hp Hg Hn. unfold spec_dual2.
  as_tab2 r c p Hp. as_tab2 r c g Hg. as_tab2 r c norm Hn.
  rewrite scale_norm2_tab2. apply dual2_tab2.
Qed.

Lemma square2_spec d :
  shape2 r c d → map2 square d = tab2 r c (λ i j, square (at2 d i j)).
Proof. intros Hd. as_tab2 r c d Hd. apply map2_tab2. Qed.

Lemma size2_spec im : shape2 r c im → size2 im = (r * c)%nat.
Proof. intros Him. rewrite (shape2_tab r c im Him). apply size2_tab2. Qed.

Lemma last_row_zero_spec out : last_row_zero r c (spec_grad2_x r c out).
Proof.
  intros i j Hi Hj Hr. unfold spec_grad2_x. rewrite at2_tab2 by done.
  by destruct (Nat.ltb_spec (S i) r); [lia|].
Qed.

Lemma last_col_zero_spec out : last_col_zero r c (spec_grad2_y r c out).
Proof.
  intros i j Hi Hj Hr. unfold spec_grad2_y. rewrite at2_tab2 by done.
  by destruct (Nat.ltb_spec (S j) c); [lia|].
Qed.
End Spec2.

Lemma spec_div2_shape r c px py : shape2 r c (spec_div2 r c px py).
Proof. apply tab2_shape. Qed.
Lemma spec_out2_shape r c im d : shape2 r c (spec_out2 r c im d).
Proof. apply tab2_shape. Qed.
Lemma spec_grad2_x_shape r c out : shape2 r c (spec_grad2_x r c out).
Proof. apply tab2_shape. Qed.
Lemma spec_grad2_y_shape r c out : shape2 r c (spec_grad2_y r c out).
Proof. apply tab2_shape. Qed.
Lemma spec_norm2_shape r c gx gy : shape2 r c (spec_norm2 r c gx gy).
Proof. apply tab2_shape. Qed.
Lemma spec_dual2_shape r c w p g n : shape2 r c (spec_dual2 r c w p g n).
Proof. apply tab2_shape. Qed.

Lemma tv2_kernel_spec r c im weight v :
  shape2 r c im → tv2_inv r c v →
  tv2_kernel im weight v = spec_kernel2 r c im weight v.
Proof.
  intros Him (Hpx & Hpy & Hgx & Hgy & Zx & Zy).
  unfold tv2_kernel, spec_kernel2. cbv zeta.
  rewrite (div2_spec r c) by done.
  rewrite (out2_spec r c) by (done || apply spec_div2_shape).
  rewrite (grad2_x_spec r c) by (done || apply spec_out2_shape).
  rewrite (grad2_y_spec r c) by (done || apply spec_out2_shape).
  rewrite (norm2_spec r c) by (apply spec_grad2_x_shape || apply spec_grad2_y_shape).
  rewrite !(dual2_spec r c)
    by (done || apply spec_grad2_x_shape || apply spec_grad2_y_shape
        || apply spec_norm2_shape).
  rewrite (square2_spec r c) by apply spec_div2_shape.
  rewrite (size2_spec r c) by done.
  reflexivity.
Qed.

Lemma tv2_inv_kernel r c im weight v :
  shape2 r c im → tv2_inv r c v → tv2_inv r c (fst (tv2_kernel im weight v)).
Proof.
  intros Him Hv. rewrite (tv2_kernel_spec r c) by done.
  unfold spec_kernel2, tv2_inv. cbn [fst px2 py2 gx2 gy2].
  split; [apply spec_dual2_shape|].
  split; [apply spec_dual2_shape|].
  split; [apply spec_grad2_x_shape|].
  split; [apply spec_grad2_y_shape|].
  split; [apply last_row_zero_spec|apply last_col_zero_spec].
Qed.

Lemma zeros_like2_tab2 r c im :
  shape2 r c im → zeros_like2 im = tab2 r c (λ _ _, 0%float).
Proof. intros Him. unfold zeros_like2. rewrite (shape2_tab r c im Him). apply map2_tab2. Qed.

Lemma tv2_inv_init r c im : shape2 r c im → tv2_inv r c (tv2_init im).
Proof.
  intros Him. unfold tv2_init, tv2_inv. cbv zeta. cbn [px2 py2 gx2 gy2].
  rewrite (zeros_like2_tab2 r c) by done.
  repeat split; try apply tab2_shape.
  - intros i j Hi Hj _. by rewrite at2_tab2.
  - intros i j Hi Hj _. by rewrite at2_tab2.
Qed.

Lemma tv2_inv_vars_at r c im weight k :
  shape2 r c im →
  tv2_inv r c (vars_at (tv2_kernel im weight) (tv2_init im) k).
Proof.
  intros Him. induction k as [|k IH].
  - by apply tv2_inv_init.
  - rewrite vars_at_S. by apply tv2_inv_kernel.
Qed.

Lemma spec_step_values :
  spec_step 2 = 0.25%float ∧ spec_step 3 = (1 / 6)%float.
Proof. split; reflexivity. Qed.

Lemma tab3_ext {A} p r c (f g : nat → nat → nat → A) :
  (∀ i j k, (i < p)%nat → (j < r)%nat → (k < c)%nat → f i j k = g i j k) →
  tab3 p r c f = tab3 p r c g.
Proof. intros H. apply tab_ext. intros i Hi. apply tab2_ext. intros j k Hj Hk. auto. Qed.

Section OnTab3.
Variables p r c : nat.
Implicit Types f g h o : nat → nat → nat → float.

Lemma map3_tab3 u f : map3 u (tab3 p r c f) = tab3 p r c (λ i j k, u (f i j k)).
Proof.
  unfold map3, tab3. rewrite fmap_tab. apply tab_ext. intros i _. apply map2_tab2.
Qed.

Lemma zip3_tab3 u f g :
  zip3 u (tab3 p r c f) (tab3 p r c g) = tab3 p r c (λ i j k, u (f i j k) (g i j k)).
Proof.
  unfold zip3, tab3. rewrite zip_with_tab. apply tab_ext. intros i _. apply zip2_tab2.
Qed.

Lemma shift_x_tab3 f g :
  shift_add (zip2 PrimFloat.add) (tab3 p r c f) (tab3 p r c g)
  = tab3 p r c (λ i j k,
      if (i =? 0)%nat then f i j k else (f i j k + g (i - 1)%nat j k)%float).
Proof.
  unfold tab3. rewrite shift_add_tab. apply tab_ext. intros i _.
  destruct (i =? 0)%nat; [done|]. apply zip2_tab2.
Qed.

Lemma shift_y_tab3 f g :
  zip_with (shift_add (zip1 PrimFloat.add)) (tab3 p r c f) (tab3 p r c g)
  = tab3 p r c (λ i j k,
      if (j =? 0)%nat then f i j k else (f i j k + g i (j - 1)%nat k)%float).
Proof.
  unfold tab3. rewrite zip_with_tab. apply tab_ext. intros i _.
  apply shift_rows_tab2.
Qed.

Lemma shift_z_tab3 f g :
  zip_with (zip_with (shift_add PrimFloat.add)) (tab3 p r c f) (tab3 p r c g)
  = tab3 p r c (λ i j k,
      if (k =? 0)%nat then f i j k else (f i j k + g i j (k - 1)%nat)%float).
Proof.
  unfold tab3. rewrite zip_with_tab. apply tab_ext. intros i _.
  apply shift_cols_tab2.
Qed.

Lemma div3_tab3 f g h :
  div3 (tab3 p r c f) (tab3 p r c g) (tab3 p r c h)
  = tab3 p r c (λ i j k,
      let b := (- f i j k - g i j k - h i j k)%float in
      let b := if (i =? 0)%nat then b else (b + f (i - 1)%nat j k)%float in
      let b := if (j =? 0)%nat then b else (b + g i (j - 1)%nat k)%float in
      if (k =? 0)%nat then b else (b + h i j (k - 1)%nat)%float).
Proof.
  unfold div3.
  by rewrite map3_tab3, !zip3_tab3, shift_x_tab3, shift_y_tab3, shift_z_tab3.
Qed.

Lemma tab2_if' (b : bool) (f g : nat → nat → float) :
  (if b then tab2 r c f else tab2 r c g) = tab2 r c (λ j k, if b then f j k else g j k).
Proof. by destruct b. Qed.

Lemma grad3_x_tab3 g o :
  grad3_x (tab3 p r c g) (tab3 p r c o)
  = tab3 p r c (λ i j k,
      if (S i <? p)%nat then (o (S i) j k - o i j k)%float else g i j k).
Proof.
  unfold grad3_x, tab3. rewrite np_diff_tab.
  rewrite (tab_ext (p - 1) _ (λ i, tab2 r c (λ j k, (o (S i) j k - o i j k)%float)))
    by (intros; apply zip2_tab2).
  rewrite set_init_tab. apply tab_ext. intros i _. apply tab2_if'.
Qed.

Lemma grad3_y_tab3 g o :
  grad3_y (tab3 p r c g) (tab3 p r c o)
  = tab3 p r c (λ i j k,
      if (S j <? r)%nat then (o i (S j) k - o i j k)%float else g i j k).
Proof.
  unfold grad3_y, tab3. rewrite fmap_tab, zip_with_tab. apply tab_ext. intros i _.
  apply (grad2_x_tab2 r c (g i) (o i)).
Qed.

Lemma grad3_z_tab3 g o :
  grad3_z (tab3 p r c g) (tab3 p r c o)
  = tab3 p r c (λ i j k,
      if (S k <? c)%nat then (o i j (S k) - o i j k)%float else g i j k).
Proof.
  unfold grad3_z, tab3. rewrite fmap_tab, zip_with_tab. apply tab_ext. intros i _.
  apply (grad2_y_tab2 r c (g i) (o i)).
Qed.

Lemma norm3_tab3 f g h :
  norm3 (tab3 p r c f) (tab3 p r c g) (tab3 p r c h)
  = tab3 p r c (λ i j k,
      PrimFloat.sqrt (square (f i j k) + square (g i j k) + square (h i j k)))%float.
Proof. unfold norm3. by rewrite !map3_tab3, !zip3_tab3, map3_tab3. Qed.

Lemma scale_norm3_tab3 weight f :
  scale_norm3 weight (tab3 p r c f)
  = tab3 p r c (λ i j k, f i j k * (0.5 / weight) + 1)%float.
Proof. unfold scale_norm3. by rewrite !map3_tab3. Qed.

Lemma dual3_tab3 f g h :
  dual3 (tab3 p r c f) (tab3 p r c g) (tab3 p r c h)
  = tab3 p r c (λ i j k, (f i j k - 1 / 6 * g i j k) / h i j k)%float.
Proof. unfold dual3. by rewrite map3_tab3, !zip3_tab3. Qed.

Lemma size3_tab3 f : size3 (tab3 p r c f) = (p * r * c)%nat.
Proof.
  unfold size3, tab3. revert f. induction p as [|p' IH]; intros f; [done|].
  rewrite tab_S_l. cbn [concat]. rewrite concat_app, length_app.
  rewrite IH. pose proof (size2_tab2 r c (f 0%nat)) as Hs. unfold size2 in Hs.
  rewrite Hs. lia.
Qed.
End OnTab3.

Ltac as_tab3 p r c a H :=
  let f := fresh "f" a in
  let E := fresh "E" a in
  pose proof (shape3_tab p r c a H) as E;
  set (f := at3 a) in *; clearbody f; subst a.

Section Spec3.
Variables p r c : nat.
Implicit Types a b d g im out q norm : arr3.

Lemma div3_spec px py pz :
  shape3 p r c px → shape3 p r c py → shape3 p r c pz →
  div3 px py pz = spec_div3 p r c px py pz.
Proof.
  intros Hpx Hpy Hpz. unfold spec_div3.
  as_tab3 p r c px Hpx. as_tab3 p r c py Hpy. as_tab3 p r c pz Hpz.
  apply div3_tab3.
Qed.

Lemma out3_spec im d :
  shape3 p r c im → shape3 p r c d → zip3 PrimFloat.add im d = spec_out3 p r c im d.
Proof.
  intros Him Hd. unfold spec_out3. as_tab3 p r c im Him. as_tab3 p r c d Hd.
  apply zip3_tab3.
Qed.

Lemma grad3_x_spec g out :
  shape3 p r c g → last_zero_x p r c g → shape3 p r c out →
  grad3_x g out = spec_grad3_x p r c out.
Proof.
  intros Hg Hz Ho. unfold spec_grad3_x, last_zero_x in *.
  as_tab3 p r c g Hg. as_tab3 p r c out Ho.
  rewrite grad3_x_tab3. apply tab3_ext. intros i j k Hi Hj Hk.
  destruct (Nat.ltb_spec (S i) p); [done|]. auto.
Qed.

Lemma grad3_y_spec g out :
  shape3 p r c g → last_zero_y p r c g → shape3 p r c out →
  grad3_y g out = spec_grad3_y p r c out.
Proof.
  intros Hg Hz Ho. unfold spec_grad3_y, last_zero_y in *.
  as_tab3 p r c g Hg. as_tab3 p r c out Ho.
  rewrite grad3_y_tab3. apply tab3_ext. intros i j k Hi Hj Hk.
  destruct (Nat.ltb_spec (S j) r); [done|]. auto.
Qed.

Lemma grad3_z_spec g out :
  shape3 p r c g → last_zero_z p r c g → shape3 p r c out →
  grad3_z g out = spec_grad3_z p r c out.
Proof.
  intros Hg Hz Ho. unfold spec_grad3_z, last_zero_z in *.
  as_tab3 p r c g Hg. as_tab3 p r c out Ho.
  rewrite grad3_z_tab3. apply tab3_ext. intros i j k Hi Hj Hk.
  destruct (Nat.ltb_spec (S k) c); [done|]. auto.
Qed.

Lemma norm3_spec gx gy gz :
  shape3 p r c gx → shape3 p r c gy → shape3 p r c gz →
  norm3 gx gy gz = spec_norm3 p r c gx gy gz.
Proof.
  intros Hx Hy Hz. unfold spec_norm3.
  as_tab3 p r c gx Hx. as_tab3 p r c gy Hy. as_tab3 p r c gz Hz.
  apply norm3_tab3.
Qed.

Lemma dual3_spec weight q g norm :
  shape3 p r c q → shape3 p r c g → shape3 p r c norm →
  dual3 q g (scale_norm3 weight norm) = spec_dual3 p r c weight q g norm.
Proof.
  intros Hq Hg Hn. unfold spec_dual3.
  as_tab3 p r c q Hq. as_tab3 p r c g Hg. as_tab3 p r c norm Hn.
  rewrite scale_norm3_tab3. apply dual3_tab3.
Qed.

Lemma square3_spec d :
  shape3 p r c d → map3 square d = tab3 p r c (λ i j k, square (at3 d i j k)).
Proof. intros Hd. as_tab3 p r c d Hd. apply map3_tab3. Qed.

Lemma size3_spec im : shape3 p r c im → size3 im = (p * r * c)%nat.
Proof. intros Him. rewrite (shape3_tab p r c im Him). apply size3_tab3. Qed.

Lemma last_zero_x_spec out : last_zero_x p r c (spec_grad3_x p r c out).
Proof.
  intros i j k Hi Hj Hk Hr. unfold spec_grad3_x. rewrite at3_tab3 by done.
  by destruct (Nat.ltb_spec (S i) p); [lia|].
Qed.

Lemma last_zero_y_spec out : last_zero_y p r c (spec_grad3_y p r c out).
Proof.
  intros i j k Hi Hj Hk Hr. unfold spec_grad3_y. rewrite at3_tab3 by done.
  by destruct (Nat.ltb_spec (S j) r); [lia|].
Qed.

Lemma last_zero_z_spec out : last_zero_z p r c (spec_grad3_z p r c out).
Proof.
  intros i j k Hi Hj Hk Hr. unfold spec_grad3_z. rewrite at3_tab3 by done.
  by destruct (Nat.ltb_spec (S k) c); [lia|].
Qed.

Lemma tv3_kernel_spec im weight v :
  shape3 p r c im → tv3_inv p r c v →
  tv3_kernel im weight v = spec_kernel3 p r c im weight v.
Proof.
  intros Him (Hpx & Hpy & Hpz & Hgx & Hgy & Hgz & Zx & Zy & Zz).
  unfold tv3_kernel, spec_kernel3. cbv zeta.
  rewrite div3_spec by done.
  rewrite out3_spec by (done || apply tab3_shape).
  rewrite grad3_x_spec by (done || apply tab3_shape).
  rewrite grad3_y_spec by (done || apply tab3_shape).
  rewrite grad3_z_spec by (done || apply tab3_shape).
  rewrite norm3_spec by apply tab3_shape.
  rewrite !dual3_spec by (done || apply tab3_shape).
  rewrite square3_spec by apply tab3_shape.
  rewrite size3_spec by done.
  reflexivity.
Qed.

Lemma tv3_inv_kernel im weight v :
  shape3 p r c im → tv3_inv p r c v → tv3_inv p r c (fst (tv3_kernel im weight v)).
Proof.
  intros Him Hv. rewrite tv3_kernel_spec by done.
  unfold spec_kernel3, tv3_inv. cbn [fst px3 py3 pz3 gx3 gy3 gz3].
  repeat (split; [apply tab3_shape|]).
  split; [apply last_zero_x_spec|].
  split; [apply last_zero_y_spec|apply last_zero_z_spec].
Qed.

Lemma zeros_like3_tab3 im :
  shape3 p r c im → zeros_like3 im = tab3 p r c (λ _ _ _, 0%float).
Proof.
  intros Him. unfold zeros_like3. rewrite (shape3_tab p r c im Him). apply map3_tab3.
Qed.

Lemma tv3_inv_init im : shape3 p r c im → tv3_inv p r c (tv3_init im).
Proof.
  intros Him. unfold tv3_init, tv3_inv. cbv zeta. cbn [px3 py3 pz3 gx3 gy3 gz3].
  rewrite zeros_like3_tab3 by done.
  repeat (split; [apply tab3_shape|]).
  repeat split; intros i j k Hi Hj Hk _; by rewrite at3_tab3.
Qed.

Lemma tv3_inv_vars_at im weight k :
  shape3 p r c im →
  tv3_inv p r c (vars_at (tv3_kernel im weight) (tv3_init im) k).
Proof.
  intros Him. induction k as [|k IH].
  - by apply tv3_inv_init.
  - rewrite vars_at_S. by apply tv3_inv_kernel.
Qed.
End Spec3.

(** ** The iteration computes what the specification says *)

Lemma tv2_out_spec r c im v :
  shape2 r c im → tv2_inv r c v →
  tv2_out im v = spec_out2 r c im (spec_div2 r c (px2 v) (py2 v)).
Proof.
  intros Him (Hpx & Hpy & _). unfold tv2_out.
  rewrite (div2_spec r c) by done.
  apply out2_spec; [done|apply spec_div2_shape].
Qed.

Lemma tv3_out_spec p r c im v :
  shape3 p r c im → tv3_inv p r c v →
  tv3_out im v = spec_out3 p r c im (spec_div3 p r c (px3 v) (py3 v) (pz3 v)).
Proof.
  intros Him (Hpx & Hpy & Hpz & _). unfold tv3_out.
  rewrite (div3_spec p r c) by done.
  apply out3_spec; [done|apply tab3_shape].
Qed.

Lemma tv2_step_spec r c im weight k :
  shape2 r c im →
  (vars_at (tv2_kernel im weight) (tv2_init im) (S k),
   energy_at (tv2_kernel im weight) (tv2_init im) k)
  = spec_kernel2 r c im weight (vars_at (tv2_kernel im weight) (tv2_init im) k).
Proof.
  intros Him. rewrite <- (tv2_kernel_spec r c) by (done || by apply tv2_inv_vars_at).
  by rewrite kernel_vars_at.
Qed.

Lemma tv3_step_spec p r c im weight k :
  shape3 p r c im →
  (vars_at (tv3_kernel im weight) (tv3_init im) (S k),
   energy_at (tv3_kernel im weight) (tv3_init im) k)
  = spec_kernel3 p r c im weight (vars_at (tv3_kernel im weight) (tv3_init im) k).
Proof.
  intros Him. rewrite <- (tv3_kernel_spec p r c) by (done || by apply tv3_inv_vars_at).
  by rewrite kernel_vars_at.
Qed.

Local Abbreviation it2 im weight k :=
  (vars_at (tv2_kernel im weight) (tv2_init im) k).
Local Abbreviation it3 im weight k :=
  (vars_at (tv3_kernel im weight) (tv3_init im) k).

Lemma spec_energy2_energy r c weight d norm :
  (Z.of_nat (r * c) < 2 ^ 63)%Z →
  energy_spec weight (concat (tab2 r c (λ i j, square (at2 d i j))))
    (concat norm) (r * c) (spec_energy2 r c weight d norm).
Proof.
  intros Hn. eexists _, _, _.
  split; [apply sum1_float_sum|]. split; [apply sum1_float_sum|].
  split; [by apply float_of_nat_count|reflexivity].
Qed.

Lemma spec_energy3_energy p r c weight d norm :
  (Z.of_nat (p * r * c) < 2 ^ 63)%Z →
  energy_spec weight
    (concat (concat (tab3 p r c (λ i j k, square (at3 d i j k)))))
    (concat (concat norm)) (p * r * c) (spec_energy3 p r c weight d norm).
Proof.
  intros Hn. eexists _, _, _.
  split; [apply sum1_float_sum|]. split; [apply sum1_float_sum|].
  split; [by apply float_of_nat_count|reflexivity].
Qed.

(** C1: for a weight other than zero, in every iteration [k] of either
    optimizer, on an image of any shape, the divergence field is minus the
    dual fields plus, along each axis, the dual field's value at the
    previous index (nothing at index 0); the estimate is [image + d]; the
    gradient fields are the forward differences of the estimate, zero at
    the last index of their axis; and the energy is
    [(S1 + weight * S2) / N], where [S1] is a binary64 sum of the squared
    samples of [d], [S2] one of the samples of [norm], the root of the sum
    of the squared gradients, and [N] the number of samples of the image
    (fewer than 2^63, as every array has) as a binary64 number. *)
Theorem tv_iteration_fields (weight : float) (k : nat) :
  nonzero_weight weight →
  (∀ r c (im : arr2),
     shape2 r c im →
     d2 (it2 im weight (S k))
     = spec_div2 r c (px2 (it2 im weight k)) (py2 (it2 im weight k))
     ∧ out2 (it2 im weight (S k))
       = Some (spec_out2 r c im (d2 (it2 im weight (S k))))
     ∧ gx2 (it2 im weight (S k))
       = spec_grad2_x r c (spec_out2 r c im (d2 (it2 im weight (S k))))
     ∧ gy2 (it2 im weight (S k))
       = spec_grad2_y r c (spec_out2 r c im (d2 (it2 im weight (S k))))
     ∧ ((Z.of_nat (r * c) < 2 ^ 63)%Z →
        energy_spec weight
          (concat (tab2 r c (λ i j, square (at2 (d2 (it2 im weight (S k))) i j))))
          (concat (spec_norm2 r c (gx2 (it2 im weight (S k)))
                     (gy2 (it2 im weight (S k)))))
          (r * c)
          (energy_at (tv2_kernel im weight) (tv2_init im) k)))
  ∧ (∀ p r c (im : arr3),
       shape3 p r c im →
       d3 (it3 im weight (S k))
       = spec_div3 p r c (px3 (it3 im weight k)) (py3 (it3 im weight k))
           (pz3 (it3 im weight k))
       ∧ out3 (it3 im weight (S k))
         = Some (spec_out3 p r c im (d3 (it3 im weight (S k))))
       ∧ gx3 (it3 im weight (S k))
         = spec_grad3_x p r c (spec_out3 p r c im (d3 (it3 im weight (S k))))
       ∧ gy3 (it3 im weight (S k))
         = spec_grad3_y p r c (spec_out3 p r c im (d3 (it3 im weight (S k))))
       ∧ gz3 (it3 im weight (S k))
         = spec_grad3_z p r c (spec_out3 p r c im (d3 (it3 im weight (S k))))
       ∧ ((Z.of_nat (p * r * c) < 2 ^ 63)%Z →
          energy_spec weight
            (concat (concat
               (tab3 p r c
                  (λ i j l, square (at3 (d3 (it3 im weight (S k))) i j l)))))
            (concat (concat
               (spec_norm3 p r c (gx3 (it3 im weight (S k)))
                  (gy3 (it3 im weight (S k))) (gz3 (it3 im weight (S k))))))
            (p * r * c)
            (energy_at (tv3_kernel im weight) (tv3_init im) k))).
Proof.
  intros _. split.
  - intros r c im Him.
    pose proof (tv2_step_spec r c im weight k Him) as Hs.
    apply pair_equal_spec in Hs as [-> ->]. unfold spec_kernel2.
    cbn [d2 out2 gx2 gy2]. repeat (split; [done|]).
    apply spec_energy2_energy.
  - intros p r c im Him.
    pose proof (tv3_step_spec p r c im weight k Him) as Hs.
    apply pair_equal_spec in Hs as [-> ->]. unfold spec_kernel3.
    cbn [d3 out3 gx3 gy3 gz3]. repeat (split; [done|]).
    apply spec_energy3_energy.
Qed.

Lemma shape2_checker2 : shape2 2 2 checker2.
Proof. split; [reflexivity|]. repeat constructor. Qed.

Lemma shape3_checker3 : shape3 2 2 2 checker3.
Proof.
  split; [reflexivity|].
  repeat (constructor; [split; [reflexivity|repeat constructor]|]). constructor.
Qed.

Lemma tv_iteration_fields_witness :
  d2 (it2 checker2 50 2)
  = spec_div2 2 2 (px2 (it2 checker2 50 1)) (py2 (it2 checker2 50 1))
  ∧ energy_spec 50
      (concat (concat
         (tab3 2 2 2 (λ i j l, square (at3 (d3 (it3 checker3 50 2)) i j l)))))
      (concat (concat
         (spec_norm3 2 2 2 (gx3 (it3 checker3 50 2)) (gy3 (it3 checker3 50 2))
            (gz3 (it3 checker3 50 2)))))
      (2 * 2 * 2)
      (energy_at (tv3_kernel checker3 50) (tv3_init checker3) 1).
Proof.
  assert (nonzero_weight 50) as Hw by reflexivity.
  assert (Z.of_nat (2 * 2 * 2) < 2 ^ 63)%Z as Hn by reflexivity.
  split.
  - exact (proj1 (proj1 (tv_iteration_fields 50 1 Hw) 2%nat 2%nat checker2
                    shape2_checker2)).
  - exact (proj2 (proj2 (proj2 (proj2 (proj2
             (proj2 (tv_iteration_fields 50 1 Hw) 2%nat 2%nat 2%nat checker3
                shape3_checker3))))) Hn).
Defined.

(** C2: for a weight other than zero, in every iteration each dual field
    becomes [(dual - step * gradient) / (norm * (0.5 / weight) + 1)] with
    [step = 1 / (2 * number_of_axes)], that is 1/4 in 2-D and 1/6 in 3-D;
    the one factor is shared by all axes, and its [norm] is the gradient
    magnitude of this iteration's estimate, which is computed from the dual
    fields as they were before the update. *)
Theorem tv_dual_update (weight : float) (k : nat) :
  nonzero_weight weight →
  (spec_step 2 = 0.25%float ∧ spec_step 3 = (1 / 6)%float)
  ∧ (∀ r c (im : arr2),
       shape2 r c im →
       px2 (it2 im weight (S k))
       = spec_dual2 r c weight (px2 (it2 im weight k))
           (spec_grad2_x r c (tv2_out im (it2 im weight k)))
           (spec_norm2 r c
              (spec_grad2_x r c (tv2_out im (it2 im weight k)))
              (spec_grad2_y r c (tv2_out im (it2 im weight k))))
       ∧ py2 (it2 im weight (S k))
         = spec_dual2 r c weight (py2 (it2 im weight k))
             (spec_grad2_y r c (tv2_out im (it2 im weight k)))
             (spec_norm2 r c
                (spec_grad2_x r c (tv2_out im (it2 im weight k)))
                (spec_grad2_y r c (tv2_out im (it2 im weight k)))))
  ∧ (∀ p r c (im : arr3),
       shape3 p r c im →
       px3 (it3 im weight (S k))
       = spec_dual3 p r c weight (px3 (it3 im weight k))
           (spec_grad3_x p r c (tv3_out im (it3 im weight k)))
           (spec_norm3 p r c
              (spec_grad3_x p r c (tv3_out im (it3 im weight k)))
              (spec_grad3_y p r c (tv3_out im (it3 im weight k)))
              (spec_grad3_z p r c (tv3_out im (it3 im weight k))))
       ∧ py3 (it3 im weight (S k))
         = spec_dual3 p r c weight (py3 (it3 im weight k))
             (spec_grad3_y p r c (tv3_out im (it3 im weight k)))
             (spec_norm3 p r c
                (spec_grad3_x p r c (tv3_out im (it3 im weight k)))
                (spec_grad3_y p r c (tv3_out im (it3 im weight k)))
                (spec_grad3_z p r c (tv3_out im (it3 im weight k))))
       ∧ pz3 (it3 im weight (S k))
         = spec_dual3 p r c weight (pz3 (it3 im weight k))
             (spec_grad3_z p r c (tv3_out im (it3 im weight k)))
             (spec_norm3 p r c
                (spec_grad3_x p r c (tv3_out im (it3 im weight k)))
                (spec_grad3_y p r c (tv3_out im (it3 im weight k)))
                (spec_grad3_z p r c (tv3_out im (it3 im weight k))))).
Proof.
  intros _. split; [split; reflexivity|]. split.
  - intros r c im Him.
    pose proof (tv2_step_spec r c im weight k Him) as Hs.
    apply pair_equal_spec in Hs as [-> _].
    rewrite (tv2_out_spec r c) by (done || by apply tv2_inv_vars_at).
    unfold spec_kernel2. cbn [px2 py2]. done.
  - intros p r c im Him.
    pose proof (tv3_step_spec p r c im weight k Him) as Hs.
    apply pair_equal_spec in Hs as [-> _].
    rewrite (tv3_out_spec p r c) by (done || by apply tv3_inv_vars_at).
    unfold spec_kernel3. cbn [px3 py3 pz3]. done.
Qed.

Lemma tv_dual_update_witness :
  px2 (it2 checker2 50 2)
  = spec_dual2 2 2 50 (px2 (it2 checker2 50 1))
      (spec_grad2_x 2 2 (tv2_out checker2 (it2 checker2 50 1)))
      (spec_norm2 2 2
         (spec_grad2_x 2 2 (tv2_out checker2 (it2 checker2 50 1)))
         (spec_grad2_y 2 2 (tv2_out checker2 (it2 checker2 50 1))))
  ∧ pz3 (it3 checker3 50 2)
    = spec_dual3 2 2 2 50 (pz3 (it3 checker3 50 1))
        (spec_grad3_z 2 2 2 (tv3_out checker3 (it3 checker3 50 1)))
        (spec_norm3 2 2 2
           (spec_grad3_x 2 2 2 (tv3_out checker3 (it3 checker3 50 1)))
           (spec_grad3_y 2 2 2 (tv3_out checker3 (it3 checker3 50 1)))
           (spec_grad3_z 2 2 2 (tv3_out checker3 (it3 checker3 50 1)))).
Proof.
  assert (nonzero_weight 50) as Hw by reflexivity.
  split.
  - apply (proj1 (proj2 (tv_dual_update 50 1 Hw)) 2%nat 2%nat checker2
             shape2_checker2).
  - apply (proj2 (proj2 (tv_dual_update 50 1 Hw)) 2%nat 2%nat 2%nat checker3
             shape3_checker3).
Defined.

(** ** The optimizers over a store agree with the pure ones *)

Section Steps.
Context {A : Type} `{!Inhabited A} {B : Type}.
Implicit Types σ : list A.

Lemma bind_get l (f : A → state (list A) B) σ : bind (get l) f σ = f (σ !!! l) σ.
Proof. reflexivity. Qed.
Lemma bind_put l v (f : unit → state (list A) B) σ :
  bind (put l v) f σ = f tt (<[l:=v]> σ).
Proof. reflexivity. Qed.
Lemma bind_new v (f : nat → state (list A) B) σ :
  bind (new v) f σ = f (length σ) (σ ++ [v]).
Proof. reflexivity. Qed.
End Steps.

Lemma bind_ret {S A B} (a : A) (f : A → state S B) σ : bind (ret a) f σ = f a σ.
Proof. reflexivity. Qed.

Section StoreNF.
Context {A : Type} `{!Inhabited A}.
Implicit Types σ τ : list A.

(** reading and writing a store of the form [σ ++ τ] *)
Lemma nf_get_old σ τ l : (l < length σ)%nat → (σ ++ τ) !!! l = σ !!! l.
Proof. apply lookup_total_app_l. Qed.
Lemma nf_get_new σ τ k : (σ ++ τ) !!! (length σ + k)%nat = τ !!! k.
Proof. rewrite lookup_total_app_r by lia. f_equal. lia. Qed.
Lemma nf_put_old σ τ l v : (l < length σ)%nat → <[l:=v]> (σ ++ τ) = <[l:=v]> σ ++ τ.
Proof. apply insert_app_l. Qed.
Lemma nf_put_new σ τ k v : <[(length σ + k)%nat:=v]> (σ ++ τ) = σ ++ <[k:=v]> τ.
Proof. apply insert_app_r. Qed.
Lemma nf_new σ τ v : (σ ++ τ) ++ [v] = σ ++ (τ ++ [v]).
Proof. by rewrite <- app_assoc. Qed.
Lemma nf_length σ τ : length (σ ++ τ) = (length σ + length τ)%nat.
Proof. apply length_app. Qed.
Lemma nf_start σ : σ = σ ++ [].
Proof. by rewrite app_nil_r. Qed.
End StoreNF.

Section StoreNF2.
Context {A : Type} `{!Inhabited A}.
Implicit Types σ τ : list A.
Lemma nf_get_new' σ τ n k : length σ = n → (σ ++ τ) !!! (n + k)%nat = τ !!! k.
Proof. intros <-. apply nf_get_new. Qed.
Lemma nf_put_new' σ τ n k v :
  length σ = n → <[(n + k)%nat:=v]> (σ ++ τ) = σ ++ <[k:=v]> τ.
Proof. intros <-. apply nf_put_new. Qed.
Lemma nf_length' σ τ n : length σ = n → length (σ ++ τ) = (n + length τ)%nat.
Proof. intros <-. apply length_app. Qed.
End StoreNF2.

Ltac len := rewrite ?length_insert; first [assumption | lia].
Ltac len_lt HL := rewrite ?length_insert, ?HL; assumption.
Ltac len_eq HL := rewrite ?length_insert; exact HL.
Ltac neq := first [assumption | apply not_eq_sym; assumption].
Ltac step :=
  first
    [ rewrite bind_get
    | rewrite bind_put;
      lazymatch goal with
      | |- _ _ (<[_:=?v]> _) = _ => let x := fresh "x" in remember v as x
      end
    | rewrite bind_new;
      lazymatch goal with
      | |- _ _ (_ ++ [?v]) = _ => let x := fresh "x" in remember v as x
      end
    | rewrite bind_ret ];
  cbv beta.
Ltac nf_with HL L :=
  repeat first
    [ rewrite nf_new
    | rewrite (nf_length' _ _ L) by len_eq HL
    | progress cbn [app length lookup_total list_lookup_total insert list_insert]
    | rewrite (nf_get_new' _ _ L) by len_eq HL
    | rewrite nf_get_old by len_lt HL
    | rewrite (nf_put_new' _ _ L) by len_eq HL
    | rewrite nf_put_old by len_lt HL
    | rewrite list_lookup_total_insert_eq by len_lt HL
    | rewrite list_lookup_total_insert_ne by neq
    | rewrite list_insert_insert_eq ].
Ltac nf L :=
  match goal with HL : length _ = L |- _ => nf_with HL L end.

Lemma tv2_kernel_h_run im weight ρ σ L :
  length σ = L →
  (im < L)%nat → (l_px2 ρ < L)%nat → (l_py2 ρ < L)%nat →
  (l_gx2 ρ < L)%nat → (l_gy2 ρ < L)%nat →
  NoDup [im; l_px2 ρ; l_py2 ρ; l_gx2 ρ; l_gy2 ρ] →
  ∃ nv,
  tv2_kernel_h im weight ρ σ
  = (Env2 (l_px2 ρ) (l_py2 ρ) (l_gx2 ρ) (l_gy2 ρ) L (Some (L + 1)%nat),
     snd (tv2_kernel (σ !!! im) weight
            (Vars2 (σ !!! l_px2 ρ) (σ !!! l_py2 ρ) (σ !!! l_gx2 ρ)
               (σ !!! l_gy2 ρ) [] None)),
     <[l_py2 ρ := py2 (fst (tv2_kernel (σ !!! im) weight
            (Vars2 (σ !!! l_px2 ρ) (σ !!! l_py2 ρ) (σ !!! l_gx2 ρ)
               (σ !!! l_gy2 ρ) [] None)))]>
       (<[l_px2 ρ := px2 (fst (tv2_kernel (σ !!! im) weight
            (Vars2 (σ !!! l_px2 ρ) (σ !!! l_py2 ρ) (σ !!! l_gx2 ρ)
               (σ !!! l_gy2 ρ) [] None)))]>
          (<[l_gy2 ρ := gy2 (fst (tv2_kernel (σ !!! im) weight
            (Vars2 (σ !!! l_px2 ρ) (σ !!! l_py2 ρ) (σ !!! l_gx2 ρ)
               (σ !!! l_gy2 ρ) [] None)))]>
             (<[l_gx2 ρ := gx2 (fst (tv2_kernel (σ !!! im) weight
            (Vars2 (σ !!! l_px2 ρ) (σ !!! l_py2 ρ) (σ !!! l_gx2 ρ)
               (σ !!! l_gy2 ρ) [] None)))]> σ)))
     ++ [d2 (fst (tv2_kernel (σ !!! im) weight
            (Vars2 (σ !!! l_px2 ρ) (σ !!! l_py2 ρ) (σ !!! l_gx2 ρ)
               (σ !!! l_gy2 ρ) [] None)));
         tv2_out (σ !!! im)
            (Vars2 (σ !!! l_px2 ρ) (σ !!! l_py2 ρ) (σ !!! l_gx2 ρ)
               (σ !!! l_gy2 ρ) [] None);
         nv]).
Proof.
  intros HL Him Hpx Hpy Hgx Hgy Hnd.
  destruct ρ as [px py gx gy d out]. cbn [l_px2 l_py2 l_gx2 l_gy2] in *.
  rewrite !NoDup_cons, !not_elem_of_cons in Hnd.
  destruct Hnd as ((? & ? & ? & ? & _) & (? & ? & ? & _) & (? & ? & _) & (? & _) & _).
  eexists.
  unfold tv2_kernel_h. cbv zeta. cbn [l_px2 l_py2 l_gx2 l_gy2].
  rewrite (nf_start σ) at 1.
  set (v := Vars2 _ _ _ _ _ _).
  nf L.
  repeat (step; nf L).
  unfold ret. subst. subst v. unfold tv2_kernel, tv2_out, div2, dual2, scale_norm2.
  cbn [px2 py2 gx2 gy2 d2 out2 fst snd]. rewrite Nat.add_0_r.
  reflexivity.
Qed.

Lemma tv2_kernel_frame im weight v :
  tv2_kernel im weight v
  = tv2_kernel im weight (Vars2 (px2 v) (py2 v) (gx2 v) (gy2 v) [] None).
Proof. reflexivity. Qed.

Lemma take_lookup_total `{!Inhabited A} (σ σ0 : list A) l :
  take (length σ0) σ = σ0 → (l < length σ0)%nat → σ !!! l = σ0 !!! l.
Proof.
  intros Ht Hl. rewrite !list_lookup_total_alt. f_equal.
  rewrite <- (lookup_take_lt σ (length σ0) l Hl). by rewrite Ht.
Qed.

Lemma take_length_le {A} (σ σ0 : list A) :
  take (length σ0) σ = σ0 → (length σ0 ≤ length σ)%nat.
Proof. intros Ht. rewrite <- Ht at 1. rewrite length_take. lia. Qed.

Lemma sim2_kernel σ0 im weight st v :
  (im < length σ0)%nat → sim2 σ0 st v →
  sim2 σ0 (fst (with_store (tv2_kernel_h im weight) st))
    (fst (tv2_kernel (σ0 !!! im) weight v))
  ∧ snd (with_store (tv2_kernel_h im weight) st)
    = snd (tv2_kernel (σ0 !!! im) weight v).
Proof.
  intros Him (Ht & Hpx & Hpy & Hgx & Hgy & Hnd & Vpx & Vpy & Vgx & Vgy & _).
  destruct st as [ρ σ]. cbn [fst snd] in *.
  pose proof (take_length_le _ _ Ht) as Hle.
  assert (NoDup [im; l_px2 ρ; l_py2 ρ; l_gx2 ρ; l_gy2 ρ]) as Hnd'.
  { apply NoDup_cons. split; [|done]. rewrite !not_elem_of_cons.
    repeat split; try lia. apply not_elem_of_nil. }
  destruct (tv2_kernel_h_run im weight ρ σ (length σ) eq_refl) as [nv Hrun];
    [lia..|done|].
  unfold with_store. cbn [fst snd]. rewrite Hrun. cbn [fst snd].
  rewrite (take_lookup_total σ σ0 im Ht Him), Vpx, Vpy, Vgx, Vgy.
  rewrite <- tv2_kernel_frame. split; [|done].
  rewrite !NoDup_cons, !not_elem_of_cons in Hnd.
  destruct Hnd as ((? & ? & ? & _) & (? & ? & _) & (? & _) & _).
  unfold sim2. cbn [fst snd l_px2 l_py2 l_gx2 l_gy2 l_out2].
  rewrite !length_app, !length_insert. cbn [length].
  split.
  { rewrite take_app_le by (rewrite !length_insert; lia).
    rewrite !take_insert_ge by lia. done. }
  repeat (split; [lia|]).
  split.
  { rewrite !NoDup_cons, !not_elem_of_cons.
    repeat split; try done; try apply not_elem_of_nil. apply NoDup_nil_2. }
  repeat split.
  - rewrite lookup_total_app_l by len.
    rewrite list_lookup_total_insert_ne by lia.
    by rewrite list_lookup_total_insert_eq by len.
  - rewrite lookup_total_app_l by len.
    by rewrite list_lookup_total_insert_eq by len.
  - rewrite lookup_total_app_l by len.
    rewrite !list_lookup_total_insert_ne by lia.
    by rewrite list_lookup_total_insert_eq by len.
  - rewrite lookup_total_app_l by len.
    rewrite !list_lookup_total_insert_ne by lia.
    by rewrite list_lookup_total_insert_eq by len.
  - lia.
  - lia.
  - rewrite (nf_get_new' _ _ (length σ)) by len. reflexivity.
Qed.

Section DriverSim.
Context {V1 V2 : Type}.
Variable k1 : V1 → V1 * float.
Variable k2 : V2 → V2 * float.
Variable eps : float.
Variable R : V1 → V2 → Prop.
Hypothesis k_sim : ∀ a b,
  R a b → R (fst (k1 a)) (fst (k2 b)) ∧ snd (k1 a) = snd (k2 b).

Lemma loop_body_sim s1 s2 :
  state_sim R s1 s2 →
  fst (loop_body k1 eps s1) = fst (loop_body k2 eps s2)
  ∧ state_sim R (snd (loop_body k1 eps s1)) (snd (loop_body k2 eps s2)).
Proof using k_sim.
  intros (HR & HE0 & HEp & Hi). unfold loop_body.
  destruct (k_sim _ _ HR) as [HR' HE].
  destruct (k1 (vars s1)) as [v1 e1], (k2 (vars s2)) as [v2 e2].
  cbn [fst snd] in HR', HE. subst e2. rewrite <- Hi, <- HE0, <- HEp.
  destruct (i s1 =? 0)%Z; [by repeat split|].
  destruct (E_previous s1) as [Ep|]; [|by repeat split].
  destruct (E_init s1) as [E0|]; [|by repeat split].
  destruct (_ <? _)%float; by repeat split.
Qed.

Lemma while_loop_sim rem : ∀ s1 s2,
  state_sim R s1 s2 →
  fst (while_loop k1 eps rem s1) = fst (while_loop k2 eps rem s2)
  ∧ state_sim R (snd (while_loop k1 eps rem s1)) (snd (while_loop k2 eps rem s2)).
Proof using k_sim.
  induction rem as [|rem IH]; intros s1 s2 Hs; [done|].
  cbn [while_loop]. destruct (loop_body_sim s1 s2 Hs) as [Hc Hs'].
  destruct (loop_body k1 eps s1) as [c1 s1'], (loop_body k2 eps s2) as [c2 s2'].
  cbn [fst snd] in Hc, Hs'. subst c2. destruct c1 as [| |e]; [|done..].
  destruct (IH s1' s2' Hs') as [Hf Hs''].
  destruct (while_loop k1 eps rem s1') as [[n1 e1] t1],
           (while_loop k2 eps rem s2') as [[n2 e2] t2].
  cbn [fst snd] in *. by injection Hf as -> ->.
Qed.

Lemma run_loop_sim n v1 v2 :
  R v1 v2 →
  fst (run_loop k1 eps n v1) = fst (run_loop k2 eps n v2)
  ∧ state_sim R (snd (run_loop k1 eps n v1)) (snd (run_loop k2 eps n v2)).
Proof using k_sim. intros HR. apply while_loop_sim. by repeat split. Qed.
End DriverSim.

Lemma tv2_init_h_run im σ L :
  length σ = L → (im < L)%nat →
  tv2_init_h im σ
  = (Env2 L (L + 1) (L + 2) (L + 3) (L + 4) None,
     σ ++ replicate 5 (zeros_like2 (σ !!! im))).
Proof.
  intros HL Him. unfold tv2_init_h. rewrite (nf_start σ) at 1.
  repeat (step; nf L). unfold ret. subst x x0 x1 x2 x3.
  rewrite Nat.add_0_r. reflexivity.
Qed.

Lemma sim2_init σ im :
  (im < length σ)%nat → sim2 σ (tv2_init_h im σ) (tv2_init (σ !!! im)).
Proof.
  intros Him. rewrite (tv2_init_h_run im σ (length σ)) by done.
  unfold sim2, tv2_init. cbv zeta.
  cbn [fst snd l_px2 l_py2 l_gx2 l_gy2 l_out2 px2 py2 gx2 gy2 out2 replicate].
  rewrite length_app. cbn [length].
  split; [by rewrite take_app_length|].
  repeat (split; [lia|]).
  split.
  { rewrite !NoDup_cons, !not_elem_of_cons.
    repeat split; try lia; try apply not_elem_of_nil. apply NoDup_nil_2. }
  repeat split.
  - rewrite <- (Nat.add_0_r (length σ)) at 1. by rewrite nf_get_new.
  - by rewrite nf_get_new.
  - by rewrite nf_get_new.
  - by rewrite nf_get_new.
Qed.

(** The store-level call agrees with [_tv_denoise_2d] and keeps the
    caller's arrays. *)
Lemma tv2_denoise_h_spec σ im weight eps n :
  (im < length σ)%nat →
  take (length σ) (fst (_tv_denoise_2d_h σ im weight eps n)) = σ
  ∧ match snd (_tv_denoise_2d_h σ im weight eps n) with
    | Ok l =>
      (length σ ≤ l < length (fst (_tv_denoise_2d_h σ im weight eps n)))%nat
      ∧ _tv_denoise_2d (σ !!! im) weight eps n
        = Ok (fst (_tv_denoise_2d_h σ im weight eps n) !!! l)
    | Raise e => _tv_denoise_2d (σ !!! im) weight eps n = Raise e
    end.
Proof.
  intros Him. unfold _tv_denoise_2d_h, _tv_denoise_2d.
  destruct (run_loop_sim (with_store (tv2_kernel_h im weight))
              (tv2_kernel (σ !!! im) weight) eps (sim2 σ)
              (λ a b, sim2_kernel σ im weight a b Him) n
              (tv2_init_h im σ) (tv2_init (σ !!! im)) (sim2_init σ im Him))
    as [Hf (HR & _)].
  destruct (run_loop (with_store _) _ _ _) as [[k1 e1] s1].
  destruct (run_loop (tv2_kernel _ _) _ _ _) as [[k2 e2] s2].
  cbn [fst snd] in Hf, HR. injection Hf as -> ->.
  destruct HR as (Ht & _ & _ & _ & _ & _ & _ & _ & _ & _ & Hout).
  destruct e2 as [e|]; [done|].
  destruct (l_out2 (vars s1).1) as [l|], (out2 (vars s2)) as [o|]; try done.
  destruct Hout as [Hl <-]. done.
Qed.

Lemma tv3_kernel_h_run im weight ρ σ L :
  length σ = L →
  (im < L)%nat → (l_px3 ρ < L)%nat → (l_py3 ρ < L)%nat → (l_pz3 ρ < L)%nat →
  (l_gx3 ρ < L)%nat → (l_gy3 ρ < L)%nat → (l_gz3 ρ < L)%nat →
  NoDup [im; l_px3 ρ; l_py3 ρ; l_pz3 ρ; l_gx3 ρ; l_gy3 ρ; l_gz3 ρ] →
  ∃ nv,
  tv3_kernel_h im weight ρ σ
  = (Env3 (l_px3 ρ) (l_py3 ρ) (l_pz3 ρ) (l_gx3 ρ) (l_gy3 ρ) (l_gz3 ρ) L
       (Some (L + 1)%nat),
     snd (tv3_kernel (σ !!! im) weight
            (Vars3 (σ !!! l_px3 ρ) (σ !!! l_py3 ρ) (σ !!! l_pz3 ρ)
               (σ !!! l_gx3 ρ) (σ !!! l_gy3 ρ) (σ !!! l_gz3 ρ) [] None)),
     <[l_pz3 ρ := pz3 (fst (tv3_kernel (σ !!! im) weight
            (Vars3 (σ !!! l_px3 ρ) (σ !!! l_py3 ρ) (σ !!! l_pz3 ρ)
               (σ !!! l_gx3 ρ) (σ !!! l_gy3 ρ) (σ !!! l_gz3 ρ) [] None)))]>
    (<[l_py3 ρ := py3 (fst (tv3_kernel (σ !!! im) weight
            (Vars3 (σ !!! l_px3 ρ) (σ !!! l_py3 ρ) (σ !!! l_pz3 ρ)
               (σ !!! l_gx3 ρ) (σ !!! l_gy3 ρ) (σ !!! l_gz3 ρ) [] None)))]>
    (<[l_px3 ρ := px3 (fst (tv3_kernel (σ !!! im) weight
            (Vars3 (σ !!! l_px3 ρ) (σ !!! l_py3 ρ) (σ !!! l_pz3 ρ)
               (σ !!! l_gx3 ρ) (σ !!! l_gy3 ρ) (σ !!! l_gz3 ρ) [] None)))]>
    (<[l_gz3 ρ := gz3 (fst (tv3_kernel (σ !!! im) weight
            (Vars3 (σ !!! l_px3 ρ) (σ !!! l_py3 ρ) (σ !!! l_pz3 ρ)
               (σ !!! l_gx3 ρ) (σ !!! l_gy3 ρ) (σ !!! l_gz3 ρ) [] None)))]>
    (<[l_gy3 ρ := gy3 (fst (tv3_kernel (σ !!! im) weight
            (Vars3 (σ !!! l_px3 ρ) (σ !!! l_py3 ρ) (σ !!! l_pz3 ρ)
               (σ !!! l_gx3 ρ) (σ !!! l_gy3 ρ) (σ !!! l_gz3 ρ) [] None)))]>
    (<[l_gx3 ρ := gx3 (fst (tv3_kernel (σ !!! im) weight
            (Vars3 (σ !!! l_px3 ρ) (σ !!! l_py3 ρ) (σ !!! l_pz3 ρ)
               (σ !!! l_gx3 ρ) (σ !!! l_gy3 ρ) (σ !!! l_gz3 ρ) [] None)))]>
       σ)))))
     ++ [d3 (fst (tv3_kernel (σ !!! im) weight
            (Vars3 (σ !!! l_px3 ρ) (σ !!! l_py3 ρ) (σ !!! l_pz3 ρ)
               (σ !!! l_gx3 ρ) (σ !!! l_gy3 ρ) (σ !!! l_gz3 ρ) [] None)));
         tv3_out (σ !!! im)
            (Vars3 (σ !!! l_px3 ρ) (σ !!! l_py3 ρ) (σ !!! l_pz3 ρ)
               (σ !!! l_gx3 ρ) (σ !!! l_gy3 ρ) (σ !!! l_gz3 ρ) [] None);
         nv]).
Proof.
  intros HL Him Hpx Hpy Hpz Hgx Hgy Hgz Hnd.
  destruct ρ as [px py pz gx gy gz d out].
  cbn [l_px3 l_py3 l_pz3 l_gx3 l_gy3 l_gz3] in *.
  rewrite !NoDup_cons, !not_elem_of_cons in Hnd.
  destruct Hnd as ((? & ? & ? & ? & ? & ? & _) & (? & ? & ? & ? & ? & _)
                   & (? & ? & ? & ? & _) & (? & ? & ? & _) & (? & ? & _)
                   & (? & _) & _).
  eexists.
  unfold tv3_kernel_h. cbv zeta. cbn [l_px3 l_py3 l_pz3 l_gx3 l_gy3 l_gz3].
  rewrite (nf_start σ) at 1.
  set (v := Vars3 _ _ _ _ _ _ _ _).
  nf L.
  repeat (step; nf L).
  unfold ret. subst. subst v. unfold tv3_kernel, tv3_out, div3, dual3, scale_norm3.
  cbn [px3 py3 pz3 gx3 gy3 gz3 d3 out3 fst snd]. rewrite Nat.add_0_r.
  reflexivity.
Qed.

Lemma tv3_kernel_frame im weight v :
  tv3_kernel im weight v
  = tv3_kernel im weight
      (Vars3 (px3 v) (py3 v) (pz3 v) (gx3 v) (gy3 v) (gz3 v) [] None).
Proof. reflexivity. Qed.

Lemma tv3_kernel_out im weight v :
  out3 (fst (tv3_kernel im weight v)) = Some (tv3_out im v).
Proof. reflexivity. Qed.

Ltac look :=
  rewrite lookup_total_app_l by len;
  rewrite ?list_lookup_total_insert_ne by neq;
  rewrite list_lookup_total_insert_eq by len; reflexivity.

Lemma sim3_kernel σ0 im weight st v :
  (im < length σ0)%nat → sim3 σ0 st v →
  sim3 σ0 (fst (with_store (tv3_kernel_h im weight) st))
    (fst (tv3_kernel (σ0 !!! im) weight v))
  ∧ snd (with_store (tv3_kernel_h im weight) st)
    = snd (tv3_kernel (σ0 !!! im) weight v).
Proof.
  intros Him (Ht & Hpx & Hpy & Hpz & Hgx & Hgy & Hgz & Hnd
              & Vpx & Vpy & Vpz & Vgx & Vgy & Vgz & _).
  destruct st as [ρ σ]. cbn [fst snd] in *.
  pose proof (take_length_le _ _ Ht) as Hle.
  assert (NoDup [im; l_px3 ρ; l_py3 ρ; l_pz3 ρ; l_gx3 ρ; l_gy3 ρ; l_gz3 ρ])
    as Hnd'.
  { apply NoDup_cons. split; [|exact Hnd]. rewrite !not_elem_of_cons.
    repeat split; try lia. apply not_elem_of_nil. }
  destruct (tv3_kernel_h_run im weight ρ σ (length σ) eq_refl) as [nv Hrun];
    [lia..|exact Hnd'|].
  unfold with_store. cbn [fst snd]. rewrite Hrun. clear Hrun Hnd'.
  cbn [fst snd].
  rewrite (take_lookup_total σ σ0 im Ht Him), Vpx, Vpy, Vpz, Vgx, Vgy, Vgz.
  rewrite <- tv3_kernel_frame. split; [|reflexivity].
  unfold sim3. cbn [fst snd l_px3 l_py3 l_pz3 l_gx3 l_gy3 l_gz3 l_out3].
  rewrite tv3_kernel_out.
  rewrite !length_app, !length_insert. cbn [length].
  split.
  { rewrite take_app_le by (rewrite !length_insert; lia).
    rewrite !take_insert_ge by lia. exact Ht. }
  repeat (split; [lia|]).
  split; [exact Hnd|].
  assert (length σ0 ≤ length σ + 1 < length σ + 3)%nat as Hout by lia.
  destruct Hpx as [_ Hpx], Hpy as [_ Hpy], Hpz as [_ Hpz],
           Hgx as [_ Hgx], Hgy as [_ Hgy], Hgz as [_ Hgz].
  rewrite !NoDup_cons, !not_elem_of_cons in Hnd.
  destruct Hnd as ((? & ? & ? & ? & ? & _) & (? & ? & ? & ? & _)
                   & (? & ? & ? & _) & (? & ? & _) & (? & _) & _).
  repeat (split; [look|]).
  split; [exact Hout|].
  rewrite (nf_get_new' _ _ (length σ)) by (rewrite ?length_insert; reflexivity).
  reflexivity.
Qed.

Lemma tv3_init_h_run im σ L :
  length σ = L → (im < L)%nat →
  tv3_init_h im σ
  = (Env3 L (L + 1) (L + 2) (L + 3) (L + 4) (L + 5) (L + 6) None,
     σ ++ replicate 7 (zeros_like3 (σ !!! im))).
Proof.
  intros HL Him. unfold tv3_init_h. rewrite (nf_start σ) at 1.
  repeat (step; nf L). unfold ret. subst x x0 x1 x2 x3 x4 x5.
  rewrite Nat.add_0_r. reflexivity.
Qed.

Lemma sim3_init σ im :
  (im < length σ)%nat → sim3 σ (tv3_init_h im σ) (tv3_init (σ !!! im)).
Proof.
  intros Him. rewrite (tv3_init_h_run im σ (length σ)) by done.
  unfold sim3, tv3_init. cbv zeta.
  cbn [fst snd l_px3 l_py3 l_pz3 l_gx3 l_gy3 l_gz3 l_out3
       px3 py3 pz3 gx3 gy3 gz3 out3 replicate].
  rewrite length_app. cbn [length].
  split; [by rewrite take_app_length|].
  repeat (split; [lia|]).
  split.
  { rewrite !NoDup_cons, !not_elem_of_cons.
    repeat split; try lia; try apply not_elem_of_nil. apply NoDup_nil_2. }
  split.
  { rewrite <- (Nat.add_0_r (length σ)) at 1. by rewrite nf_get_new. }
  repeat (split; [by rewrite nf_get_new|]).
  exact I.
Qed.

Lemma tv3_denoise_h_spec σ im weight eps n :
  (im < length σ)%nat →
  take (length σ) (fst (_tv_denoise_3d_h σ im weight eps n)) = σ
  ∧ match snd (_tv_denoise_3d_h σ im weight eps n) with
    | Ok l =>
      (length σ ≤ l < length (fst (_tv_denoise_3d_h σ im weight eps n)))%nat
      ∧ _tv_denoise_3d (σ !!! im) weight eps n
        = Ok (fst (_tv_denoise_3d_h σ im weight eps n) !!! l)
    | Raise e => _tv_denoise_3d (σ !!! im) weight eps n = Raise e
    end.
Proof.
  intros Him. unfold _tv_denoise_3d_h, _tv_denoise_3d.
  destruct (run_loop_sim (with_store (tv3_kernel_h im weight))
              (tv3_kernel (σ !!! im) weight) eps (sim3 σ)
              (λ a b, sim3_kernel σ im weight a b Him) n
              (tv3_init_h im σ) (tv3_init (σ !!! im)) (sim3_init σ im Him))
    as [Hf (HR & _)].
  destruct (run_loop (with_store _) _ _ _) as [[k1 e1] s1].
  destruct (run_loop (tv3_kernel _ _) _ _ _) as [[k2 e2] s2].
  cbn [fst snd] in Hf, HR. injection Hf as -> ->.
  destruct HR as (Ht & _ & _ & _ & _ & _ & _ & _ & _ & _ & _ & _ & _ & _ & Hout).
  destruct e2 as [e|]; [done|].
  destruct (l_out3 (vars s1).1) as [l|], (out3 (vars s2)) as [o|]; try done.
  destruct Hout as [Hl <-]. done.
Qed.

(** ** What a call does to the store *)

(** X1: for a weight other than zero, a call of [_tv_denoise_2d] on the
    array at location [im] leaves
    every array that existed before the call as it was, the image among
    them; the location it returns is one the call created, so it is not the
    image's; and the array there is the one the optimizer on values
    returns.  When the call raises, so does the optimizer on values. *)
Theorem tv2_denoise_store_frame (σ : list arr2) (im : nat)
    (weight eps : float) (n_iter_max : Z) :
  nonzero_weight weight →
  (im < length σ)%nat →
  take (length σ) (fst (_tv_denoise_2d_h σ im weight eps n_iter_max)) = σ
  ∧ fst (_tv_denoise_2d_h σ im weight eps n_iter_max) !!! im = σ !!! im
  ∧ match snd (_tv_denoise_2d_h σ im weight eps n_iter_max) with
    | Ok l =>
      (length σ ≤ l
       < length (fst (_tv_denoise_2d_h σ im weight eps n_iter_max)))%nat
      ∧ l ≠ im
      ∧ _tv_denoise_2d (σ !!! im) weight eps n_iter_max
        = Ok (fst (_tv_denoise_2d_h σ im weight eps n_iter_max) !!! l)
    | Raise e => _tv_denoise_2d (σ !!! im) weight eps n_iter_max = Raise e
    end.
Proof.
  intros _ Him.
  destruct (tv2_denoise_h_spec σ im weight eps n_iter_max Him) as [Ht Hr].
  split; [exact Ht|]. split; [by apply take_lookup_total|].
  destruct (snd _) as [l|e]; [|exact Hr].
  destruct Hr as [Hl Hr]. split; [exact Hl|]. split; [lia|exact Hr].
Qed.

Lemma tv2_denoise_store_frame_witness :
  take (length [flat2; checker2])
    (fst (_tv_denoise_2d_h [flat2; checker2] 1 50 0.5 3)) = [flat2; checker2]
  ∧ fst (_tv_denoise_2d_h [flat2; checker2] 1 50 0.5 3) !!! 1%nat
    = [flat2; checker2] !!! 1%nat
  ∧ match snd (_tv_denoise_2d_h [flat2; checker2] 1 50 0.5 3) with
    | Ok l =>
      (length [flat2; checker2] ≤ l
       < length (fst (_tv_denoise_2d_h [flat2; checker2] 1 50 0.5 3)))%nat
      ∧ l ≠ 1%nat
      ∧ _tv_denoise_2d ([flat2; checker2] !!! 1%nat) 50 0.5 3
        = Ok (fst (_tv_denoise_2d_h [flat2; checker2] 1 50 0.5 3) !!! l)
    | Raise e => _tv_denoise_2d ([flat2; checker2] !!! 1%nat) 50 0.5 3 = Raise e
    end.
Proof.
  apply (tv2_denoise_store_frame [flat2; checker2] 1 50 0.5 3).
  - reflexivity.
  - simpl. lia.
Defined.

(** X2: the same for [_tv_denoise_3d]: the arrays of the caller are
    unchanged, the returned location is new, and it holds the result of the
    optimizer on values. *)
Theorem tv3_denoise_store_frame (σ : list arr3) (im : nat)
    (weight eps : float) (n_iter_max : Z) :
  nonzero_weight weight →
  (im < length σ)%nat →
  take (length σ) (fst (_tv_denoise_3d_h σ im weight eps n_iter_max)) = σ
  ∧ fst (_tv_denoise_3d_h σ im weight eps n_iter_max) !!! im = σ !!! im
  ∧ match snd (_tv_denoise_3d_h σ im weight eps n_iter_max) with
    | Ok l =>
      (length σ ≤ l
       < length (fst (_tv_denoise_3d_h σ im weight eps n_iter_max)))%nat
      ∧ l ≠ im
      ∧ _tv_denoise_3d (σ !!! im) weight eps n_iter_max
        = Ok (fst (_tv_denoise_3d_h σ im weight eps n_iter_max) !!! l)
    | Raise e => _tv_denoise_3d (σ !!! im) weight eps n_iter_max = Raise e
    end.
Proof.
  intros _ Him.
  destruct (tv3_denoise_h_spec σ im weight eps n_iter_max Him) as [Ht Hr].
  split; [exact Ht|]. split; [by apply take_lookup_total|].
  destruct (snd _) as [l|e]; [|exact Hr].
  destruct Hr as [Hl Hr]. split; [exact Hl|]. split; [lia|exact Hr].
Qed.

Lemma tv3_denoise_store_frame_witness :
  take (length [checker3])
    (fst (_tv_denoise_3d_h [checker3] 0 100 0.5 3)) = [checker3]
  ∧ fst (_tv_denoise_3d_h [checker3] 0 100 0.5 3) !!! 0%nat
    = [checker3] !!! 0%nat
  ∧ match snd (_tv_denoise_3d_h [checker3] 0 100 0.5 3) with
    | Ok l =>
      (length [checker3] ≤ l
       < length (fst (_tv_denoise_3d_h [checker3] 0 100 0.5 3)))%nat
      ∧ l ≠ 0%nat
      ∧ _tv_denoise_3d ([checker3] !!! 0%nat) 100 0.5 3
        = Ok (fst (_tv_denoise_3d_h [checker3] 0 100 0.5 3) !!! l)
    | Raise e => _tv_denoise_3d ([checker3] !!! 0%nat) 100 0.5 3 = Raise e
    end.
Proof.
  apply (tv3_denoise_store_frame [checker3] 0 100 0.5 3).
  - reflexivity.
  - simpl. lia.
Defined.

(** ** Calls on a shared store *)

Section Calls.
Context {A : Type} `{!Inhabited A}.
(** A call on the array at a location of the store, and the function of
    the array's value that it computes. *)
Variable call : list A → nat → list A * result nat.
Variable value : A → result A.

Hypothesis call_spec : ∀ σ im,
  (im < length σ)%nat →
  take (length σ) (fst (call σ im)) = σ
  ∧ match snd (call σ im) with
    | Ok l =>
      (length σ ≤ l < length (fst (call σ im)))%nat
      ∧ value (σ !!! im) = Ok (fst (call σ im) !!! l)
    | Raise e => value (σ !!! im) = Raise e
    end.

Lemma call_frame σ im l :
  (im < length σ)%nat → (l < length σ)%nat →
  fst (call σ im) !!! l = σ !!! l.
Proof using call_spec.
  intros Him Hl. destruct (call_spec σ im Him) as [Ht _].
  by apply take_lookup_total.
Qed.

Lemma call_fresh σ im out :
  (im < length σ)%nat → snd (call σ im) = Ok out →
  (length σ ≤ out < length (fst (call σ im)))%nat.
Proof using call_spec.
  intros Him Hout. destruct (call_spec σ im Him) as [_ Hr].
  rewrite Hout in Hr. by destruct Hr.
Qed.

Lemma calls_agree σ σ' im im' :
  (im < length σ)%nat → (im' < length σ')%nat → σ !!! im = σ' !!! im' →
  match snd (call σ im), snd (call σ' im') with
  | Ok l, Ok l' => fst (call σ im) !!! l = fst (call σ' im') !!! l'
  | Raise e, Raise e' => e = e'
  | _, _ => False
  end.
Proof using call_spec.
  intros Him Him' Heq.
  destruct (call_spec σ im Him) as [_ Hr].
  destruct (call_spec σ' im' Him') as [_ Hr'].
  rewrite <- Heq in Hr'.
  destruct (snd (call σ im)) as [l|e], (snd (call σ' im')) as [l'|e'].
  - destruct Hr as [_ Hr], Hr' as [_ Hr']. congruence.
  - destruct Hr as [_ Hr]. congruence.
  - destruct Hr' as [_ Hr']. congruence.
  - congruence.
Qed.

Lemma twice_spec σ im :
  (im < length σ)%nat →
  match twice (λ σ, call σ im) σ with
  | (σ2, Ok l1, Ok l2) =>
    l1 ≠ l2 ∧ σ2 !!! l1 = σ2 !!! l2 ∧ σ2 !!! im = σ !!! im
  | (σ2, Raise e1, Raise e2) => e1 = e2 ∧ σ2 !!! im = σ !!! im
  | _ => False
  end.
Proof using call_spec.
  intros Him. unfold twice.
  destruct (call_spec σ im Him) as [Ht Hr].
  destruct (call σ im) as [σ1 r1]. cbn [fst snd] in Ht, Hr.
  pose proof (take_length_le _ _ Ht) as Hle.
  assert (im < length σ1)%nat as Him1 by lia.
  assert (σ1 !!! im = σ !!! im) as Heq by by apply take_lookup_total.
  destruct (call_spec σ1 im Him1) as [Ht' Hr']. rewrite Heq in Hr'.
  destruct (call σ1 im) as [σ2 r2]. cbn [fst snd] in Ht', Hr'.
  assert (σ2 !!! im = σ !!! im) as Heq2.
  { rewrite <- Heq. by apply take_lookup_total. }
  destruct r1 as [l1|e1], r2 as [l2|e2].
  - destruct Hr as [Hl1 Hr], Hr' as [Hl2 Hr'].
    split; [lia|]. split; [|done].
    rewrite (take_lookup_total σ2 σ1 l1) by (done || lia). congruence.
  - destruct Hr as [_ Hr]. congruence.
  - destruct Hr' as [_ Hr']. congruence.
  - split; [congruence|done].
Qed.
End Calls.

(** C8: for a weight other than zero, what a call returns is determined by
    the samples of the image and by the parameters.  Two calls of an
    optimizer on stores that hold the same image, at whatever locations and
    among whatever other arrays, end the same way, and the arrays they
    return are equal sample for sample.  A second call on the same input,
    run on the store that the first call left, returns an array other than
    the first result, with the same samples, and the first result and the
    image are then as they were.  [tv_denoise] returns the samples that the
    optimizer leaves in the store, whatever store it runs on. *)
Theorem tv_denoise_deterministic (weight eps : float) (n_iter_max : Z) :
  nonzero_weight weight →
  ((∀ (σ σ' : list arr2) (im im' : nat),
      (im < length σ)%nat → (im' < length σ')%nat → σ !!! im = σ' !!! im' →
      match snd (_tv_denoise_2d_h σ im weight eps n_iter_max),
            snd (_tv_denoise_2d_h σ' im' weight eps n_iter_max) with
      | Ok l, Ok l' =>
        fst (_tv_denoise_2d_h σ im weight eps n_iter_max) !!! l
        = fst (_tv_denoise_2d_h σ' im' weight eps n_iter_max) !!! l'
      | Raise e, Raise e' => e = e'
      | _, _ => False
      end)
   ∧ (∀ (σ : list arr2) (im : nat),
        (im < length σ)%nat →
        match twice (λ σ, _tv_denoise_2d_h σ im weight eps n_iter_max) σ with
        | (σ2, Ok l1, Ok l2) =>
          l1 ≠ l2 ∧ σ2 !!! l1 = σ2 !!! l2 ∧ σ2 !!! im = σ !!! im
        | (σ2, Raise e1, Raise e2) => e1 = e2 ∧ σ2 !!! im = σ !!! im
        | _ => False
        end)
   ∧ (∀ (img_as_float : ndarray → ndarray) (x : ndarray) r c
        (σ : list arr2) (im : nat),
        shape (tv_input img_as_float x) = [r; c] →
        (im < length σ)%nat →
        σ !!! im = to_arr2 r c (buf (tv_input img_as_float x)) →
        snd (tv_denoise img_as_float x weight eps n_iter_max)
        = match snd (_tv_denoise_2d_h σ im weight eps n_iter_max) with
          | Ok l =>
            Ok (NdArray (dtype (tv_input img_as_float x)) [r; c]
                  (concat (fst (_tv_denoise_2d_h σ im weight eps n_iter_max)
                           !!! l)))
          | Raise e => Raise e
          end))
  ∧ ((∀ (σ σ' : list arr3) (im im' : nat),
        (im < length σ)%nat → (im' < length σ')%nat → σ !!! im = σ' !!! im' →
        match snd (_tv_denoise_3d_h σ im weight eps n_iter_max),
              snd (_tv_denoise_3d_h σ' im' weight eps n_iter_max) with
        | Ok l, Ok l' =>
          fst (_tv_denoise_3d_h σ im weight eps n_iter_max) !!! l
          = fst (_tv_denoise_3d_h σ' im' weight eps n_iter_max) !!! l'
        | Raise e, Raise e' => e = e'
        | _, _ => False
        end)
     ∧ (∀ (σ : list arr3) (im : nat),
          (im < length σ)%nat →
          match twice (λ σ, _tv_denoise_3d_h σ im weight eps n_iter_max) σ with
          | (σ2, Ok l1, Ok l2) =>
            l1 ≠ l2 ∧ σ2 !!! l1 = σ2 !!! l2 ∧ σ2 !!! im = σ !!! im
          | (σ2, Raise e1, Raise e2) => e1 = e2 ∧ σ2 !!! im = σ !!! im
          | _ => False
          end)
     ∧ (∀ (img_as_float : ndarray → ndarray) (x : ndarray) p r c
          (σ : list arr3) (im : nat),
          shape (tv_input img_as_float x) = [p; r; c] →
          (im < length σ)%nat →
          σ !!! im = to_arr3 p r c (buf (tv_input img_as_float x)) →
          snd (tv_denoise img_as_float x weight eps n_iter_max)
          = match snd (_tv_denoise_3d_h σ im weight eps n_iter_max) with
            | Ok l =>
              Ok (NdArray (dtype (tv_input img_as_float x)) [p; r; c]
                    (concat (concat
                       (fst (_tv_denoise_3d_h σ im weight eps n_iter_max)
                        !!! l))))
            | Raise e => Raise e
            end)).
Proof.
  intros _. split; (split; [|split]).
  - intros σ σ' im im'.
    apply (calls_agree (λ σ im, _tv_denoise_2d_h σ im weight eps n_iter_max)
             (λ a, _tv_denoise_2d a weight eps n_iter_max)).
    intros σ0 im0. apply tv2_denoise_h_spec.
  - intros σ im.
    apply (twice_spec (λ σ im, _tv_denoise_2d_h σ im weight eps n_iter_max)
             (λ a, _tv_denoise_2d a weight eps n_iter_max)).
    intros σ0 im0. apply tv2_denoise_h_spec.
  - intros img_as_float x r c σ im Hs Him Heq.
    rewrite tv_denoise_via_input. cbn [snd]. unfold tv_dispatch. rewrite Hs.
    cbn [snd]. rewrite <- Heq.
    destruct (tv2_denoise_h_spec σ im weight eps n_iter_max Him) as [_ Hr].
    destruct (snd (_tv_denoise_2d_h σ im weight eps n_iter_max)) as [l|e].
    + destruct Hr as [_ ->]. reflexivity.
    + rewrite Hr. reflexivity.
  - intros σ σ' im im'.
    apply (calls_agree (λ σ im, _tv_denoise_3d_h σ im weight eps n_iter_max)
             (λ a, _tv_denoise_3d a weight eps n_iter_max)).
    intros σ0 im0. apply tv3_denoise_h_spec.
  - intros σ im.
    apply (twice_spec (λ σ im, _tv_denoise_3d_h σ im weight eps n_iter_max)
             (λ a, _tv_denoise_3d a weight eps n_iter_max)).
    intros σ0 im0. apply tv3_denoise_h_spec.
  - intros img_as_float x p r c σ im Hs Him Heq.
    rewrite tv_denoise_via_input. cbn [snd]. unfold tv_dispatch. rewrite Hs.
    cbn [snd]. rewrite <- Heq.
    destruct (tv3_denoise_h_spec σ im weight eps n_iter_max Him) as [_ Hr].
    destruct (snd (_tv_denoise_3d_h σ im weight eps n_iter_max)) as [l|e].
    + destruct Hr as [_ ->]. reflexivity.
    + rewrite Hr. reflexivity.
Qed.

Lemma tv_denoise_deterministic_witness :
  match twice (λ σ, _tv_denoise_2d_h σ 1 50 0.5 3) [flat2; checker2] with
  | (σ2, Ok l1, Ok l2) =>
    l1 ≠ l2 ∧ σ2 !!! l1 = σ2 !!! l2 ∧ σ2 !!! 1%nat = [flat2; checker2] !!! 1%nat
  | (σ2, Raise e1, Raise e2) =>
    e1 = e2 ∧ σ2 !!! 1%nat = [flat2; checker2] !!! 1%nat
  | _ => False
  end.
Proof.
  assert (nonzero_weight 50) as Hw by reflexivity.
  assert (1 < length [flat2; checker2])%nat as Hl by (simpl; lia).
  exact (proj1 (proj2 (proj1 (tv_denoise_deterministic 50 0.5 3 Hw)))
           [flat2; checker2] 1%nat Hl).
Defined.

(** C9: for a weight other than zero, a call of either optimizer leaves
    every array that existed before the call as it was, sample for sample,
    the image among them, whether the call returns or raises; and the array
    it returns is one that the call created, so it is neither the image nor
    any other array of the caller. *)
Theorem tv_denoise_input_unchanged (weight eps : float) (n_iter_max : Z) :
  nonzero_weight weight →
  (∀ (σ : list arr2) (im : nat),
     (im < length σ)%nat →
     (∀ l, (l < length σ)%nat →
        fst (_tv_denoise_2d_h σ im weight eps n_iter_max) !!! l = σ !!! l)
     ∧ (∀ out,
          snd (_tv_denoise_2d_h σ im weight eps n_iter_max) = Ok out →
          out ≠ im ∧ (length σ ≤ out)%nat
          ∧ (out < length (fst (_tv_denoise_2d_h σ im weight eps n_iter_max)))%nat))
  ∧ (∀ (σ : list arr3) (im : nat),
       (im < length σ)%nat →
       (∀ l, (l < length σ)%nat →
          fst (_tv_denoise_3d_h σ im weight eps n_iter_max) !!! l = σ !!! l)
       ∧ (∀ out,
            snd (_tv_denoise_3d_h σ im weight eps n_iter_max) = Ok out →
            out ≠ im ∧ (length σ ≤ out)%nat
            ∧ (out < length (fst (_tv_denoise_3d_h σ im weight eps n_iter_max)))%nat)).
Proof.
  intros _. split.
  - intros σ im Him.
    pose proof (λ σ0 im0, tv2_denoise_h_spec σ0 im0 weight eps n_iter_max) as Hs.
    split.
    + intros l Hl.
      by apply (call_frame (λ σ im, _tv_denoise_2d_h σ im weight eps n_iter_max)
                  (λ a, _tv_denoise_2d a weight eps n_iter_max) Hs).
    + intros out Hout.
      pose proof (call_fresh (λ σ im, _tv_denoise_2d_h σ im weight eps n_iter_max)
                    (λ a, _tv_denoise_2d a weight eps n_iter_max) Hs
                    σ im out Him Hout) as Hf.
      cbn beta in Hf. lia.
  - intros σ im Him.
    pose proof (λ σ0 im0, tv3_denoise_h_spec σ0 im0 weight eps n_iter_max) as Hs.
    split.
    + intros l Hl.
      by apply (call_frame (λ σ im, _tv_denoise_3d_h σ im weight eps n_iter_max)
                  (λ a, _tv_denoise_3d a weight eps n_iter_max) Hs).
    + intros out Hout.
      pose proof (call_fresh (λ σ im, _tv_denoise_3d_h σ im weight eps n_iter_max)
                    (λ a, _tv_denoise_3d a weight eps n_iter_max) Hs
                    σ im out Him Hout) as Hf.
      cbn beta in Hf. lia.
Qed.

Lemma tv_denoise_input_unchanged_witness :
  fst (_tv_denoise_2d_h [flat2; checker2] 1 50 0.5 3) !!! 1%nat
  = [flat2; checker2] !!! 1%nat
  ∧ fst (_tv_denoise_3d_h [checker3] 0 100 0.5 3) !!! 0%nat
    = [checker3] !!! 0%nat.
Proof.
  assert (nonzero_weight 50) as Hw by reflexivity.
  assert (nonzero_weight 100) as Hw' by reflexivity.
  assert (1 < length [flat2; checker2])%nat as Hl by (simpl; lia).
  assert (0 < length [checker3])%nat as Hl' by (simpl; lia).
  split.
  - exact (proj1 (proj1 (tv_denoise_input_unchanged 50 0.5 3 Hw)
                    [flat2; checker2] 1%nat Hl) 1%nat Hl).
  - exact (proj1 (proj2 (tv_denoise_input_unchanged 100 0.5 3 Hw')
                    [checker3] 0%nat Hl') 0%nat Hl').
Defined.

(** ** How many arrays a call creates *)

Lemma vars_at_ind {V} (kernel : V → V * float) (v0 : V) (P : nat → V → Prop) :
  P 0%nat v0 → (∀ k v, P k v → P (S k) (fst (kernel v))) →
  ∀ k, P k (vars_at kernel v0 k).
Proof.
  intros H0 HS k. induction k as [|k IH]; [exact H0|].
  rewrite vars_at_S. by apply HS.
Qed.

Lemma alloc2_init σ im :
  (im < length σ)%nat →
  alloc2 (length σ) (zeros_like2 (σ !!! im)) 0 (tv2_init_h im σ).
Proof.
  intros Him. rewrite (tv2_init_h_run im σ (length σ)) by done.
  unfold alloc2. cbn [fst snd l_px2 l_py2 l_gx2 l_gy2 l_out2].
  rewrite length_app, length_replicate, nf_get_new.
  repeat split; lia.
Qed.

Lemma alloc2_kernel L0 z im weight k st :
  (im < L0)%nat → alloc2 L0 z k st →
  alloc2 L0 z (S k) (fst (with_store (tv2_kernel_h im weight) st)).
Proof.
  intros Him (Hpx & Hpy & Hgx & Hgy & Hlen & Hz & _).
  destruct st as [ρ σ]. cbn [fst snd] in *.
  destruct (tv2_kernel_h_run im weight ρ σ (length σ) eq_refl) as [nv Hrun];
    [lia..| |].
  { rewrite Hpx, Hpy, Hgx, Hgy. rewrite !NoDup_cons, !not_elem_of_cons.
    repeat split; try lia; try apply not_elem_of_nil. apply NoDup_nil_2. }
  unfold with_store. cbn [fst snd]. rewrite Hrun. clear Hrun. cbn [fst snd].
  unfold alloc2. cbn [fst snd l_px2 l_py2 l_gx2 l_gy2 l_out2].
  rewrite length_app, !length_insert. cbn [length].
  split; [exact Hpx|]. split; [exact Hpy|]. split; [exact Hgx|].
  split; [exact Hgy|]. split; [lia|]. split; [|f_equal; lia].
  rewrite lookup_total_app_l by (rewrite !length_insert; lia).
  rewrite !list_lookup_total_insert_ne by lia. exact Hz.
Qed.

Lemma alloc3_init σ im :
  (im < length σ)%nat →
  alloc3 (length σ) (zeros_like3 (σ !!! im)) 0 (tv3_init_h im σ).
Proof.
  intros Him. rewrite (tv3_init_h_run im σ (length σ)) by done.
  unfold alloc3. cbn [fst snd l_px3 l_py3 l_pz3 l_gx3 l_gy3 l_gz3 l_out3].
  rewrite length_app, length_replicate, nf_get_new.
  repeat split; lia.
Qed.

Lemma alloc3_kernel L0 z im weight k st :
  (im < L0)%nat → alloc3 L0 z k st →
  alloc3 L0 z (S k) (fst (with_store (tv3_kernel_h im weight) st)).
Proof.
  intros Him (Hpx & Hpy & Hpz & Hgx & Hgy & Hgz & Hlen & Hz & _).
  destruct st as [ρ σ]. cbn [fst snd] in *.
  destruct (tv3_kernel_h_run im weight ρ σ (length σ) eq_refl) as [nv Hrun];
    [lia..| |].
  { rewrite Hpx, Hpy, Hpz, Hgx, Hgy, Hgz. rewrite !NoDup_cons, !not_elem_of_cons.
    repeat split; try lia; try apply not_elem_of_nil. apply NoDup_nil_2. }
  unfold with_store. cbn [fst snd]. rewrite Hrun. clear Hrun. cbn [fst snd].
  unfold alloc3. cbn [fst snd l_px3 l_py3 l_pz3 l_gx3 l_gy3 l_gz3 l_out3].
  rewrite length_app, !length_insert. cbn [length].
  split; [exact Hpx|]. split; [exact Hpy|]. split; [exact Hpz|].
  split; [exact Hgx|]. split; [exact Hgy|]. split; [exact Hgz|].
  split; [lia|]. split; [|f_equal; lia].
  rewrite lookup_total_app_l by (rewrite !length_insert; lia).
  rewrite !list_lookup_total_insert_ne by lia. exact Hz.
Qed.

Lemma tv2_iterations_h σ im weight eps n :
  (im < length σ)%nat →
  iterations (with_store (tv2_kernel_h im weight)) eps (tv2_init_h im σ)
    (Z.to_nat n)
  = tv2_iterations (σ !!! im) weight eps n.
Proof.
  intros Him. unfold tv2_iterations.
  destruct (run_loop_sim (with_store (tv2_kernel_h im weight))
              (tv2_kernel (σ !!! im) weight) eps (sim2 σ)
              (λ a b, sim2_kernel σ im weight a b Him) n
              (tv2_init_h im σ) (tv2_init (σ !!! im)) (sim2_init σ im Him))
    as [Hf _].
  rewrite <- Hf.
  destruct (run_loop_spec (with_store (tv2_kernel_h im weight)) eps
              (tv2_init_h im σ) n) as (s & -> & _).
  reflexivity.
Qed.

Lemma tv3_iterations_h σ im weight eps n :
  (im < length σ)%nat →
  iterations (with_store (tv3_kernel_h im weight)) eps (tv3_init_h im σ)
    (Z.to_nat n)
  = tv3_iterations (σ !!! im) weight eps n.
Proof.
  intros Him. unfold tv3_iterations.
  destruct (run_loop_sim (with_store (tv3_kernel_h im weight))
              (tv3_kernel (σ !!! im) weight) eps (sim3 σ)
              (λ a b, sim3_kernel σ im weight a b Him) n
              (tv3_init_h im σ) (tv3_init (σ !!! im)) (sim3_init σ im Him))
    as [Hf _].
  rewrite <- Hf.
  destruct (run_loop_spec (with_store (tv3_kernel_h im weight)) eps
              (tv3_init_h im σ) n) as (s & -> & _).
  reflexivity.
Qed.

(** X3: counting the arrays that get bound to a variable (the temporaries
    of an expression aside), a call with a weight other than zero creates
    the five (2-D) or seven (3-D) arrays of lines 133-137 (43-49) and then
    three arrays, [d], [out] and [norm], in every iteration: the dual and
    gradient fields are updated in place.  The array that line 137 (49)
    binds to [d] is never written, and the location returned is that of the
    [out] of the last iteration executed. *)
Theorem tv_denoise_allocations (weight eps : float) (n_iter_max : Z) :
  nonzero_weight weight →
  (∀ (σ : list arr2) (im : nat),
     (im < length σ)%nat →
     length (fst (_tv_denoise_2d_h σ im weight eps n_iter_max))
     = (length σ + 5 + 3 * tv2_iterations (σ !!! im) weight eps n_iter_max)%nat
     ∧ fst (_tv_denoise_2d_h σ im weight eps n_iter_max) !!! (length σ + 4)%nat
       = zeros_like2 (σ !!! im)
     ∧ ∀ l, snd (_tv_denoise_2d_h σ im weight eps n_iter_max) = Ok l →
            (l + 2)%nat
            = length (fst (_tv_denoise_2d_h σ im weight eps n_iter_max)))
  ∧ (∀ (σ : list arr3) (im : nat),
       (im < length σ)%nat →
       length (fst (_tv_denoise_3d_h σ im weight eps n_iter_max))
       = (length σ + 7 + 3 * tv3_iterations (σ !!! im) weight eps n_iter_max)%nat
       ∧ fst (_tv_denoise_3d_h σ im weight eps n_iter_max) !!! (length σ + 6)%nat
         = zeros_like3 (σ !!! im)
       ∧ ∀ l, snd (_tv_denoise_3d_h σ im weight eps n_iter_max) = Ok l →
              (l + 2)%nat
              = length (fst (_tv_denoise_3d_h σ im weight eps n_iter_max))).
Proof.
  intros _. split.
  - intros σ im Him. unfold _tv_denoise_2d_h.
    pose proof (tv2_iterations_h σ im weight eps n_iter_max Him) as Hit.
    destruct (run_loop_spec (with_store (tv2_kernel_h im weight)) eps
                (tv2_init_h im σ) n_iter_max) as (s & -> & Hv).
    rewrite Hit in Hv.
    pose proof (vars_at_ind (with_store (tv2_kernel_h im weight))
                  (tv2_init_h im σ)
                  (alloc2 (length σ) (zeros_like2 (σ !!! im)))
                  (alloc2_init σ im Him)
                  (λ k v, alloc2_kernel _ _ im weight k v Him)
                  (tv2_iterations (σ !!! im) weight eps n_iter_max)) as Ha.
    rewrite <- Hv in Ha.
    destruct Ha as (_ & _ & _ & _ & Hlen & Hz & Hout).
    rewrite Hout.
    destruct (tv2_iterations _ _ _ _) as [|j]; cbn [fst snd].
    + split; [exact Hlen|]. split; [exact Hz|]. intros l [=].
    + split; [exact Hlen|]. split; [exact Hz|]. intros l [= <-]. lia.
  - intros σ im Him. unfold _tv_denoise_3d_h.
    pose proof (tv3_iterations_h σ im weight eps n_iter_max Him) as Hit.
    destruct (run_loop_spec (with_store (tv3_kernel_h im weight)) eps
                (tv3_init_h im σ) n_iter_max) as (s & -> & Hv).
    rewrite Hit in Hv.
    pose proof (vars_at_ind (with_store (tv3_kernel_h im weight))
                  (tv3_init_h im σ)
                  (alloc3 (length σ) (zeros_like3 (σ !!! im)))
                  (alloc3_init σ im Him)
                  (λ k v, alloc3_kernel _ _ im weight k v Him)
                  (tv3_iterations (σ !!! im) weight eps n_iter_max)) as Ha.
    rewrite <- Hv in Ha.
    destruct Ha as (_ & _ & _ & _ & _ & _ & Hlen & Hz & Hout).
    rewrite Hout.
    destruct (tv3_iterations _ _ _ _) as [|j]; cbn [fst snd].
    + split; [exact Hlen|]. split; [exact Hz|]. intros l [=].
    + split; [exact Hlen|]. split; [exact Hz|]. intros l [= <-]. lia.
Qed.

Lemma tv_denoise_allocations_witness :
  length (fst (_tv_denoise_2d_h [flat2; checker2] 1 50 0.5 3))
  = (length [flat2; checker2] + 5
     + 3 * tv2_iterations ([flat2; checker2] !!! 1%nat) 50 0.5 3)%nat
  ∧ length (fst (_tv_denoise_3d_h [checker3] 0 100 0.5 3))
    = (length [checker3] + 7
       + 3 * tv3_iterations ([checker3] !!! 0%nat) 100 0.5 3)%nat.
Proof.
  assert (1 < length [flat2; checker2])%nat as H2 by (simpl; lia).
  assert (0 < length [checker3])%nat as H3 by (simpl; lia).
  assert (nonzero_weight 50) as Hw2 by reflexivity.
  assert (nonzero_weight 100) as Hw3 by reflexivity.
  split.
  - exact (proj1 (proj1 (tv_denoise_allocations 50 0.5 3 Hw2)
                    [flat2; checker2] 1%nat H2)).
  - exact (proj1 (proj2 (tv_denoise_allocations 100 0.5 3 Hw3)
                    [checker3] 0%nat H3)).
Defined.

(** ** The result has the shape of the image *)

Lemma tv2_denoise_shape r c im weight eps n :
  (1 ≤ n)%Z → shape2 r c im →
  ∃ out, _tv_denoise_2d im weight eps n = Ok out ∧ shape2 r c out.
Proof.
  intros Hn Him. rewrite tv2_denoise_eq, tv2_iterations_eq.
  pose proof (iterations_pos (tv2_kernel im weight) eps (tv2_init im)
                (Z.to_nat n)) as Hp.
  destruct (iterations _ _ _ _) as [|j]; [lia|].
  eexists. split; [reflexivity|].
  rewrite (tv2_out_spec r c) by (done || by apply tv2_inv_vars_at).
  apply tab2_shape.
Qed.

Lemma tv3_denoise_shape p r c im weight eps n :
  (1 ≤ n)%Z → shape3 p r c im →
  ∃ out, _tv_denoise_3d im weight eps n = Ok out ∧ shape3 p r c out.
Proof.
  intros Hn Him. rewrite tv3_denoise_eq, tv3_iterations_eq.
  pose proof (iterations_pos (tv3_kernel im weight) eps (tv3_init im)
                (Z.to_nat n)) as Hp.
  destruct (iterations _ _ _ _) as [|j]; [lia|].
  eexists. split; [reflexivity|].
  rewrite (tv3_out_spec p r c) by (done || by apply tv3_inv_vars_at).
  apply tab3_shape.
Qed.

(** X4: with [n_iter_max >= 1], either optimizer returns, on an image of
    any shape, for any weight other than zero and any [eps], an array with
    the shape of the image. *)
Theorem tv_denoise_keeps_shape (weight eps : float) (n_iter_max : Z) :
  nonzero_weight weight →
  (1 ≤ n_iter_max)%Z →
  (∀ r c (im : arr2),
     shape2 r c im →
     ∃ out, _tv_denoise_2d im weight eps n_iter_max = Ok out ∧ shape2 r c out)
  ∧ (∀ p r c (im : arr3),
       shape3 p r c im →
       ∃ out, _tv_denoise_3d im weight eps n_iter_max = Ok out
              ∧ shape3 p r c out).
Proof.
  intros _ Hn. split.
  - intros r c im. by apply tv2_denoise_shape.
  - intros p r c im. by apply tv3_denoise_shape.
Qed.

Lemma tv_denoise_keeps_shape_witness :
  (∃ out, _tv_denoise_2d checker2 50 0.5 3 = Ok out ∧ shape2 2 2 out)
  ∧ (∃ out, _tv_denoise_3d checker3 100 0.5 3 = Ok out ∧ shape3 2 2 2 out).
Proof.
  assert (1 ≤ 3)%Z as H by lia.
  assert (nonzero_weight 50) as Hw2 by reflexivity.
  assert (nonzero_weight 100) as Hw3 by reflexivity.
  split.
  - exact (proj1 (tv_denoise_keeps_shape 50 0.5 3 Hw2 H) 2%nat 2%nat checker2
             shape2_checker2).
  - exact (proj2 (tv_denoise_keeps_shape 100 0.5 3 Hw3 H) 2%nat 2%nat 2%nat
             checker3 shape3_checker3).
Defined.

(** ** A larger cap extends the run *)

Section CapFacts.
Context {V : Type}.
Variable kernel : V → V * float.
Variable eps : float.
Variable v0 : V.

Lemma iterations_from_mono rem : ∀ k rem',
  (rem ≤ rem')%nat →
  (iterations_from kernel eps v0 k rem
   ≤ iterations_from kernel eps v0 k rem')%nat.
Proof.
  induction rem as [|rem IH]; intros k rem' Hle; cbn [iterations_from]; [lia|].
  destruct rem' as [|rem']; [lia|]. cbn [iterations_from].
  destruct (converged_at kernel eps v0 k); [lia|].
  specialize (IH (S k) rem'). lia.
Qed.

Lemma iterations_from_stable rem : ∀ k rem',
  (rem ≤ rem')%nat →
  (iterations_from kernel eps v0 k rem < rem)%nat →
  iterations_from kernel eps v0 k rem' = iterations_from kernel eps v0 k rem.
Proof.
  induction rem as [|rem IH]; intros k rem' Hle Hlt;
    cbn [iterations_from] in *; [lia|].
  destruct rem' as [|rem']; [lia|]. cbn [iterations_from].
  destruct (converged_at kernel eps v0 k); [done|].
  f_equal. apply IH; lia.
Qed.

Lemma iterations_mono n m :
  (n ≤ m)%nat → (iterations kernel eps v0 n ≤ iterations kernel eps v0 m)%nat.
Proof.
  intros Hle. destruct n as [|n]; cbn [iterations]; [lia|].
  destruct m as [|m]; [lia|]. cbn [iterations].
  pose proof (iterations_from_mono n 1 m). lia.
Qed.

Lemma iterations_stable n m :
  (n ≤ m)%nat → (iterations kernel eps v0 n < n)%nat →
  iterations kernel eps v0 m = iterations kernel eps v0 n.
Proof.
  intros Hle Hlt. destruct n as [|n]; cbn [iterations] in *; [lia|].
  destruct m as [|m]; [lia|]. cbn [iterations].
  f_equal. apply iterations_from_stable; lia.
Qed.
End CapFacts.

(** X5: for a weight other than zero, raising the cap never shortens a
    run, and a run that stopped before its cap, by [break], is not changed
    by a larger cap: the same number of iterations and the same result. *)
Theorem tv_denoise_cap_irrelevant (im2 : arr2) (im3 : arr3)
    (weight eps : float) (n m : Z) :
  nonzero_weight weight →
  (n ≤ m)%Z →
  ((tv2_iterations im2 weight eps n ≤ tv2_iterations im2 weight eps m)%nat
   ∧ ((tv2_iterations im2 weight eps n < Z.to_nat n)%nat →
      tv2_iterations im2 weight eps m = tv2_iterations im2 weight eps n
      ∧ _tv_denoise_2d im2 weight eps m = _tv_denoise_2d im2 weight eps n))
  ∧ ((tv3_iterations im3 weight eps n ≤ tv3_iterations im3 weight eps m)%nat
     ∧ ((tv3_iterations im3 weight eps n < Z.to_nat n)%nat →
        tv3_iterations im3 weight eps m = tv3_iterations im3 weight eps n
        ∧ _tv_denoise_3d im3 weight eps m = _tv_denoise_3d im3 weight eps n)).
Proof.
  intros _ Hle. assert (Z.to_nat n ≤ Z.to_nat m)%nat as Hle' by lia.
  split.
  - split.
    + rewrite !tv2_iterations_eq. by apply iterations_mono.
    + intros Hlt.
      assert (tv2_iterations im2 weight eps m = tv2_iterations im2 weight eps n)
        as Heq.
      { rewrite tv2_iterations_eq in Hlt. rewrite !tv2_iterations_eq.
        by apply iterations_stable. }
      split; [exact Heq|]. by rewrite !tv2_denoise_eq, Heq.
  - split.
    + rewrite !tv3_iterations_eq. by apply iterations_mono.
    + intros Hlt.
      assert (tv3_iterations im3 weight eps m = tv3_iterations im3 weight eps n)
        as Heq.
      { rewrite tv3_iterations_eq in Hlt. rewrite !tv3_iterations_eq.
        by apply iterations_stable. }
      split; [exact Heq|]. by rewrite !tv3_denoise_eq, Heq.
Qed.

Lemma tv_denoise_cap_irrelevant_witness :
  _tv_denoise_2d step2 0x1p-60 0x1p-52 200
  = _tv_denoise_2d step2 0x1p-60 0x1p-52 5
  ∧ _tv_denoise_3d checker3 100 0.5 200 = _tv_denoise_3d checker3 100 0.5 5.
Proof.
  assert (5 ≤ 200)%Z as H by lia.
  assert (nonzero_weight 0x1p-60) as Hw2 by reflexivity.
  assert (nonzero_weight 100) as Hw3 by reflexivity.
  split.
  - apply (proj2 (proj1 (tv_denoise_cap_irrelevant step2 checker3
                           0x1p-60 0x1p-52 5 200 Hw2 H))).
    vm_compute. lia.
  - apply (proj2 (proj2 (tv_denoise_cap_irrelevant step2 checker3
                           100 0.5 5 200 Hw3 H))).
    vm_compute. lia.
Defined.

(** ** The loop raises nothing *)

Section LoopSafe.
Context {V : Type}.
Variable kernel : V → V * float.
Variable eps : float.
Variable v0 : V.

Lemma run_loop_E_init (n : Z) :
  (1 ≤ n)%Z →
  E_init (snd (run_loop kernel eps n v0)) = Some (energy_at kernel v0 0).
Proof.
  intros Hn. unfold run_loop.
  destruct (Z.to_nat n) as [|m] eqn:Hm; [lia|].
  cbn [while_loop]. rewrite loop_body_first by done. cbn [vars].
  change (LoopState (fst (kernel v0)) (Some (snd (kernel v0)))
            (Some (snd (kernel v0))) 1) with (state_at kernel v0 1).
  destruct (while_loop_at kernel eps v0 m 1) as (s & Hw & _ & HE); [lia|].
  rewrite Hw. exact HE.
Qed.

Lemma loop_exec_safe (n : Z) k e s :
  loop_exec kernel eps n (LoopState v0 None None 0) k e s →
  e = None
  ∧ k = iterations kernel eps v0 (Z.to_nat n)
  ∧ ((1 ≤ n)%Z → E_init s = Some (energy_at kernel v0 0)).
Proof.
  intros Hex.
  pose proof (run_loop_exec kernel eps n v0) as Hr.
  pose proof (run_loop_E_init n) as HE.
  destruct (run_loop_spec kernel eps v0 n) as (s' & Hs & _).
  rewrite Hs in Hr, HE. cbn [snd] in HE.
  destruct (loop_exec_deterministic _ _ _ _ _ _ _ _ _ _ Hex Hr)
    as (-> & -> & ->).
  done.
Qed.
End LoopSafe.

(** X6: for a weight other than zero, every execution of the loop of
    either optimizer ends without an
    exception: [E_previous] and [E_init] are bound whenever lines 161 (78)
    read them, and [E_init] still holds the energy of iteration 0 at the
    end.  The only exception an optimizer raises is the [UnboundLocalError]
    for [out], and only when [n_iter_max <= 0]. *)
Theorem tv_loop_never_raises (im2 : arr2) (im3 : arr3) (weight eps : float)
    (n_iter_max : Z) :
  nonzero_weight weight →
  (∀ k e s,
     loop_exec (tv2_kernel im2 weight) eps n_iter_max
       (LoopState (tv2_init im2) None None 0) k e s →
     e = None
     ∧ k = tv2_iterations im2 weight eps n_iter_max
     ∧ ((1 ≤ n_iter_max)%Z →
        E_init s
        = Some (energy_at (tv2_kernel im2 weight) (tv2_init im2) 0)))
  ∧ (∀ k e s,
       loop_exec (tv3_kernel im3 weight) eps n_iter_max
         (LoopState (tv3_init im3) None None 0) k e s →
       e = None
       ∧ k = tv3_iterations im3 weight eps n_iter_max
       ∧ ((1 ≤ n_iter_max)%Z →
          E_init s
          = Some (energy_at (tv3_kernel im3 weight) (tv3_init im3) 0)))
  ∧ (∀ x, _tv_denoise_2d im2 weight eps n_iter_max = Raise x →
          x = UnboundLocalError "out" ∧ (n_iter_max ≤ 0)%Z)
  ∧ (∀ x, _tv_denoise_3d im3 weight eps n_iter_max = Raise x →
          x = UnboundLocalError "out" ∧ (n_iter_max ≤ 0)%Z).
Proof.
  intros _. split; [|split; [|split]].
  - intros k e s Hex. rewrite tv2_iterations_eq. by apply loop_exec_safe.
  - intros k e s Hex. rewrite tv3_iterations_eq. by apply loop_exec_safe.
  - intros x. rewrite tv2_denoise_eq, tv2_iterations_eq.
    pose proof (iterations_pos (tv2_kernel im2 weight) eps (tv2_init im2)
                  (Z.to_nat n_iter_max)) as Hp.
    destruct (iterations _ _ _ _) as [|j]; [|done].
    intros [= <-]. split; [done|lia].
  - intros x. rewrite tv3_denoise_eq, tv3_iterations_eq.
    pose proof (iterations_pos (tv3_kernel im3 weight) eps (tv3_init im3)
                  (Z.to_nat n_iter_max)) as Hp.
    destruct (iterations _ _ _ _) as [|j]; [|done].
    intros [= <-]. split; [done|lia].
Qed.

Lemma tv_loop_never_raises_witness :
  (None : option exn) = None
  ∧ 1%nat = tv2_iterations flat2 50 0.5 1
  ∧ ((1 ≤ 1)%Z →
     E_init (snd (loop_body (tv2_kernel flat2 50) 0.5
                    (LoopState (tv2_init flat2) None None 0)))
     = Some (energy_at (tv2_kernel flat2 50) (tv2_init flat2) 0)).
Proof.
  assert (nonzero_weight 50) as Hw by reflexivity.
  apply (proj1 (tv_loop_never_raises flat2 checker3 50 0.5 1 Hw)).
  eapply exec_continue.
  - simpl. lia.
  - reflexivity.
  - apply exec_exit. simpl. lia.
Defined.

(** ** Which compiled routine the bilateral filter calls *)

Lemma squeeze_trailing_one r c :
  filter (λ n, n ≠ 1%nat) [r; c; 1%nat] = filter (λ n, n ≠ 1%nat) [r; c].
Proof.
  rewrite !filter_cons, filter_nil.
  destruct (decide (1%nat ≠ 1%nat)); [done|]. reflexivity.
Qed.

Lemma squeeze_rank2 r c :
  length (filter (λ n, n ≠ 1%nat) [r; c]) = 2%nat ↔ r ≠ 1%nat ∧ c ≠ 1%nat.
Proof.
  rewrite !filter_cons, filter_nil.
  destruct (decide (r ≠ 1%nat)), (decide (c ≠ 1%nat)); cbn [length];
    split; intros; (done || lia || tauto).
Qed.

Lemma np_ascontiguousarray_ranked a :
  shape a ≠ [] → np_ascontiguousarray a = a.
Proof. unfold np_ascontiguousarray. by destruct (shape a). Qed.

Lemma squeeze_not_scalar r c :
  r ≠ 1%nat ∨ c ≠ 1%nat → filter (λ n, n ≠ 1%nat) [r; c] ≠ [].
Proof.
  rewrite !filter_cons, filter_nil.
  destruct (decide (r ≠ 1%nat)), (decide (c ≠ 1%nat)); intros [?|?]; done.
Qed.

(** X7: for a valid mode, [denoise_bilateral] converts the image to
    doubles and calls the 2-D routine on an image of rank 2; on an image of
    shape [(r, c, 1)] it calls the 2-D routine on the squeezed image, from
    which [np.squeeze] has removed every axis of length 1, so that its rank
    is 2 only if neither [r] nor [c] is 1; in every other case, whatever the
    rank, it calls the 3-D routine.  No rank is rejected here.  (Arrays of
    rank 0, which [np.ascontiguousarray] would turn into arrays of rank 1,
    are left aside.) *)
Theorem denoise_bilateral_dispatch
    (_denoise_bilateral2d _denoise_bilateral3d
       : ndarray → bilateral_args → Z → result ndarray)
    (image : ndarray) (args : bilateral_args) (mode : string) :
  mode ∈ valid_modes →
  ∃ code,
    (mode, code) ∈ mode_codes
    ∧ (ndim image = 2%nat →
       denoise_bilateral _denoise_bilateral2d _denoise_bilateral3d
         image args mode
       = ([call_denoise_bilateral2d (np_array_double image) code],
          _denoise_bilateral2d (np_array_double image) args code))
    ∧ (∀ r c, shape image = [r; c; 1%nat] → r ≠ 1%nat ∨ c ≠ 1%nat →
       denoise_bilateral _denoise_bilateral2d _denoise_bilateral3d
         image args mode
       = ([call_denoise_bilateral2d
             (NdArray kind_f (filter (λ n, n ≠ 1%nat) [r; c]) (buf image)) code],
          _denoise_bilateral2d
            (NdArray kind_f (filter (λ n, n ≠ 1%nat) [r; c]) (buf image))
            args code)
       ∧ (ndim (NdArray kind_f (filter (λ n, n ≠ 1%nat) [r; c]) (buf image))
          = 2%nat ↔ r ≠ 1%nat ∧ c ≠ 1%nat))
    ∧ (ndim image ≠ 0%nat → ndim image ≠ 2%nat →
       (ndim image = 3%nat → shape image !! 2%nat ≠ Some 1%nat) →
       denoise_bilateral _denoise_bilateral2d _denoise_bilateral3d
         image args mode
       = ([call_denoise_bilateral3d (np_array_double image) code],
          _denoise_bilateral3d (np_array_double image) args code)).
Proof.
  intros Hm. unfold denoise_bilateral.
  rewrite bool_decide_eq_true_2 by done. cbn [negb].
  assert (∃ ch s code, mode = String ch s
            ∧ code = Z.of_nat (nat_of_ascii (upper ch))
            ∧ (mode, code) ∈ mode_codes) as (ch & s & code & -> & Hc & Hin).
  { unfold valid_modes in Hm.
    repeat (apply elem_of_cons in Hm as [->|Hm]);
      [ | | | | by apply elem_of_nil in Hm ];
      eexists _, _, _; (split; [reflexivity|]); (split; [reflexivity|]);
      unfold mode_codes; rewrite !elem_of_cons; cbv; tauto. }
  rewrite <- Hc. exists code. split; [exact Hin|].
  unfold ndim. cbn [np_array_double shape].
  split; [|split].
  - intros H2. rewrite (bool_decide_eq_true_2 _ H2).
    rewrite bool_decide_eq_false_2 by lia. cbn [orb andb].
    rewrite np_ascontiguousarray_ranked; [reflexivity|].
    cbn [np_array_double shape]. by destruct (shape image).
  - intros r c Hs Hrc. rewrite Hs.
    split; [|apply squeeze_rank2].
    cbn [length lookup list_lookup].
    rewrite bool_decide_eq_false_2 by lia.
    rewrite !bool_decide_eq_true_2 by done.
    cbn [orb andb]. unfold np_squeeze. cbn [np_array_double dtype shape buf].
    rewrite Hs, squeeze_trailing_one.
    rewrite np_ascontiguousarray_ranked; [reflexivity|].
    cbn [shape]. by apply squeeze_not_scalar.
  - intros H0 H2 H3.
    rewrite (np_ascontiguousarray_ranked (np_array_double image))
      by (cbn [np_array_double shape]; intros E; by rewrite E in H0).
    rewrite (bool_decide_eq_false_2 _ H2). cbn [orb].
    destruct (bool_decide (length (shape image) = 3%nat)) eqn:Hb; [|done].
    apply bool_decide_eq_true_1 in Hb.
    rewrite bool_decide_eq_false_2 by by apply H3. reflexivity.
Qed.

Lemma denoise_bilateral_dispatch_witness :
  ∃ code,
    ("wrap", code) ∈ mode_codes
    ∧ denoise_bilateral (λ a _ _, Ok a) (λ a _ _, Ok a)
        (NdArray kind_u [1; 4; 1] (concat checker2))
        (BilateralArgs 5 1 1 10000 0) "wrap"
      = ([call_denoise_bilateral2d
            (NdArray kind_f (filter (λ n, n ≠ 1%nat) [1; 4]) (concat checker2))
            code],
         Ok (NdArray kind_f (filter (λ n, n ≠ 1%nat) [1; 4]) (concat checker2))).
Proof.
  assert ("wrap" ∈ valid_modes) as Hm.
  { unfold valid_modes. apply list_elem_of_further, list_elem_of_here. }
  destruct (denoise_bilateral_dispatch (λ a _ _, Ok a) (λ a _ _, Ok a)
              (NdArray kind_u [1; 4; 1] (concat checker2))
              (BilateralArgs 5 1 1 10000 0) "wrap" Hm)
    as (code & Hc & _ & Hs & _).
  exists code. split; [exact Hc|].
  assert (1 ≠ 1 ∨ 4 ≠ 1)%nat as Hrc by (right; lia).
  exact (proj1 (Hs 1%nat 4%nat eq_refl Hrc)).
Defined.

(** ** Buffers and rows *)

Lemma to_arr2_S r c l : to_arr2 (S r) c l = take c l :: to_arr2 r c (drop c l).
Proof. reflexivity. Qed.

Lemma to_arr2_shape r c : ∀ l,
  length l = (r * c)%nat → shape2 r c (to_arr2 r c l).
Proof.
  induction r as [|r IH]; intros l Hl.
  - split; [done|]. constructor.
  - rewrite to_arr2_S.
    destruct (IH (drop c l)) as [Hlen Hall]; [rewrite length_drop; lia|].
    split; [cbn [length]; by rewrite Hlen|].
    constructor; [|exact Hall]. rewrite length_take. lia.
Qed.

Lemma concat_to_arr2 r c : ∀ l,
  length l = (r * c)%nat → concat (to_arr2 r c l) = l.
Proof.
  induction r as [|r IH]; intros l Hl.
  - destruct l; [done|]. cbn in Hl. lia.
  - rewrite to_arr2_S. cbn [concat].
    rewrite IH by (rewrite length_drop; lia). apply take_drop.
Qed.

Lemma to_arr2_concat r c (a : arr2) :
  shape2 r c a → to_arr2 r c (concat a) = a.
Proof.
  intros [Hlen Hall]. revert r Hlen.
  induction Hall as [|row a Hrow Hall IH]; intros r Hlen.
  - by subst r.
  - cbn [length] in Hlen. subst r. rewrite to_arr2_S. cbn [concat].
    rewrite take_app_length' by done. rewrite drop_app_length' by done.
    f_equal. by apply IH.
Qed.

Lemma to_arr3_S p r c l :
  to_arr3 (S p) r c l
  = to_arr2 r c (take (r * c) l) :: to_arr3 p r c (drop (r * c) l).
Proof. reflexivity. Qed.

Lemma to_arr2_take r c l :
  (r * c ≤ length l)%nat → shape2 r c (to_arr2 r c (take (r * c) l)).
Proof. intros Hl. apply to_arr2_shape. rewrite length_take. lia. Qed.

Lemma to_arr3_shape p r c : ∀ l,
  length l = (p * r * c)%nat → shape3 p r c (to_arr3 p r c l).
Proof.
  induction p as [|p IH]; intros l Hl.
  - split; [done|]. constructor.
  - rewrite to_arr3_S.
    destruct (IH (drop (r * c) l)) as [Hlen Hall]; [rewrite length_drop; lia|].
    split; [cbn [length]; by rewrite Hlen|].
    constructor; [|exact Hall]. apply to_arr2_take. lia.
Qed.

Lemma concat_to_arr3 p r c : ∀ l,
  length l = (p * r * c)%nat → concat (concat (to_arr3 p r c l)) = l.
Proof.
  induction p as [|p IH]; intros l Hl.
  - destruct l; [done|]. cbn in Hl. lia.
  - rewrite to_arr3_S. cbn [concat]. rewrite concat_app.
    rewrite IH by (rewrite length_drop; lia).
    rewrite concat_to_arr2 by (rewrite length_take; lia).
    apply take_drop.
Qed.

Lemma to_arr3_concat p r c (a : arr3) :
  shape3 p r c a → to_arr3 p r c (concat (concat a)) = a.
Proof.
  intros [Hlen Hall]. revert p Hlen.
  induction Hall as [|pl a Hpl Hall IH]; intros p Hlen.
  - by subst p.
  - cbn [length] in Hlen. subst p. rewrite to_arr3_S. cbn [concat].
    rewrite concat_app.
    assert (length (concat pl) = (r * c)%nat) as Hsz by by apply size2_spec.
    rewrite take_app_length' by done. rewrite drop_app_length' by done.
    f_equal; [by apply to_arr2_concat|by apply IH].
Qed.

(** X8: with [n_iter_max >= 1] and a weight other than zero, on an image
    whose buffer holds as many
    samples as its shape says, [tv_denoise] returns an array of the same
    element kind and shape with as many samples, whose rows (planes) are the
    optimizer's result. *)
Theorem tv_denoise_result_shape (img_as_float : ndarray → ndarray)
    (im : ndarray) (weight eps : float) (n_iter_max : Z) :
  nonzero_weight weight →
  (1 ≤ n_iter_max)%Z →
  (∀ r c,
     shape (tv_input img_as_float im) = [r; c] →
     length (buf (tv_input img_as_float im)) = (r * c)%nat →
     ∃ out,
       _tv_denoise_2d (to_arr2 r c (buf (tv_input img_as_float im)))
         weight eps n_iter_max = Ok out
       ∧ snd (tv_denoise img_as_float im weight eps n_iter_max)
         = Ok (NdArray (dtype (tv_input img_as_float im)) [r; c] (concat out))
       ∧ length (concat out) = (r * c)%nat
       ∧ to_arr2 r c (concat out) = out)
  ∧ (∀ p r c,
       shape (tv_input img_as_float im) = [p; r; c] →
       length (buf (tv_input img_as_float im)) = (p * r * c)%nat →
       ∃ out,
         _tv_denoise_3d (to_arr3 p r c (buf (tv_input img_as_float im)))
           weight eps n_iter_max = Ok out
         ∧ snd (tv_denoise img_as_float im weight eps n_iter_max)
           = Ok (NdArray (dtype (tv_input img_as_float im)) [p; r; c]
                   (concat (concat out)))
         ∧ length (concat (concat out)) = (p * r * c)%nat
         ∧ to_arr3 p r c (concat (concat out)) = out).
Proof.
  intros _ Hn. rewrite tv_denoise_via_input. cbn [snd]. split.
  - intros r c Hs Hl.
    destruct (tv2_denoise_shape r c
                (to_arr2 r c (buf (tv_input img_as_float im)))
                weight eps n_iter_max Hn (to_arr2_shape r c _ Hl))
      as (out & Hout & Hsh).
    exists out. split; [exact Hout|].
    split; [unfold tv_dispatch; rewrite Hs; cbv zeta; cbn [snd];
            by rewrite Hout|].
    split; [by apply size2_spec|by apply to_arr2_concat].
  - intros p r c Hs Hl.
    destruct (tv3_denoise_shape p r c
                (to_arr3 p r c (buf (tv_input img_as_float im)))
                weight eps n_iter_max Hn (to_arr3_shape p r c _ Hl))
      as (out & Hout & Hsh).
    exists out. split; [exact Hout|].
    split; [unfold tv_dispatch; rewrite Hs; cbv zeta; cbn [snd];
            by rewrite Hout|].
    split; [by apply size3_spec|by apply to_arr3_concat].
Qed.

Lemma tv_denoise_result_shape_witness :
  ∃ out,
    _tv_denoise_2d
      (to_arr2 2 2
         (buf (tv_input retag_float (NdArray kind_u [2; 2] (concat checker2)))))
      50 0.5 3 = Ok out
    ∧ snd (tv_denoise retag_float (NdArray kind_u [2; 2] (concat checker2))
             50 0.5 3)
      = Ok (NdArray
              (dtype (tv_input retag_float
                        (NdArray kind_u [2; 2] (concat checker2))))
              [2; 2] (concat out))
    ∧ length (concat out) = (2 * 2)%nat
    ∧ to_arr2 2 2 (concat out) = out.
Proof.
  assert (1 ≤ 3)%Z as H by lia.
  assert (nonzero_weight 50) as Hw by reflexivity.
  exact (proj1 (tv_denoise_result_shape retag_float
                  (NdArray kind_u [2; 2] (concat checker2)) 50 0.5 3 Hw H)
           2%nat 2%nat eq_refl eq_refl).
Defined.

(** ** Binary64 facts the stop test depends on *)

Lemma Prim2SF_zero : Prim2SF 0 = S754_zero false.
Proof. reflexivity. Qed.

(** [|x| < y] forces [0 < y]. *)
Lemma ltb_abs_pos (x y : float) :
  (abs x <? y)%float = true → (0 <? y)%float = true.
Proof.
  rewrite !ltb_spec, abs_spec, Prim2SF_zero.
  destruct (Prim2SF x) as [sx|sx| |sx mx ex],
           (Prim2SF y) as [sy|sy| |sy my ey];
    cbn; try done; destruct sy; done.
Qed.

(** [0 * x] is a zero or not a number, so [0 < 0 * x] fails. *)
Lemma ltb_zero_mul_zero (x : float) : (0 <? 0 * x)%float = false.
Proof.
  rewrite ltb_spec, mul_spec, Prim2SF_zero.
  destruct (Prim2SF x) as [sx|sx| |sx mx ex]; reflexivity.
Qed.

Section StopTest.
Context {V : Type}.
Variable kernel : V → V * float.
Variable eps : float.
Variable v0 : V.

Lemma converged_at_threshold k :
  converged_at kernel eps v0 k = true →
  (0 <? eps * energy_at kernel v0 0)%float = true.
Proof. unfold converged_at. apply ltb_abs_pos. Qed.

Lemma iterations_no_threshold n :
  (0 <? eps * energy_at kernel v0 0)%float = false →
  iterations kernel eps v0 n = n.
Proof.
  intros H0. apply iterations_cap. intros j _.
  destruct (converged_at kernel eps v0 j) eqn:Hc; [|done].
  apply converged_at_threshold in Hc. congruence.
Qed.
End StopTest.

Lemma iterations_eps_zero {V} (kernel : V → V * float) v0 n :
  iterations kernel 0 v0 n = n.
Proof. apply iterations_no_threshold, ltb_zero_mul_zero. Qed.

(** ** Iteration 0 *)

Lemma add_neg_zero (x : float) : (x + (-0))%float = x.
Proof.
  apply Prim2SF_inj. rewrite add_spec.
  change (Prim2SF (-0)) with (S754_zero true).
  destruct (Prim2SF x) as [[]|[]| |sx mx ex]; reflexivity.
Qed.

Lemma add_pos_zero (x : float) : (x + 0)%float = x ∨ x = (-0)%float.
Proof.
  destruct (Prim2SF x) as [[]|[]| |sx mx ex] eqn:Hx.
  - right. apply Prim2SF_inj. by rewrite Hx.
  - left. apply Prim2SF_inj. rewrite add_spec, Hx. reflexivity.
  - left. apply Prim2SF_inj. rewrite add_spec, Hx. reflexivity.
  - left. apply Prim2SF_inj. rewrite add_spec, Hx. reflexivity.
  - left. apply Prim2SF_inj. rewrite add_spec, Hx. reflexivity.
  - left. apply Prim2SF_inj. rewrite add_spec, Hx. reflexivity.
Qed.

Lemma first_div2_spec r c :
  spec_div2 r c (tab2 r c (λ _ _, 0%float)) (tab2 r c (λ _ _, 0%float))
  = tab2 r c first_div2.
Proof.
  unfold spec_div2. apply tab2_ext. intros i j Hi Hj. cbv zeta.
  rewrite !at2_tab2 by lia.
  destruct i as [|i], j as [|j]; cbn [Nat.eqb andb first_div2];
    rewrite ?at2_tab2 by lia; reflexivity.
Qed.

Lemma first_div3_spec p r c :
  spec_div3 p r c (tab3 p r c (λ _ _ _, 0%float))
    (tab3 p r c (λ _ _ _, 0%float)) (tab3 p r c (λ _ _ _, 0%float))
  = tab3 p r c first_div3.
Proof.
  unfold spec_div3. apply tab3_ext. intros i j k Hi Hj Hk. cbv zeta.
  rewrite !at3_tab3 by lia.
  destruct i as [|i], j as [|j], k as [|k]; cbn [Nat.eqb andb first_div3];
    rewrite ?at3_tab3 by lia; reflexivity.
Qed.

Lemma tv2_first_out r c im :
  shape2 r c im →
  tv2_out im (tv2_init im)
  = tab2 r c (λ i j, at2 im i j + first_div2 i j)%float.
Proof.
  intros Him.
  rewrite (tv2_out_spec r c) by (done || by apply tv2_inv_init).
  unfold tv2_init. cbv zeta. cbn [px2 py2].
  rewrite (zeros_like2_tab2 r c) by done. rewrite first_div2_spec.
  unfold spec_out2. apply tab2_ext. intros i j Hi Hj.
  by rewrite at2_tab2.
Qed.

Lemma tv3_first_out p r c im :
  shape3 p r c im →
  tv3_out im (tv3_init im)
  = tab3 p r c (λ i j k, at3 im i j k + first_div3 i j k)%float.
Proof.
  intros Him.
  rewrite (tv3_out_spec p r c) by (done || by apply tv3_inv_init).
  unfold tv3_init. cbv zeta. cbn [px3 py3 pz3].
  rewrite (zeros_like3_tab3 p r c) by done. rewrite first_div3_spec.
  unfold spec_out3. apply tab3_ext. intros i j k Hi Hj Hk.
  by rewrite at3_tab3.
Qed.

Lemma add_first_div2 x i j :
  (x + first_div2 i j)%float = x
  ∨ ((0 < i + j)%nat ∧ x = (-0)%float ∧ (x + first_div2 i j)%float = 0%float).
Proof.
  unfold first_div2. destruct i as [|i], j as [|j]; cbn [Nat.eqb andb].
  - left. apply add_neg_zero.
  - destruct (add_pos_zero x) as [H| ->]; [by left|right].
    split; [lia|]. split; reflexivity.
  - destruct (add_pos_zero x) as [H| ->]; [by left|right].
    split; [lia|]. split; reflexivity.
  - destruct (add_pos_zero x) as [H| ->]; [by left|right].
    split; [lia|]. split; reflexivity.
Qed.

Lemma add_first_div3 x i j k :
  (x + first_div3 i j k)%float = x
  ∨ ((0 < i + j + k)%nat ∧ x = (-0)%float
     ∧ (x + first_div3 i j k)%float = 0%float).
Proof.
  unfold first_div3.
  destruct i as [|i], j as [|j], k as [|k]; cbn [Nat.eqb andb];
    [left; apply add_neg_zero|..];
    (destruct (add_pos_zero x) as [H| ->]; [by left|right];
     split; [lia|]; split; reflexivity).
Qed.

(** X10: with [n_iter_max = 1] and a weight other than zero, either
    optimizer returns the image itself, whatever the weight and [eps]: the
    estimate of iteration 0 is [image + d] with [d] a field of zeros, so
    every sample is returned as it is, except that a negative zero away from
    the origin comes back as a positive zero. *)
Theorem tv_denoise_one_iteration (weight eps : float) :
  nonzero_weight weight →
  (∀ r c (im : arr2),
     shape2 r c im →
     ∃ out,
       _tv_denoise_2d im weight eps 1 = Ok out
       ∧ shape2 r c out
       ∧ ∀ i j, (i < r)%nat → (j < c)%nat →
           at2 out i j = at2 im i j
           ∨ ((0 < i + j)%nat ∧ at2 im i j = (-0)%float
              ∧ at2 out i j = 0%float))
  ∧ (∀ p r c (im : arr3),
       shape3 p r c im →
       ∃ out,
         _tv_denoise_3d im weight eps 1 = Ok out
         ∧ shape3 p r c out
         ∧ ∀ i j k, (i < p)%nat → (j < r)%nat → (k < c)%nat →
             at3 out i j k = at3 im i j k
             ∨ ((0 < i + j + k)%nat ∧ at3 im i j k = (-0)%float
                ∧ at3 out i j k = 0%float)).
Proof.
  intros _. split.
  - intros r c im Him. rewrite tv2_denoise_eq, tv2_iterations_eq.
    change (Z.to_nat 1) with 1%nat. cbn [iterations iterations_from vars_at Nat.iter].
    eexists. split; [reflexivity|].
    rewrite (tv2_first_out r c) by done.
    split; [apply tab2_shape|].
    intros i j Hi Hj. rewrite at2_tab2 by done. apply add_first_div2.
  - intros p r c im Him. rewrite tv3_denoise_eq, tv3_iterations_eq.
    change (Z.to_nat 1) with 1%nat. cbn [iterations iterations_from vars_at Nat.iter].
    eexists. split; [reflexivity|].
    rewrite (tv3_first_out p r c) by done.
    split; [apply tab3_shape|].
    intros i j k Hi Hj Hk. rewrite at3_tab3 by done. apply add_first_div3.
Qed.

Lemma tv_denoise_one_iteration_witness :
  ∃ out,
    _tv_denoise_2d checker2 50 0.5 1 = Ok out
    ∧ shape2 2 2 out
    ∧ ∀ i j, (i < 2)%nat → (j < 2)%nat →
        at2 out i j = at2 checker2 i j
        ∨ ((0 < i + j)%nat ∧ at2 checker2 i j = (-0)%float
           ∧ at2 out i j = 0%float).
Proof.
  assert (nonzero_weight 50) as Hw by reflexivity.
  exact (proj1 (tv_denoise_one_iteration 50 0.5 Hw) 2%nat 2%nat checker2
           shape2_checker2).
Defined.

(** ** Zeros and NaNs stay zeros and NaNs *)

Lemma zn_zero : zero_or_nan 0.
Proof. exact I. Qed.

Lemma zn_add x y : zero_or_nan x → zero_or_nan y → zero_or_nan (x + y).
Proof.
  unfold zero_or_nan. rewrite add_spec.
  destruct (Prim2SF x) as [[]|[]| |sx mx ex],
           (Prim2SF y) as [[]|[]| |sy my ey]; done.
Qed.

Lemma zn_mul x y : zero_or_nan x → zero_or_nan y → zero_or_nan (x * y).
Proof.
  unfold zero_or_nan. rewrite mul_spec.
  destruct (Prim2SF x) as [[]|[]| |sx mx ex],
           (Prim2SF y) as [[]|[]| |sy my ey]; done.
Qed.

Lemma zn_mul_r x y : zero_or_nan y → zero_or_nan (x * y).
Proof.
  unfold zero_or_nan. rewrite mul_spec.
  destruct (Prim2SF x) as [[]|[]| |[] mx ex],
           (Prim2SF y) as [[]|[]| |sy my ey]; done.
Qed.

Lemma zn_div_l x y : zero_or_nan x → zero_or_nan (x / y).
Proof.
  unfold zero_or_nan. rewrite div_spec.
  destruct (Prim2SF x) as [[]|[]| |sx mx ex],
           (Prim2SF y) as [[]|[]| |[] my ey]; done.
Qed.

Lemma zn_sqrt x : zero_or_nan x → zero_or_nan (PrimFloat.sqrt x).
Proof.
  unfold zero_or_nan. rewrite sqrt_spec.
  destruct (Prim2SF x) as [[]|[]| |sx mx ex]; done.
Qed.

Lemma zn_square x : zero_or_nan x → zero_or_nan (square x).
Proof. intros Hx. by apply zn_mul. Qed.

Lemma SF64sub_diag s m e :
  SF64sub (S754_finite s m e) (S754_finite s m e) = S754_zero false.
Proof. unfold SF64sub, SFsub. cbv zeta. rewrite Z.sub_diag. reflexivity. Qed.

(** The difference of two samples that are the same value plus a zero. *)
Lemma zn_sub_shift v z1 z2 :
  (∃ s, Prim2SF z1 = S754_zero s) → (∃ s, Prim2SF z2 = S754_zero s) →
  zero_or_nan ((v + z1) - (v + z2)).
Proof.
  intros [s1 H1] [s2 H2]. unfold zero_or_nan.
  rewrite sub_spec, !add_spec, H1, H2.
  destruct (Prim2SF v) as [sv|sv| |sv mv ev].
  - destruct sv, s1, s2; exact I.
  - destruct sv, s1, s2; exact I.
  - exact I.
  - change (SF64add (S754_finite sv mv ev) (S754_zero s1))
      with (S754_finite sv mv ev).
    change (SF64add (S754_finite sv mv ev) (S754_zero s2))
      with (S754_finite sv mv ev).
    by rewrite SF64sub_diag.
Qed.

Lemma ltb_zero_mul_zn x y : zero_or_nan y → (0 <? x * y)%float = false.
Proof.
  unfold zero_or_nan. rewrite ltb_spec, mul_spec, Prim2SF_zero.
  destruct (Prim2SF x) as [[]|[]| |[] mx ex],
           (Prim2SF y) as [[]|[]| |sy my ey]; done.
Qed.

Lemma zn_float_sum l s :
  float_sum l s → Forall zero_or_nan l → zero_or_nan s.
Proof.
  induction 1 as [|x|l1 l2 s1 s2 _ IH1 _ IH2|l1 l2 s Hp _ IH]; intros Hl.
  - exact zn_zero.
  - by apply Forall_cons in Hl as [Hx _].
  - apply Forall_app in Hl as [H1 H2]. apply zn_add; auto.
  - apply IH. by rewrite Hp.
Qed.

Lemma zn_sum1 l : Forall zero_or_nan l → zero_or_nan (sum1 l).
Proof. apply zn_float_sum, sum1_float_sum. Qed.

Lemma Forall_tab {A} (P : A → Prop) n f :
  (∀ k, (k < n)%nat → P (f k)) → Forall P (tab n f).
Proof.
  intros H. apply Forall_lookup. intros k x Hk.
  destruct (decide (k < n)%nat) as [Hlt|Hge].
  - rewrite lookup_tab in Hk by done. injection Hk as <-. by apply H.
  - rewrite lookup_tab_ge in Hk by lia. done.
Qed.

Lemma zn_sum2_tab2 r c f :
  (∀ i j, (i < r)%nat → (j < c)%nat → zero_or_nan (f i j)) →
  zero_or_nan (sum2 (tab2 r c f)).
Proof.
  intros H. unfold sum2. apply zn_sum1.
  apply Forall_concat. apply Forall_tab. intros i Hi.
  apply Forall_tab. intros j Hj. by apply H.
Qed.

Lemma zn_sum3_tab3 p r c f :
  (∀ i j k, (i < p)%nat → (j < r)%nat → (k < c)%nat → zero_or_nan (f i j k)) →
  zero_or_nan (sum3 (tab3 p r c f)).
Proof.
  intros H. unfold sum3. apply zn_sum1.
  apply Forall_concat, Forall_concat. apply Forall_tab. intros i Hi.
  apply Forall_tab. intros j Hj. apply Forall_tab. intros k Hk. by apply H.
Qed.

Lemma first_div2_zero i j : ∃ s, Prim2SF (first_div2 i j) = S754_zero s.
Proof. unfold first_div2. destruct (_ && _); eexists; reflexivity. Qed.

Lemma first_div3_zero i j k : ∃ s, Prim2SF (first_div3 i j k) = S754_zero s.
Proof. unfold first_div3. destruct (_ && _); eexists; reflexivity. Qed.

Lemma zn_first_div2 i j : zero_or_nan (first_div2 i j).
Proof. unfold first_div2. destruct (_ && _); exact I. Qed.

Lemma zn_first_div3 i j k : zero_or_nan (first_div3 i j k).
Proof. unfold first_div3. destruct (_ && _); exact I. Qed.

(** ** A constant image *)

Lemma tv2_constant_energy r c im v weight :
  shape2 r c im →
  (∀ i j, (i < r)%nat → (j < c)%nat → at2 im i j = v) →
  zero_or_nan (energy_at (tv2_kernel im weight) (tv2_init im) 0).
Proof.
  intros Him Hv.
  pose proof (tv2_step_spec r c im weight 0 Him) as Hs.
  apply pair_equal_spec in Hs as [_ ->].
  change (vars_at (tv2_kernel im weight) (tv2_init im) 0) with (tv2_init im).
  unfold spec_kernel2, tv2_init. cbv zeta. cbn [px2 py2 snd].
  rewrite (zeros_like2_tab2 r c) by done. rewrite first_div2_spec.
  unfold spec_energy2.
  assert (∀ i j, (i < r)%nat → (j < c)%nat →
            at2 (spec_out2 r c im (tab2 r c first_div2)) i j
            = (v + first_div2 i j)%float) as Hout.
  { intros i j Hi Hj. unfold spec_out2.
    rewrite !at2_tab2 by done. by rewrite Hv. }
  apply zn_div_l, zn_add; [|apply zn_mul_r].
  - apply zn_sum2_tab2. intros i j Hi Hj. rewrite at2_tab2 by done.
    apply zn_square, zn_first_div2.
  - unfold spec_norm2. apply zn_sum2_tab2. intros i j Hi Hj.
    apply zn_sqrt, zn_add; apply zn_square.
    + unfold spec_grad2_x. rewrite at2_tab2 by done.
      destruct (Nat.ltb_spec (S i) r) as [Hlt|_]; [|exact zn_zero].
      rewrite !Hout by lia. apply zn_sub_shift; apply first_div2_zero.
    + unfold spec_grad2_y. rewrite at2_tab2 by done.
      destruct (Nat.ltb_spec (S j) c) as [Hlt|_]; [|exact zn_zero].
      rewrite !Hout by lia. apply zn_sub_shift; apply first_div2_zero.
Qed.

Lemma tv3_constant_energy p r c im v weight :
  shape3 p r c im →
  (∀ i j k, (i < p)%nat → (j < r)%nat → (k < c)%nat → at3 im i j k = v) →
  zero_or_nan (energy_at (tv3_kernel im weight) (tv3_init im) 0).
Proof.
  intros Him Hv.
  pose proof (tv3_step_spec p r c im weight 0 Him) as Hs.
  apply pair_equal_spec in Hs as [_ ->].
  change (vars_at (tv3_kernel im weight) (tv3_init im) 0) with (tv3_init im).
  unfold spec_kernel3, tv3_init. cbv zeta. cbn [px3 py3 pz3 snd].
  rewrite (zeros_like3_tab3 p r c) by done. rewrite first_div3_spec.
  unfold spec_energy3.
  assert (∀ i j k, (i < p)%nat → (j < r)%nat → (k < c)%nat →
            at3 (spec_out3 p r c im (tab3 p r c first_div3)) i j k
            = (v + first_div3 i j k)%float) as Hout.
  { intros i j k Hi Hj Hk. unfold spec_out3.
    rewrite !at3_tab3 by done. by rewrite Hv. }
  apply zn_div_l, zn_add; [|apply zn_mul_r].
  - apply zn_sum3_tab3. intros i j k Hi Hj Hk. rewrite at3_tab3 by done.
    apply zn_square, zn_first_div3.
  - unfold spec_norm3. apply zn_sum3_tab3. intros i j k Hi Hj Hk.
    apply zn_sqrt, zn_add; [apply zn_add|]; apply zn_square.
    + unfold spec_grad3_x. rewrite at3_tab3 by done.
      destruct (Nat.ltb_spec (S i) p) as [Hlt|_]; [|exact zn_zero].
      rewrite !Hout by lia. apply zn_sub_shift; apply first_div3_zero.
    + unfold spec_grad3_y. rewrite at3_tab3 by done.
      destruct (Nat.ltb_spec (S j) r) as [Hlt|_]; [|exact zn_zero].
      rewrite !Hout by lia. apply zn_sub_shift; apply first_div3_zero.
    + unfold spec_grad3_z. rewrite at3_tab3 by done.
      destruct (Nat.ltb_spec (S k) c) as [Hlt|_]; [|exact zn_zero].
      rewrite !Hout by lia. apply zn_sub_shift; apply first_div3_zero.
Qed.

(** X9: the stop test of either optimizer can hold only if
    [eps * E_init] is strictly positive: whenever [0 < eps * E_init] fails,
    as it does when [E_init] is zero or not a number, or [eps] is zero or of
    the other sign, the loop runs [n_iter_max] iterations; with [eps = 0] it
    always does.  (Weights other than zero.) *)
Theorem tv_stop_needs_positive_threshold (im2 : arr2) (im3 : arr3)
    (weight eps : float) (n_iter_max : Z) :
  nonzero_weight weight →
  ((∀ k, converged_at (tv2_kernel im2 weight) eps (tv2_init im2) k = true →
         (0 <? eps * energy_at (tv2_kernel im2 weight) (tv2_init im2) 0)%float
         = true)
   ∧ ((0 <? eps * energy_at (tv2_kernel im2 weight) (tv2_init im2) 0)%float
      = false →
      tv2_iterations im2 weight eps n_iter_max = Z.to_nat n_iter_max)
   ∧ tv2_iterations im2 weight 0 n_iter_max = Z.to_nat n_iter_max)
  ∧ ((∀ k, converged_at (tv3_kernel im3 weight) eps (tv3_init im3) k = true →
           (0 <? eps * energy_at (tv3_kernel im3 weight) (tv3_init im3) 0)%float
           = true)
     ∧ ((0 <? eps * energy_at (tv3_kernel im3 weight) (tv3_init im3) 0)%float
        = false →
        tv3_iterations im3 weight eps n_iter_max = Z.to_nat n_iter_max)
     ∧ tv3_iterations im3 weight 0 n_iter_max = Z.to_nat n_iter_max).
Proof.
  intros _. rewrite !tv2_iterations_eq, !tv3_iterations_eq.
  split; (split; [apply converged_at_threshold|]);
    (split; [apply iterations_no_threshold|apply iterations_eps_zero]).
Qed.

Lemma tv_stop_needs_positive_threshold_witness :
  tv2_iterations flat2 50 0.5 200 = Z.to_nat 200
  ∧ tv3_iterations checker3 100 (-1) 7 = Z.to_nat 7.
Proof.
  assert (nonzero_weight 50) as Hw2 by reflexivity.
  assert (nonzero_weight 100) as Hw3 by reflexivity.
  split.
  - apply (proj1 (proj2 (proj1
      (tv_stop_needs_positive_threshold flat2 checker3 50 0.5 200 Hw2)))).
    vm_compute. reflexivity.
  - apply (proj1 (proj2 (proj2
      (tv_stop_needs_positive_threshold flat2 checker3 100 (-1) 7 Hw3)))).
    vm_compute. reflexivity.
Defined.

(** X11: on an image whose samples are all the same value, whatever that
    value (infinities and NaN included), the weight (other than zero) and
    [eps], [E_init] is a zero or not a number, so the loop never stops
    early: it runs [n_iter_max] iterations. *)
Theorem tv_constant_image_runs_to_cap (v weight eps : float) (n_iter_max : Z) :
  nonzero_weight weight →
  (∀ r c (im : arr2),
     shape2 r c im →
     (∀ i j, (i < r)%nat → (j < c)%nat → at2 im i j = v) →
     tv2_iterations im weight eps n_iter_max = Z.to_nat n_iter_max)
  ∧ (∀ p r c (im : arr3),
       shape3 p r c im →
       (∀ i j k, (i < p)%nat → (j < r)%nat → (k < c)%nat → at3 im i j k = v) →
       tv3_iterations im weight eps n_iter_max = Z.to_nat n_iter_max).
Proof.
  intros _. split.
  - intros r c im Him Hv. rewrite tv2_iterations_eq.
    apply iterations_no_threshold, ltb_zero_mul_zn.
    by apply (tv2_constant_energy r c im v).
  - intros p r c im Him Hv. rewrite tv3_iterations_eq.
    apply iterations_no_threshold, ltb_zero_mul_zn.
    by apply (tv3_constant_energy p r c im v).
Qed.

Lemma flat2_constant i j : (i < 2)%nat → (j < 2)%nat → at2 flat2 i j = 1%float.
Proof.
  intros Hi Hj. destruct i as [|[|i]]; [| |lia];
    (destruct j as [|[|j]]; [reflexivity|reflexivity|lia]).
Qed.

Lemma shape2_flat2 : shape2 2 2 flat2.
Proof. split; [reflexivity|]. repeat constructor. Qed.

Lemma tv_constant_image_runs_to_cap_witness :
  tv2_iterations flat2 50 0.5 200 = Z.to_nat 200.
Proof.
  assert (nonzero_weight 50) as Hw by reflexivity.
  exact (proj1 (tv_constant_image_runs_to_cap 1 50 0.5 200 Hw) 2%nat 2%nat
           flat2 shape2_flat2 flat2_constant).
Defined.
